(** * The per-device dispatch core of serial-server (package [listener])

    A shallow embedding of the request cache, the pending request with its
    single-shot completion channel, and the write queue that serialises
    client requests onto the half-duplex serial link, followed by the
    properties of the specification that are settled against it.

    Conventions of the embedding
    - [uint64] values are integers in [0, 2^64); arithmetic on them wraps.
    - [time.Time] is an integer count of nanoseconds since Go's zero instant,
      so [IsZero] is equality with [0]; [time.Duration] is an [int64] count
      of nanoseconds: [Sub] saturates and multiplication wraps, as in Go.
    - A [*PendingRequest] is a record carrying the address of the object;
      pointer comparison is comparison of addresses.  The lists of the queue
      own the objects they refer to: [SentAt] is only written through the
      head of [pending], the pointer kept in [inflight] is only tested for
      presence, and the finishers run on objects the queue has let go.
    - Every section of code that runs under [q.mu] is one atomic step that
      reads the clock once; goroutines started with [go] and calls on the
      serial port or the issue log are returned as a list of events. *)

From Stdlib Require Import ZArith List Lia.
From Stdlib.Strings Require Import Byte.
From stdpp Require Import base gmap strings list fin_maps sorting.

Local Open Scope Z_scope.

(** ** Machine integers *)

Definition wrap_uint64 (x : Z) : Z := x mod 2 ^ 64.

Definition wrap_int64 (x : Z) : Z := (x + 2 ^ 63) mod 2 ^ 64 - 2 ^ 63.

(** ** package time *)

Module time.

Abbreviation Time := Z.
Abbreviation Duration := Z.

Definition minDuration : Duration := - 2 ^ 63.
Definition maxDuration : Duration := 2 ^ 63 - 1.

Definition Nanosecond : Duration := 1.
Definition Millisecond : Duration := 1000000.
Definition Second : Duration := 1000000000.

Definition IsZero (t : Time) : bool := t =? 0.

(** [After t u] is Go's [t.After(u)], [Before t u] is [t.Before(u)]. *)
Definition After (t u : Time) : bool := u <? t.
Definition Before (t u : Time) : bool := t <? u.

Definition Add (t : Time) (d : Duration) : Time := t + d.

(** [Sub t u] is Go's [t.Sub(u)]: the difference, saturated to the range
    of a [Duration]. *)
Definition Sub (t u : Time) : Duration :=
  if maxDuration <? t - u then maxDuration
  else if t - u <? minDuration then minDuration
  else t - u.

(** Multiplication of a [Duration] by a constant, in [int64]. *)
Definition Mul (d : Duration) (k : Z) : Duration := wrap_int64 (d * k).

End time.

Definition defaultCacheTTL : time.Duration := 5 * time.Second.
Definition requestTimeout : time.Duration := 3 * time.Second.
Definition respFlushTimeout : time.Duration := 50 * time.Millisecond.

(** ** hashData *)

Definition offset64 : Z := 14695981039346656037.
Definition prime64 : Z := 1099511628211.

Definition uint64_of_byte (b : byte) : Z := Z.of_N (Byte.to_N b).

(** The loop of [hashData]: [hash ^= uint64(b); hash *= prime64]. *)
Definition hashData (data : list byte) : Z :=
  fold_left
    (fun hash b => wrap_uint64 (Z.lxor hash (uint64_of_byte b) * prime64))
    data offset64.

(** FNV-1a as the specification words it: start from the offset basis and,
    byte by byte, XOR the byte into the hash and then multiply by the prime,
    in 64-bit arithmetic. *)
Fixpoint fnv1a_from (h : Z) (data : list byte) : Z :=
  match data with
  | [] => h
  | b :: rest =>
      fnv1a_from ((Z.lxor h (Z.of_N (Byte.to_N b)) * 1099511628211) mod 2 ^ 64) rest
  end.

Definition fnv1a_64 (data : list byte) : Z :=
  fnv1a_from 14695981039346656037 data.

(** ** RequestCache *)

Record cacheEntry := {
  data : list byte;
  expireAt : time.Time
}.

Module RequestCache.

Abbreviation t := (gmap Z cacheEntry).

Definition NewRequestCache : t := ∅.

Definition Get (c : t) (hash : Z) (now : time.Time) : option (list byte) :=
  match c !! hash with
  | None => None
  | Some entry =>
      if time.After now (expireAt entry) then None else Some (data entry)
  end.

Definition SetWithTTL (c : t) (hash : Z) (d : list byte)
    (ttl : time.Duration) (now : time.Time) : t :=
  <[hash := {| data := d; expireAt := time.Add now ttl |}]> c.

(** [Set] of the source; the name is reserved in Rocq. *)
Definition Set_ (c : t) (hash : Z) (d : list byte) (now : time.Time) : t :=
  SetWithTTL c hash d defaultCacheTTL now.

(** The body of the loop of [CleanupExpired], for one entry of the map. *)
Definition sweep_entry (now : time.Time) (kv : Z * cacheEntry) (c : t) : t :=
  if time.After now (expireAt kv.2) then delete kv.1 c else c.

(** [for hash, entry := range c.cache]: the loop visits every entry of the
    map once, in an order Go leaves unspecified, and deletes from the map
    it ranges over. *)
Definition CleanupExpired (c : t) (now : time.Time) : t :=
  foldr (sweep_entry now) c (map_to_list c).

End RequestCache.

(** ** Channels of capacity one

    [ResponseCh] is made by [make(chan []byte, 1)].  Only the sending side is
    modelled.  A send on a closed channel and a second close panic, and a
    send on a full channel that nobody drains never returns; each of them
    leaves the channel in the absorbing state [Fault]. *)

Inductive chan :=
| Open (buf : list (list byte))
| Closed (buf : list (list byte))
| Fault.

Definition make_chan : chan := Open [].

Definition chan_send (ch : chan) (v : list byte) : chan :=
  match ch with
  | Open [] => Open [v]
  | _ => Fault
  end.

Definition chan_close (ch : chan) : chan :=
  match ch with
  | Open buf => Closed buf
  | _ => Fault
  end.

(** ** PendingRequest *)

Record PendingRequest := {
  addr : nat;
  ID : Z;
  ClientID : string;
  DataHash : Z;
  Request : list byte;
  ResponseCh : chan;
  Timestamp : time.Time;
  SentAt : time.Time;
  done : bool
}.

Definition set_SentAt (r : PendingRequest) (t : time.Time) : PendingRequest :=
  {| addr := addr r; ID := ID r; ClientID := ClientID r;
     DataHash := DataHash r; Request := Request r;
     ResponseCh := ResponseCh r; Timestamp := Timestamp r;
     SentAt := t; done := done r |}.

Definition set_done (r : PendingRequest) : PendingRequest :=
  {| addr := addr r; ID := ID r; ClientID := ClientID r;
     DataHash := DataHash r; Request := Request r;
     ResponseCh := ResponseCh r; Timestamp := Timestamp r;
     SentAt := SentAt r; done := true |}.

Definition set_ResponseCh (r : PendingRequest) (ch : chan) : PendingRequest :=
  {| addr := addr r; ID := ID r; ClientID := ClientID r;
     DataHash := DataHash r; Request := Request r;
     ResponseCh := ch; Timestamp := Timestamp r;
     SentAt := SentAt r; done := done r |}.

(** [r.ResponseCh <- data] and [close(r.ResponseCh)] on the object. *)
Definition send_on (r : PendingRequest) (d : list byte) : PendingRequest :=
  set_ResponseCh r (chan_send (ResponseCh r) d).

Definition close_on (r : PendingRequest) : PendingRequest :=
  set_ResponseCh r (chan_close (ResponseCh r)).

(** [r.done.Swap(true)] returns the old flag; the function goes on only
    when that was [false]. *)
Definition finishWithResponse (r : PendingRequest) (d : list byte)
    : PendingRequest :=
  if done r then r
  else close_on (send_on (set_done r) d).

Definition finishNoResponse (r : PendingRequest) : PendingRequest :=
  if done r then r
  else close_on (set_done r).

(** ** Finishers that race

    Several goroutines call a finisher on the same object.  Each call is a
    short program whose steps interleave with those of the others:
    the atomic [Swap], then the channel operations. *)

Module Race.

Inductive call :=
| WithResponse (d : list byte)          (* r.finishWithResponse(d) *)
| NoResponse.                           (* r.finishNoResponse() *)

Inductive pc :=
| Entry (c : call)                      (* before [r.done.Swap(true)] *)
| Won (c : call)                        (* the swap returned [false] *)
| Sent                                  (* [r.ResponseCh <- data] is done *)
| Returned.

(** One step of a goroutine on the shared object. *)
Definition advance (r : PendingRequest) (p : pc) : PendingRequest * pc :=
  match p with
  | Entry c => if done r then (r, Returned) else (set_done r, Won c)
  | Won (WithResponse d) => (send_on r d, Sent)
  | Won NoResponse => (close_on r, Returned)
  | Sent => (close_on r, Returned)
  | Returned => (r, Returned)
  end.

Record config := {
  obj : PendingRequest;
  threads : list pc
}.

(** The scheduler lets goroutine [i] take its next step. *)
Definition step (cfg : config) (i : nat) : config :=
  match threads cfg !! i with
  | None => cfg
  | Some p =>
      let '(r, p') := advance (obj cfg) p in
      {| obj := r; threads := <[i := p']> (threads cfg) |}
  end.

Definition run (cfg : config) (sched : list nat) : config :=
  fold_left step sched cfg.

Definition start (r : PendingRequest) (calls : list call) : config :=
  {| obj := r; threads := map Entry calls |}.

(** The finisher a call stands for, run alone. *)
Definition alone (c : call) (r : PendingRequest) : PendingRequest :=
  match c with
  | WithResponse d => finishWithResponse r d
  | NoResponse => finishNoResponse r
  end.

End Race.

(** ** Events

    What a step of the queue does outside its own fields, in program order. *)

Inductive event :=
| GoSendToSerial (req : nat)            (* go q.sendToSerial(req) *)
| GoFlushResponseLoop                   (* go q.flushResponseLoop() *)
| TimerStart                            (* time.NewTimer(respFlushTimeout) *)
| TimerReset                            (* q.respTimer.Reset(respFlushTimeout) *)
| SerialWrite (req : nat) (b : list byte) (* q.serial.Write(req.Request) *)
| Issue (key : string)                  (* a line written to the issue log *)
| Finished (r : PendingRequest).        (* a finisher ran; [r] is the object afterwards *)

(** ** The issue log *)

Definition logIssuef (key : string) : list event := [Issue key].

(** [issueThrottleLast] is the package-level map from key to the instant of
    the last line logged under it. *)
Definition logIssuefThrottled (last : gmap string time.Time) (key : string)
    (interval : time.Duration) (now : time.Time)
    : gmap string time.Time * list event :=
  if interval <=? 0 then (last, logIssuef key)
  else
    let l := default 0 (last !! key) in
    if negb (time.IsZero l) && (time.Sub now l <? interval) then (last, [])
    else (<[key := now]> last, logIssuef key).

(** ** WriteQueue *)

Definition respStateIdle : Z := 0.
Definition respStateSending : Z := 1.
Definition respStateWaiting : Z := 2.

Module WriteQueue.

Record t := {
  cache : gmap Z cacheEntry;
  pending : list PendingRequest;
  serial : bool;                        (* q.serial != nil *)
  nextReqID : Z;
  clientIndex : gmap string Z;
  inflight : gmap Z nat;                (* hash to the address of the main *)
  waiting : gmap Z (list PendingRequest);
  respBuf : list byte;
  respTimer : bool;                     (* q.respTimer != nil *)
  currentReqID : Z;
  respState : Z;
  dropUntil : time.Time;
  nextAddr : nat                        (* address of the next allocation *)
}.

Definition NewWriteQueue (sp : bool) : t :=
  {| cache := RequestCache.NewRequestCache; pending := []; serial := sp;
     nextReqID := 0; clientIndex := ∅; inflight := ∅; waiting := ∅;
     respBuf := []; respTimer := false; currentReqID := 0;
     respState := respStateIdle; dropUntil := 0; nextAddr := 0 |}.

(** What [Send] returns: a channel of its own that is already resolved, or
    the [ResponseCh] of the request it has created. *)
Inductive handle :=
| Resolved (ch : chan)
| Awaiting (req : nat).

(** [respCh <- cached; close(respCh)] on the fresh channel. *)
Definition resolved (cached : list byte) : chan :=
  chan_close (chan_send make_chan cached).

Definition newRequest (q : t) (id : Z) (clientID : string) (d : list byte)
    (now : time.Time) : PendingRequest :=
  {| addr := nextAddr q; ID := id; ClientID := clientID;
     DataHash := hashData d; Request := d; ResponseCh := make_chan;
     Timestamp := now; SentAt := 0; done := false |}.

(** [Send] from [q.mu.Lock()] on. *)
Definition Send_locked (q : t) (clientID : string) (d : list byte)
    (now : time.Time) : t * handle * list event :=
  let hash := hashData d in
  match RequestCache.Get (cache q) hash now with
  | Some cached => (q, Resolved (resolved cached), [])
  | None =>
      match inflight q !! hash with
      | Some _ =>
          let req := newRequest q 0 clientID d now in
          ({| cache := cache q; pending := pending q; serial := serial q;
              nextReqID := nextReqID q;
              clientIndex := <[clientID := -1]> (clientIndex q);
              inflight := inflight q;
              waiting :=
                <[hash := default [] (waiting q !! hash) ++ [req]]> (waiting q);
              respBuf := respBuf q; respTimer := respTimer q;
              currentReqID := currentReqID q; respState := respState q;
              dropUntil := dropUntil q; nextAddr := S (nextAddr q) |},
           Awaiting (addr req), [])
      | None =>
          let id := wrap_uint64 (nextReqID q + 1) in
          let req := newRequest q id clientID d now in
          let pending' := pending q ++ [req] in
          ({| cache := cache q; pending := pending'; serial := serial q;
              nextReqID := id;
              clientIndex :=
                <[clientID := Z.of_nat (length pending') - 1]> (clientIndex q);
              inflight := <[hash := addr req]> (inflight q);
              waiting := waiting q;
              respBuf := respBuf q; respTimer := respTimer q;
              currentReqID := currentReqID q; respState := respState q;
              dropUntil := dropUntil q; nextAddr := S (nextAddr q) |},
           Awaiting (addr req),
           if (length pending' =? 1)%nat then [GoSendToSerial (addr req)]
           else [])
      end
  end.

(** [Send]: the cache is looked up at [t0] before the lock is taken and
    again at [now] under the lock. *)
Definition Send (q : t) (clientID : string) (d : list byte)
    (t0 now : time.Time) : t * handle * list event :=
  match RequestCache.Get (cache q) (hashData d) t0 with
  | Some cached => (q, Resolved (resolved cached), [])
  | None => Send_locked q clientID d now
  end.

(** [delete(q.clientIndex, w.ClientID)] for every [w] of a waiting list. *)
Definition dropClients (ci : gmap string Z) (l : list PendingRequest)
    : gmap string Z :=
  fold_left (fun m w => delete (ClientID w) m) l ci.

Definition nextEvents (l : list PendingRequest) : list event :=
  match l with
  | [] => []
  | nextReq :: _ => [GoSendToSerial (addr nextReq)]
  end.

(** Step 1 of [sendToSerial]: [None] when the function returns at once,
    otherwise the queue marked as sending, with the lock released. *)
Definition sendToSerial_begin (q : t) (req : nat) : option t :=
  if negb (serial q) then None
  else
    match pending q with
    | [] => None
    | head :: _ =>
        if negb (addr head =? req)%nat then None
        else if negb (respState q =? respStateIdle) then None
        else
          Some {| cache := cache q; pending := pending q; serial := serial q;
                  nextReqID := nextReqID q; clientIndex := clientIndex q;
                  inflight := inflight q; waiting := waiting q;
                  respBuf := respBuf q; respTimer := respTimer q;
                  currentReqID := currentReqID q;
                  respState := respStateSending;
                  dropUntil := dropUntil q; nextAddr := nextAddr q |}
    end.

(** Step 3 of [sendToSerial], with the lock taken again; [err] tells
    whether [q.serial.Write] returned an error. *)
Definition sendToSerial_end (q : t) (req : nat) (err : bool)
    (now : time.Time) : t * list event :=
  match pending q with
  | [] => (q, [])
  | head :: rest =>
      if negb (addr head =? req)%nat then (q, [])
      else if err then
        let hash := DataHash head in
        let waitingList := default [] (waiting q !! hash) in
        ({| cache := cache q; pending := rest; serial := serial q;
            nextReqID := nextReqID q;
            clientIndex :=
              dropClients (delete (ClientID head) (clientIndex q)) waitingList;
            inflight := delete hash (inflight q);
            waiting := delete hash (waiting q);
            respBuf := respBuf q; respTimer := respTimer q;
            currentReqID := 0; respState := respStateIdle;
            dropUntil := time.Add now (150 * time.Millisecond);
            nextAddr := nextAddr q |},
         logIssuef "serial write failed"
           ++ Finished (finishNoResponse head)
           :: map (fun w => Finished (finishNoResponse w)) waitingList
           ++ nextEvents rest)
      else
        ({| cache := cache q; pending := set_SentAt head now :: rest;
            serial := serial q; nextReqID := nextReqID q;
            clientIndex := clientIndex q; inflight := inflight q;
            waiting := waiting q; respBuf := respBuf q;
            respTimer := respTimer q; currentReqID := ID head;
            respState := respStateWaiting; dropUntil := dropUntil q;
            nextAddr := nextAddr q |}, [])
  end.

(** [sendToSerial] when nothing else runs while the port is written. *)
Definition sendToSerial (q : t) (req : nat) (err : bool) (now : time.Time)
    : t * list event :=
  match sendToSerial_begin q req with
  | None => (q, [])
  | Some q1 =>
      let written :=
        match pending q1 with
        | head :: _ => [SerialWrite req (Request head)]
        | [] => []
        end in
      let '(q2, evs) := sendToSerial_end q1 req err now in
      (q2, written ++ evs)
  end.

Definition drop (q : t) (last : gmap string time.Time) (key : string)
    (now : time.Time) : t * gmap string time.Time * list event :=
  let '(last', evs) := logIssuefThrottled last key time.Second now in
  (q, last', evs).

(** [OnSerialData]: [last] is the throttle map of the issue log. *)
Definition OnSerialData (q : t) (last : gmap string time.Time)
    (d : list byte) (now : time.Time)
    : t * gmap string time.Time * list event :=
  if negb (respState q =? respStateWaiting) then drop q last "drop_state" now
  else
    match pending q with
    | [] => drop q last "drop_no_pending" now
    | req :: _ =>
        if negb (ID req =? currentReqID q) then
          if time.Before now (dropUntil q) then drop q last "drop_until" now
          else drop q last "drop_id_mismatch" now
        else if time.IsZero (SentAt req) then drop q last "drop_unsent" now
        else
          ({| cache := cache q; pending := pending q; serial := serial q;
              nextReqID := nextReqID q; clientIndex := clientIndex q;
              inflight := inflight q; waiting := waiting q;
              respBuf := respBuf q ++ d; respTimer := true;
              currentReqID := currentReqID q; respState := respState q;
              dropUntil := dropUntil q; nextAddr := nextAddr q |},
           last,
           if respTimer q then [TimerReset]
           else [TimerStart; GoFlushResponseLoop])
    end.

Definition clearRespBuf (q : t) : t :=
  {| cache := cache q; pending := pending q; serial := serial q;
     nextReqID := nextReqID q; clientIndex := clientIndex q;
     inflight := inflight q; waiting := waiting q;
     respBuf := []; respTimer := respTimer q;
     currentReqID := currentReqID q; respState := respState q;
     dropUntil := dropUntil q; nextAddr := nextAddr q |}.

(** [sendTime] of [flushResponseLocked] and [timeoutBase] of
    [CleanupExpired]: [SentAt], or [Timestamp] while [SentAt] is zero. *)
Definition sendTime (req : PendingRequest) : time.Time :=
  if time.IsZero (SentAt req) then Timestamp req else SentAt req.

Definition rttOf (req : PendingRequest) (now : time.Time) : time.Duration :=
  let rtt := time.Sub now (sendTime req) in
  if rtt <? 0 then 0 else rtt.

Definition cacheTTLOf (rtt : time.Duration) : time.Duration :=
  let cacheTTL := time.Mul rtt 2 in
  if cacheTTL <? time.Second then time.Second
  else if 30 * time.Second <? cacheTTL then 30 * time.Second
  else cacheTTL.

Definition flushResponseLocked (q : t) (now : time.Time) : t * list event :=
  match pending q, respBuf q with
  | [], _ | _, [] => (clearRespBuf q, [])
  | req :: rest, responseData =>
      let cacheTTL := cacheTTLOf (rttOf req now) in
      let hash := DataHash req in
      let waitingList := default [] (waiting q !! hash) in
      ({| cache :=
            RequestCache.SetWithTTL (cache q) hash responseData cacheTTL now;
          pending := rest; serial := serial q; nextReqID := nextReqID q;
          clientIndex :=
            dropClients (delete (ClientID req) (clientIndex q)) waitingList;
          inflight := delete hash (inflight q);
          waiting := delete hash (waiting q);
          respBuf := []; respTimer := respTimer q;
          currentReqID := 0; respState := respStateIdle;
          dropUntil := dropUntil q; nextAddr := nextAddr q |},
       Finished (finishWithResponse req responseData)
         :: map (fun w => Finished (finishWithResponse w responseData))
              waitingList
         ++ nextEvents rest)
  end.

(** The body of [flushResponseLoop] run when the flush timer fires. *)
Definition flushResponseLoop_fire (q : t) (now : time.Time)
    : t * list event :=
  if (0 <? length (pending q))%nat && (0 <? length (respBuf q))%nat
  then flushResponseLocked q now
  else (clearRespBuf q, []).

(** The test both loops of [CleanupExpired] make. *)
Definition alive (now base : time.Time) : bool :=
  time.Sub now base <? requestTimeout.

(** The variables of the first loop of [CleanupExpired]. *)
Record reap := {
  active : list PendingRequest;
  newIndex : gmap string Z;
  expired : list PendingRequest;
  firstWasExpired : bool;
  r_clientIndex : gmap string Z;
  r_inflight : gmap Z nat;
  r_waiting : gmap Z (list PendingRequest)
}.

(** One iteration of [for i, req := range q.pending]. *)
Definition reapStep (now : time.Time) (a : reap) (i : nat)
    (req : PendingRequest) : reap :=
  if alive now (sendTime req) then
    let active' := active a ++ [req] in
    {| active := active';
       newIndex :=
         <[ClientID req := Z.of_nat (length active') - 1]> (newIndex a);
       expired := expired a; firstWasExpired := firstWasExpired a;
       r_clientIndex := r_clientIndex a; r_inflight := r_inflight a;
       r_waiting := r_waiting a |}
  else
    let ci := delete (ClientID req) (r_clientIndex a) in
    let first := if (i =? 0)%nat then true else firstWasExpired a in
    match r_waiting a !! DataHash req with
    | Some waitingList =>
        {| active := active a; newIndex := newIndex a;
           expired := (expired a ++ [req]) ++ waitingList;
           firstWasExpired := first;
           r_clientIndex := dropClients ci waitingList;
           r_inflight := delete (DataHash req) (r_inflight a);
           r_waiting := delete (DataHash req) (r_waiting a) |}
    | None =>
        {| active := active a; newIndex := newIndex a;
           expired := expired a ++ [req];
           firstWasExpired := first;
           r_clientIndex := ci;
           r_inflight := delete (DataHash req) (r_inflight a);
           r_waiting := r_waiting a |}
    end.

Fixpoint reapPending (now : time.Time) (i : nat) (l : list PendingRequest)
    (a : reap) : reap :=
  match l with
  | [] => a
  | req :: l' => reapPending now (S i) l' (reapStep now a i req)
  end.

(** One iteration of [for hash, waitingList := range q.waiting]; the
    variables are [expired], [q.clientIndex] and [q.waiting]. *)
Definition reapWaiters (now : time.Time)
    (kv : Z * list PendingRequest)
    (a : list PendingRequest * gmap string Z * gmap Z (list PendingRequest))
    : list PendingRequest * gmap string Z * gmap Z (list PendingRequest) :=
  let '(exp, ci, w) := a in
  let activeWaiting :=
    List.filter (fun req => alive now (Timestamp req)) kv.2 in
  let late :=
    List.filter (fun req => negb (alive now (Timestamp req))) kv.2 in
  (exp ++ late, dropClients ci late,
   if (0 <? length activeWaiting)%nat then <[kv.1 := activeWaiting]> w
   else delete kv.1 w).

Definition timeoutEvents (l : list PendingRequest) : list event :=
  flat_map
    (fun req => logIssuef "request timeout" ++ [Finished (finishNoResponse req)])
    l.

(** The variables of [CleanupExpired] before its first loop. *)
Definition reapStart (q : t) : reap :=
  {| active := []; newIndex := ∅; expired := [];
     firstWasExpired := false; r_clientIndex := clientIndex q;
     r_inflight := inflight q; r_waiting := waiting q |}.

(** [CleanupExpired] up to the second [q.mu.Lock()]: the queue, the
    value of [firstWasExpired] and the events. *)
Definition CleanupExpired_sweep (q : t) (now : time.Time)
    : t * bool * list event :=
  let cache' := RequestCache.CleanupExpired (cache q) now in
  let a := reapPending now 0 (pending q) (reapStart q) in
  let '(expired', clientIndex', waiting') :=
    foldr (reapWaiters now) (expired a, newIndex a, r_waiting a)
      (map_to_list (r_waiting a)) in
  ({| cache := cache'; pending := active a; serial := serial q;
      nextReqID := nextReqID q; clientIndex := clientIndex';
      inflight := r_inflight a; waiting := waiting';
      respBuf := if firstWasExpired a then [] else respBuf q;
      respTimer := respTimer q;
      currentReqID := if firstWasExpired a then 0 else currentReqID q;
      respState := if firstWasExpired a then respStateIdle else respState q;
      dropUntil :=
        if firstWasExpired a then time.Add now (150 * time.Millisecond)
        else dropUntil q;
      nextAddr := nextAddr q |},
   firstWasExpired a,
   timeoutEvents expired').

(** The end of [CleanupExpired], once the lock is taken again. *)
Definition CleanupExpired_next (q : t) (first : bool) : list event :=
  if first then nextEvents (pending q) else [].

(** [CleanupExpired] when nothing else runs while the expired requests
    are finished. *)
Definition CleanupExpired (q : t) (now : time.Time) : t * list event :=
  let '(q', first, evs) := CleanupExpired_sweep q now in
  (q', evs ++ CleanupExpired_next q' first).

End WriteQueue.

(** ** The queue among its goroutines

    The callers of the queue: clients that call [Send], the goroutines that
    run [sendToSerial] (step 1 and step 3 are separate steps, the port is
    written in between), the serial reader that calls [OnSerialData], the
    flush loop and the cleanup ticker. *)

Inductive action :=
| DoSend (clientID : string) (d : list byte) (t0 now : time.Time)
| DoBegin (req : nat)
| DoEnd (req : nat) (err : bool) (now : time.Time)
| DoData (d : list byte) (now : time.Time)
| DoFire (now : time.Time)
| DoReap (now : time.Time).

Record system := {
  queue : WriteQueue.t;
  throttle : gmap string time.Time;
  writing : list nat      (* requests whose [sendToSerial] is past step 1 *)
}.

Fixpoint remove1 (x : nat) (l : list nat) : list nat :=
  match l with
  | [] => []
  | y :: l' => if (x =? y)%nat then l' else y :: remove1 x l'
  end.

Definition memb (x : nat) (l : list nat) : bool :=
  existsb (Nat.eqb x) l.

Definition step (s : system) (a : action) : system * list event :=
  let q := queue s in
  match a with
  | DoSend clientID d t0 now =>
      let '(q', _, evs) := WriteQueue.Send q clientID d t0 now in
      ({| queue := q'; throttle := throttle s; writing := writing s |}, evs)
  | DoBegin req =>
      match WriteQueue.sendToSerial_begin q req, WriteQueue.pending q with
      | Some q', head :: _ =>
          ({| queue := q'; throttle := throttle s;
              writing := req :: writing s |},
           [SerialWrite req (Request head)])
      | _, _ => (s, [])
      end
  | DoEnd req err now =>
      if memb req (writing s) then
        let '(q', evs) := WriteQueue.sendToSerial_end q req err now in
        ({| queue := q'; throttle := throttle s;
            writing := remove1 req (writing s) |}, evs)
      else (s, [])
  | DoData d now =>
      let '(q', last', evs) := WriteQueue.OnSerialData q (throttle s) d now in
      ({| queue := q'; throttle := last'; writing := writing s |}, evs)
  | DoFire now =>
      let '(q', evs) := WriteQueue.flushResponseLoop_fire q now in
      ({| queue := q'; throttle := throttle s; writing := writing s |}, evs)
  | DoReap now =>
      let '(q', evs) := WriteQueue.CleanupExpired q now in
      ({| queue := q'; throttle := throttle s; writing := writing s |}, evs)
  end.

(** The trace of a schedule: the events of its steps, in order. *)
Fixpoint run (s : system) (acts : list action) : system * list event :=
  match acts with
  | [] => (s, [])
  | a :: rest =>
      let '(s1, evs1) := step s a in
      let '(s2, evs2) := run s1 rest in
      (s2, evs1 ++ evs2)
  end.

Definition boot (sp : bool) : system :=
  {| queue := WriteQueue.NewWriteQueue sp; throttle := ∅; writing := [] |}.

(** [time.Now()] never returns the zero instant. *)
Definition clock_ok (a : action) : Prop :=
  match a with
  | DoSend _ _ t0 now => 0 < t0 ∧ 0 < now
  | DoBegin _ => True
  | DoEnd _ _ now | DoData _ now | DoFire now | DoReap now => 0 < now
  end.

Definition writes_to (req : nat) (evs : list event) : nat :=
  length (List.filter
            (fun e => match e with
                      | SerialWrite r _ => (r =? req)%nat
                      | _ => false
                      end) evs).

(** ** Properties named by the specification *)

Import WriteQueue.

(** State coherence (section 8, item 2). *)
Definition coherent (q : WriteQueue.t) : Prop :=
  (respState q = respStateWaiting →
     ∃ head rest, pending q = head :: rest
       ∧ time.IsZero (SentAt head) = false
       ∧ ID head = currentReqID q)
  ∧ (respState q = respStateIdle → currentReqID q = 0).

(** A request nobody has finished: the flag is clear and the channel is as
    [make] left it. *)
Definition unfinished (r : PendingRequest) : Prop :=
  done r = false ∧ ResponseCh r = make_chan.

(** The bytes do not belong to the head of the queue (section 4.4, items 1
    and 2). *)
Definition not_owned (q : WriteQueue.t) : Prop :=
  respState q ≠ respStateWaiting
  ∨ match pending q with
    | [] => True
    | head :: _ => ID head ≠ currentReqID q ∨ time.IsZero (SentAt head) = true
    end.

(** What claim C4 asks of [OnSerialData]: inside the drop window, bytes that
    are not the head's are dropped and nothing is logged. *)
Definition silent_drop (q : WriteQueue.t) (last : gmap string time.Time)
    (d : list byte) (now : time.Time) : Prop :=
  time.Before now (dropUntil q) = true → not_owned q →
  OnSerialData q last d now = (q, last, []).

(** The key under which [OnSerialData] reports bytes it drops. *)
Definition drop_key (q : WriteQueue.t) (now : time.Time) : string :=
  if negb (respState q =? respStateWaiting) then "drop_state"
  else
    match pending q with
    | [] => "drop_no_pending"
    | head :: _ =>
        if negb (ID head =? currentReqID q) then
          if time.Before now (dropUntil q) then "drop_until"
          else "drop_id_mismatch"
        else "drop_unsent"
    end.

(** What claim C9 asks of the sweep: nothing with expiry at or before [now]
    stays, everything with a later expiry does. *)
Definition sweeps_through_now (c : gmap Z cacheEntry) (now : time.Time)
    : Prop :=
  (∀ h e, RequestCache.CleanupExpired c now !! h = Some e → now < expireAt e)
  ∧ (∀ h e, c !! h = Some e → now < expireAt e →
       RequestCache.CleanupExpired c now !! h = Some e).

(** [clamp x lo hi] of the specification. *)
Definition clamp (x lo hi : Z) : Z := Z.max lo (Z.min hi x).

(** The queue with the payload bytes of its requests forgotten. *)
Definition forget_payload (r : PendingRequest) : PendingRequest :=
  {| addr := addr r; ID := ID r; ClientID := ClientID r;
     DataHash := DataHash r; Request := [];
     ResponseCh := ResponseCh r; Timestamp := Timestamp r;
     SentAt := SentAt r; done := done r |}.

Definition forget_payloads (q : WriteQueue.t) : WriteQueue.t :=
  {| cache := cache q; pending := map forget_payload (pending q);
     serial := serial q; nextReqID := nextReqID q;
     clientIndex := clientIndex q; inflight := inflight q;
     waiting := fmap (map forget_payload) (waiting q);
     respBuf := respBuf q; respTimer := respTimer q;
     currentReqID := currentReqID q; respState := respState q;
     dropUntil := dropUntil q; nextAddr := nextAddr q |}.

(** The queue of scenario S4 just after the reaper has dropped the only
    request: idle, empty, with the drop window open until 4.15 s. *)
Definition after_timeout : WriteQueue.t :=
  (run (boot true)
     [DoSend "c1" [xaa] 10 10; DoBegin 0; DoEnd 0 false 20;
      DoReap 4000000000]).1.(queue).

(** Where the goroutine that won the swap stands, and the object with it:
    [r] is the object before any finisher ran, [c] the winner's call. *)
Definition winner_at (r : PendingRequest) (c : Race.call) (p : Race.pc)
    (o : PendingRequest) : Prop :=
  (p = Race.Won c ∧ o = set_done r)
  ∨ (∃ d, c = Race.WithResponse d ∧ p = Race.Sent
          ∧ o = send_on (set_done r) d)
  ∨ (p = Race.Returned ∧ o = Race.alone c r).

(** A goroutine that has not swapped yet, or that lost and returned. *)
Definition loser (p : Race.pc) : Prop :=
  p = Race.Returned ∨ ∃ c, p = Race.Entry c.

(** Goroutine [i], calling [c], has won the swap. *)
Definition decided (r : PendingRequest) (i : nat) (c : Race.call)
    (cfg : Race.config) : Prop :=
  (∃ p, Race.threads cfg !! i = Some p ∧ winner_at r c p (Race.obj cfg))
  ∧ (∀ j p, j ≠ i → Race.threads cfg !! j = Some p → loser p).

(** The first goroutine the scheduler picks. *)
Definition first_scheduled (n : nat) (sched : list nat) : option nat :=
  List.find (fun i => (i <? n)%nat) sched.

(** The outcome a call leaves on the channel of an unfinished request. *)
Definition outcome (c : Race.call) : chan :=
  match c with
  | Race.WithResponse d => Closed [d]
  | Race.NoResponse => Closed []
  end.

(** ** Accounting for the link

    Which requests the queue holds, and how the [SerialWrite] events of a
    trace are distributed over them. *)

(** [w] is in the waiter list kept under the fingerprint [h]. *)
Definition waits (q : WriteQueue.t) (h : Z) (w : PendingRequest) : Prop :=
  ∃ ws, waiting q !! h = Some ws ∧ w ∈ ws.

Definition waiters_of (q : WriteQueue.t) (w : PendingRequest) : Prop :=
  ∃ h, waits q h w.

Definition held (q : WriteQueue.t) (r : PendingRequest) : Prop :=
  r ∈ pending q ∨ waiters_of q r.

Definition is_write (e : event) : bool :=
  match e with
  | SerialWrite _ _ => true
  | _ => false
  end.

Definition no_writes (evs : list event) : Prop :=
  Forall (fun e => is_write e = false) evs.

(** The invariant of the queue together with the trace [tr] that led to it:
    no request is written twice; a request is written only as the head of
    the queue, and has been written once its [SentAt] is set; waiters and
    the requests behind the head have not been written; every request held
    is unfinished and carries the fingerprint of its payload, and a waiter
    list holds requests of the fingerprint it is kept under. *)
Record accounted (s : system) (tr : list event) : Prop := {
  acc_once : ∀ a, (writes_to a tr ≤ 1)%nat;
  acc_fresh : ∀ a, (nextAddr (queue s) ≤ a)%nat → writes_to a tr = 0%nat;
  acc_below : ∀ r, held (queue s) r → (addr r < nextAddr (queue s))%nat;
  acc_nodup : NoDup (map addr (pending (queue s)));
  acc_apart : ∀ w, waiters_of (queue s) w →
                addr w ∉ map addr (pending (queue s));
  acc_idle : ∀ head rest,
               pending (queue s) = head :: rest →
               respState (queue s) = respStateIdle →
               writes_to (addr head) tr = 0%nat;
  acc_tail : ∀ r, r ∈ tail (pending (queue s)) →
               writes_to (addr r) tr = 0%nat;
  acc_sent : ∀ r, r ∈ pending (queue s) →
               time.IsZero (SentAt r) = false →
               writes_to (addr r) tr = 1%nat;
  acc_waiters : ∀ w, waiters_of (queue s) w → writes_to (addr w) tr = 0%nat;
  acc_writing : ∀ a, a ∈ writing s → writes_to a tr = 1%nat;
  acc_sound : ∀ r, held (queue s) r →
                unfinished r ∧ DataHash r = hashData (Request r);
  acc_payload : ∀ r b, r ∈ pending (queue s) →
                  SerialWrite (addr r) b ∈ tr → b = Request r;
  acc_keyed : ∀ h w, waits (queue s) h w → DataHash w = h
}.

(** ** Requests that leave the queue *)

(** The queue holds the object at address [a]. *)
Definition held_addr (q : WriteQueue.t) (a : nat) : Prop :=
  ∃ r, held q r ∧ addr r = a.

(** The events show a finisher called on [r]. *)
Definition finished_by (evs : list event) (r : PendingRequest) : Prop :=
  Finished (finishNoResponse r) ∈ evs
  ∨ ∃ d, Finished (finishWithResponse r d) ∈ evs.

Definition is_finished (e : event) : bool :=
  match e with
  | Finished _ => true
  | _ => false
  end.

(** The requests [CleanupExpired] finishes: what its two loops have put in
    [expired]. *)
Definition reaped (q : WriteQueue.t) (now : time.Time)
    : list PendingRequest :=
  let a := reapPending now 0 (pending q) (reapStart q) in
  (foldr (reapWaiters now) (expired a, newIndex a, r_waiting a)
     (map_to_list (r_waiting a))).1.1.

(** ** What a step does to the lists of the queue

    Every step of the queue changes [pending], [inflight] and [waiting] in
    one of six ways. *)

Inductive transition (q q' : WriteQueue.t) : Prop :=
| T_same :
    pending q' = pending q → inflight q' = inflight q →
    waiting q' = waiting q → nextReqID q' = nextReqID q →
    nextAddr q' = nextAddr q →
    transition q q'
| T_attach (req : PendingRequest) :
    is_Some (inflight q !! DataHash req) →
    addr req = nextAddr q → ID req = 0 →
    pending q' = pending q → inflight q' = inflight q →
    waiting q'
      = <[DataHash req :=
            default [] (waiting q !! DataHash req) ++ [req]]> (waiting q) →
    nextReqID q' = nextReqID q → nextAddr q' = S (nextAddr q) →
    transition q q'
| T_enqueue (req : PendingRequest) :
    inflight q !! DataHash req = None →
    addr req = nextAddr q → ID req = wrap_uint64 (nextReqID q + 1) →
    pending q' = pending q ++ [req] →
    inflight q' = <[DataHash req := addr req]> (inflight q) →
    waiting q' = waiting q →
    nextReqID q' = ID req → nextAddr q' = S (nextAddr q) →
    transition q q'
| T_sent (head : PendingRequest) (rest : list PendingRequest)
    (now : time.Time) :
    pending q = head :: rest →
    pending q' = set_SentAt head now :: rest → inflight q' = inflight q →
    waiting q' = waiting q → nextReqID q' = nextReqID q →
    nextAddr q' = nextAddr q →
    transition q q'
| T_drop (head : PendingRequest) (rest : list PendingRequest) :
    pending q = head :: rest →
    pending q' = rest →
    inflight q' = delete (DataHash head) (inflight q) →
    waiting q' = delete (DataHash head) (waiting q) →
    nextReqID q' = nextReqID q → nextAddr q' = nextAddr q →
    transition q q'
| T_reap (now : time.Time) :
    q' = (CleanupExpired q now).1 →
    transition q q'.

(** ** Unique heads

    The inflight index is the index of the pending queue by fingerprint,
    and every waiter list hangs under an inflight fingerprint. *)
Record indexed (q : WriteQueue.t) : Prop := {
  idx_unique : NoDup (map DataHash (pending q));
  idx_inflight :
    ∀ h a, inflight q !! h = Some a
           ↔ ∃ r, r ∈ pending q ∧ DataHash r = h ∧ addr r = a;
  idx_waiting :
    ∀ h ws, waiting q !! h = Some ws →
            ws ≠ [] ∧ is_Some (inflight q !! h)
}.

(** The request has timed out and has the fingerprint [h]. *)
Definition dead_with (now : time.Time) (h : Z) (r : PendingRequest) : bool :=
  negb (alive now (sendTime r)) && (DataHash r =? h).

(** ** Order of acceptance

    [Send] numbers the main requests: [nextReqID] counts them, a waiter
    keeps the ID 0. *)

(** [r1] was accepted before [r2]. *)
Definition before (r1 r2 : PendingRequest) : Prop :=
  (addr r1 < addr r2)%nat ∧ ID r1 < ID r2.

Record numbered (q : WriteQueue.t) : Prop := {
  num_sorted : StronglySorted before (pending q);
  num_ids :
    Forall (fun r => 0 < ID r ≤ nextReqID q ∧ (addr r < nextAddr q)%nat)
      (pending q);
  num_next : 0 ≤ nextReqID q ≤ Z.of_nat (nextAddr q);
  num_waiters : ∀ h w, waits q h w → ID w = 0
}.

(** The requests written to the port, in the order of the trace. *)
Fixpoint written (tr : list event) : list nat :=
  match tr with
  | [] => []
  | SerialWrite a _ :: tr' => a :: written tr'
  | _ :: tr' => written tr'
  end.

(** The queue holds its requests in the order [Send] accepted them. *)
Definition lined (q : WriteQueue.t) : Prop :=
  StronglySorted (fun r1 r2 => (addr r1 < addr r2)%nat) (pending q)
  ∧ Forall (fun r => (addr r < nextAddr q)%nat) (pending q).

(** The port has been written in the order of acceptance, and for no
    request behind one that is still queued. *)
Definition fifo (s : system) (tr : list event) : Prop :=
  StronglySorted lt (written tr)
  ∧ (∀ a r, a ∈ written tr → r ∈ pending (queue s) → (a ≤ addr r)%nat)
  ∧ (∀ a, a ∈ written tr → (a < nextAddr (queue s))%nat).

(** ** The three states of the link

    What [respState] tells about [currentReqID] and the queue. *)
Definition phase (q : WriteQueue.t) : Prop :=
  (respState q = respStateIdle ∧ currentReqID q = 0)
  ∨ (respState q = respStateSending ∧ currentReqID q = 0
     ∧ pending q ≠ [])
  ∨ (respState q = respStateWaiting
     ∧ ∃ head rest, pending q = head :: rest ∧ ID head = currentReqID q).

(** ** The flush loop *)

Definition is_loop (e : event) : bool :=
  match e with
  | GoFlushResponseLoop => true
  | _ => false
  end.

(** How many times the trace starts [flushResponseLoop]. *)
Definition loops (tr : list event) : nat := length (List.filter is_loop tr).

(** ** The throttle of the issue log *)

(** The lines that a sequence of calls of [logIssuefThrottled] writes, all
    with the same interval, as every caller in the queue does: the key
    and the instant of each call that logs. *)
Fixpoint issueLines (last : gmap string time.Time)
    (interval : time.Duration) (calls : list (string * time.Time))
    : list (string * time.Time) :=
  match calls with
  | [] => []
  | (key, now) :: rest =>
      let '(last', evs) := logIssuefThrottled last key interval now in
      map (fun _ => (key, now)) evs ++ issueLines last' interval rest
  end.

(** The instants of the lines logged under [key]. *)
Definition linesOf (key : string) (log : list (string * time.Time))
    : list time.Time :=
  map snd (List.filter (fun l => bool_decide (l.1 = key)) log).

(** No entry of the throttle map is zero or later than a call to come. *)
Definition past (last : gmap string time.Time)
    (calls : list (string * time.Time)) : Prop :=
  ∀ k t, last !! k = Some t → 0 < t ∧ Forall (fun c => t ≤ c.2) calls.

(** ** What the client is written

    [handleClient] starts, for each [Send], a goroutine that receives from
    the channel [Send] returned and writes what it receives to the
    connection. *)

(** [resp, ok := <-ch]; [None] while the receive blocks. *)
Definition chan_recv (ch : chan) : option (list byte * bool) :=
  match ch with
  | Open (v :: _) | Closed (v :: _) => Some (v, true)
  | Closed [] => Some ([], false)
  | Open [] | Fault => None
  end.

Inductive reply :=
| Blocked                       (* the goroutine is still in the receive *)
| Silent                        (* it has returned and written nothing *)
| Writes (resp : list byte).    (* conn.Write(resp) *)

Definition respond (ch : chan) : reply :=
  match chan_recv ch with
  | None => Blocked
  | Some (resp, ok) =>
      if ok && (0 <? length resp)%nat then Writes resp else Silent
  end.

(** No cached response is empty. *)
Definition cache_full (q : WriteQueue.t) : Prop :=
  ∀ h e, cache q !! h = Some e → data e ≠ [].

(** ** The serial reader

    [Listener.serialReadLoop] and the helpers it calls. *)

(** [contains]: the loop over [i] from 0 to [len(s)-len(substr)]. *)
Definition contains (s substr : string) : bool :=
  existsb
    (fun i => String.eqb (String.substring i (String.length substr) s) substr)
    (seq 0 (Z.to_nat (Z.of_nat (String.length s)
                      - Z.of_nat (String.length substr) + 1))).

Definition isClosedError (msg : string) : bool :=
  (0 <? String.length msg)%nat
  && (contains msg "use of closed" || contains msg "connection reset").

(** An [error] value: [io.EOF] or another error, with its message. *)
Inductive error :=
| EOF
| Err (msg : string).

Definition Error (e : error) : string :=
  match e with
  | EOF => "EOF"
  | Err msg => msg
  end.

Definition is_EOF (e : error) : bool :=
  match e with
  | EOF => true
  | Err _ => false
  end.

(** The loop between two reads: the frame buffer, the frames handed to
    [OnSerialData] so far (oldest first), and whether the loop has
    returned. *)
Record reader := {
  serialBuffer : list byte;
  handed : list (list byte);
  returned : bool
}.

(** The error ends a frame: a timeout of the port or [io.EOF]. *)
Definition frame_end (err : error) : bool :=
  String.eqb (Error err) "timeout" || String.eqb (Error err) "i/o timeout"
  || is_EOF err.

(** One turn of the loop; [r] is what [l.serial.Read(buf)] returned:
    [buf[:n]] and [err]. *)
Definition serialReadLoop_turn (st : reader) (r : list byte * option error)
    : reader :=
  if returned st then st
  else
    match r.2 with
    | Some err =>
        if frame_end err then
          if (0 <? length (serialBuffer st))%nat then
            {| serialBuffer := [];
               handed := handed st ++ [serialBuffer st];
               returned := false |}
          else st
        else if isClosedError (Error err) then
          {| serialBuffer := serialBuffer st; handed := handed st;
             returned := true |}
        else st
    | None =>
        if (0 <? length r.1)%nat then
          {| serialBuffer := serialBuffer st ++ r.1; handed := handed st;
             returned := false |}
        else st
    end.

(** [serialReadLoop] over the reads the port answers before the listener
    stops; [sp] tells whether [l.serial] is set. *)
Definition serialReadLoop (sp : bool) (buffer : list byte)
    (reads : list (list byte * option error)) : reader :=
  fold_left serialReadLoop_turn reads
    {| serialBuffer := buffer; handed := []; returned := negb sp |}.

(** The read makes the loop return. *)
Definition closes (r : list byte * option error) : bool :=
  match r.2 with
  | Some err => negb (frame_end err) && isClosedError (Error err)
  | None => false
  end.

(** The bytes of the reads that returned no error, up to the read that
    makes the loop return. *)
Fixpoint received (reads : list (list byte * option error)) : list byte :=
  match reads with
  | [] => []
  | r :: rest =>
      if closes r then []
      else
        match r.2 with
        | None => r.1 ++ received rest
        | Some _ => received rest
        end
  end.

(** ** Stopping the queue

    The two stop channels of the queue, each with its [sync.Once].  They
    are made by [NewWriteQueue]; closing a closed channel panics, which
    [chan_close] records as [Fault]. *)
Record stops := {
  stopFlushLoop : chan;
  stopFlushLoopOnce : bool;       (* the [Once] has run *)
  stopCleanup : chan;
  stopCleanupOnce : bool
}.

Definition NewStops : stops :=
  {| stopFlushLoop := make_chan; stopFlushLoopOnce := false;
     stopCleanup := make_chan; stopCleanupOnce := false |}.

(** [once.Do(func() { close(ch) })]. *)
Definition Do_close (once : bool) (ch : chan) : bool * chan :=
  if once then (true, ch) else (true, chan_close ch).

Definition StopCleanupTimer (q : WriteQueue.t) (s : stops)
    : WriteQueue.t * stops :=
  let '(cleanupOnce, cleanup) :=
    Do_close (stopCleanupOnce s) (stopCleanup s) in
  let '(flushOnce, flush) :=
    Do_close (stopFlushLoopOnce s) (stopFlushLoop s) in
  ({| cache := cache q; pending := pending q; serial := serial q;
      nextReqID := nextReqID q; clientIndex := clientIndex q;
      inflight := inflight q; waiting := waiting q;
      respBuf := []; respTimer := false;
      currentReqID := currentReqID q; respState := respState q;
      dropUntil := dropUntil q; nextAddr := nextAddr q |},
   {| stopFlushLoop := flush; stopFlushLoopOnce := flushOnce;
      stopCleanup := cleanup; stopCleanupOnce := cleanupOnce |}).

(** ** Display of the traffic

    [cleanNonPrintable], [FormatForDisplay] and [FormatForDisplayCompact]
    of the listener.  A Go string is its bytes. *)

(** The loop of [cleanNonPrintable] over [data], from the buffer [buf]. *)
Definition cleanStep (buf : list byte) (b : byte) : list byte :=
  let n := Byte.to_N b in
  if ((32 <=? n) && (n <=? 126))%N then buf ++ [b]
  else if ((n =? 9) || (n =? 10) || (n =? 13))%N then buf ++ [b]
  else buf ++ ["."%byte].

Definition cleanNonPrintable (data : list byte) : list byte :=
  fold_left cleanStep data [].

(** What [cleanNonPrintable] lets through. *)
Definition shown (b : byte) : bool :=
  let n := Byte.to_N b in
  ((32 <=? n) && (n <=? 126) || (n =? 9) || (n =? 10) || (n =? 13))%N.

Definition FormatHEX : string := "HEX".

Definition hexDigit (n : N) : byte :=
  nth (N.to_nat n)
    ["0"; "1"; "2"; "3"; "4"; "5"; "6"; "7"; "8"; "9";
     "a"; "b"; "c"; "d"; "e"; "f"]%byte "0"%byte.

(** [fmt.Sprintf("%02x", b)]. *)
Definition Sprintf_02x (b : byte) : list byte :=
  [hexDigit (Byte.to_N b / 16); hexDigit (Byte.to_N b mod 16)].

(** [strings.Join]. *)
Fixpoint Join (elems : list (list byte)) (sep : list byte) : list byte :=
  match elems with
  | [] => []
  | e :: rest =>
      match rest with
      | [] => e
      | _ => e ++ sep ++ Join rest sep
      end
  end.

Definition FormatForDisplayCompact (data : list byte) (format : string)
    : list byte :=
  if String.eqb format FormatHEX then
    Join (fold_left (fun result b => result ++ [Sprintf_02x b]) data [])
      [" "%byte]
  else cleanNonPrintable data.

(** The inner loop of [FormatForDisplay]: [j] from [i] to [end_]. *)
Definition hexLine (data : list byte) (i end_ : nat) : list byte :=
  fold_left
    (fun line j =>
       (if (i <? j)%nat then line ++ [" "%byte] else line)
       ++ Sprintf_02x (nth j data x00))
    (seq i (end_ - i)%nat) [].

(** The outer loop, from [i] in steps of 16; it takes at most [fuel]
    turns. *)
Fixpoint hexLines (fuel i : nat) (data : list byte)
    (result : list (list byte)) : list (list byte) :=
  match fuel with
  | O => result
  | S fuel' =>
      if (i <? length data)%nat then
        let end_ :=
          if (length data <? i + 16)%nat then length data else (i + 16)%nat in
        hexLines fuel' (i + 16)%nat data (result ++ [hexLine data i end_])
      else result
  end.

Definition FormatForDisplay (data : list byte) (format : string)
    : list byte :=
  if String.eqb format FormatHEX then
    Join (hexLines (length data) 0%nat data []) ["010"%byte]
  else cleanNonPrintable data.

(** [data] cut into pieces of 16 bytes, the last one shorter when the
    length is no multiple of 16. *)
Fixpoint chunks16 (fuel : nat) (data : list byte) : list (list byte) :=
  match fuel, data with
  | O, _ | _, [] => []
  | S fuel', _ => take 16%nat data :: chunks16 fuel' (skipn 16%nat data)
  end.

(** ** Writers and the response buffer

    The calls of [sendToSerial] that are past step 1, the head of the
    queue, and the bytes buffered for it. *)
Record settled (s : system) : Prop := {
  set_nodup : NoDup (writing s);
  set_head :
    ∀ head rest, pending (queue s) = head :: rest →
      respState (queue s) ≠ respStateSending → addr head ∉ writing s;
  set_buffer : respBuf (queue s) ≠ [] → respState (queue s) = respStateWaiting
}.

(** ** Claim C3 as the specification words it *)

(** [b] and [p] are the same bytes. *)
Fixpoint same_bytes (b p : list byte) : bool :=
  match b, p with
  | [], [] => true
  | x :: b', y :: p' => Byte.eqb x y && same_bytes b' p'
  | _, _ => false
  end.

(** How many times the trace writes the bytes [p] to the port. *)
Definition payload_writes (p : list byte) (tr : list event) : nat :=
  length (List.filter
            (fun e => match e with
                      | SerialWrite _ b => same_bytes b p
                      | _ => false
                      end) tr).

(** The run [acts], then [Send c2 p], then the steps [later].  If [Send]
    finds an inflight main with the fingerprint of [p] and no live cache
    entry, then, once a frame has completed the request of [c2], the link
    has been written [p] exactly once. *)
Definition one_write_of_payload (sp : bool) (acts : list action)
    (c2 : string) (p : list byte) (t0 now : time.Time)
    (later : list action) : Prop :=
  let q := queue (run (boot sp) acts).1 in
  RequestCache.Get (cache q) (hashData p) t0 = None →
  RequestCache.Get (cache q) (hashData p) now = None →
  is_Some (inflight q !! hashData p) →
  let tr := (run (boot sp) (acts ++ DoSend c2 p t0 now :: later)).2 in
  (∃ d, Finished (finishWithResponse (newRequest q 0 c2 p now) d) ∈ tr) →
  payload_writes p tr = 1%nat.

(** Two payloads with the fingerprint 0. *)
Definition collides1 : list byte :=
  [xd5; x6b; xb9; x53; x42; x87; x08; x36].

Definition collides2 : list byte := collides1 ++ [x00].

(** ** Claim C1 as the specification words it *)

(** [StopCleanupTimer] called on the queue of the system. *)
Definition stop (s : system) : system :=
  {| queue := (StopCleanupTimer (queue s) NewStops).1;
     throttle := throttle s; writing := writing s |}.

(** The steps the queue can still take by itself once it is stopped,
    when no client sends any more and the port stays silent: the cleanup
    ticker and the flush loop have returned, what is left are the calls of
    [sendToSerial] under way. *)
Definition after_stop (a : action) : bool :=
  match a with
  | DoBegin _ | DoEnd _ _ _ => true
  | DoSend _ _ _ _ | DoData _ _ | DoFire _ | DoReap _ => false
  end.

(** Every request the stopped queue holds gets an outcome. *)
Definition outcome_for_all (s : system) : Prop :=
  ∀ r, held (queue s) r →
    ∃ later x,
      forallb after_stop later = true
      ∧ Finished x ∈ (run s later).2 ∧ addr x = addr r.

(** [Send], a write that succeeds, and no answer from the device. *)
Definition unanswered : system :=
  (run (boot true) [DoSend "c1" [xaa] 10 10; DoBegin 0; DoEnd 0 false 20]).1.

(** * Proofs *)

(** ** Time and machine arithmetic *)

Lemma wrap_int64_small (x : Z) :
  - 2 ^ 63 ≤ x < 2 ^ 63 → wrap_int64 x = x.
Proof.
  intros Hx. unfold wrap_int64.
  rewrite Z.mod_small; lia.
Qed.

Lemma wrap_uint64_range (x : Z) : 0 ≤ wrap_uint64 x < 2 ^ 64.
Proof. unfold wrap_uint64. apply Z.mod_pos_bound. lia. Qed.

Lemma alive_iff (now base : time.Time) :
  alive now base = true ↔ now - base < 3000000000.
Proof.
  unfold alive, time.Sub, requestTimeout, time.maxDuration, time.minDuration,
    time.Second.
  repeat case_match; rewrite ?Z.ltb_lt, ?Z.ltb_ge in *; lia.
Qed.

(** ** The cache *)

Section sweep.
Variable now : time.Time.

Lemma sweep_keeps_live (l : list (Z * cacheEntry)) (c : gmap Z cacheEntry)
    (h : Z) :
  (∀ e, (h, e) ∈ l → time.After now (expireAt e) = false) →
  foldr (RequestCache.sweep_entry now) c l !! h = c !! h.
Proof.
  induction l as [|[k e] l IH]; intros Hl; simpl; [done|].
  unfold RequestCache.sweep_entry at 1; simpl.
  destruct (time.After now (expireAt e)) eqn:He.
  - destruct (decide (k = h)) as [->|Hne].
    + rewrite Hl in He; [done | left].
    + rewrite lookup_delete_ne by done.
      apply IH. intros e' He'. apply Hl. by right.
  - apply IH. intros e' He'. apply Hl. by right.
Qed.

Lemma sweep_drops (l : list (Z * cacheEntry)) (c : gmap Z cacheEntry)
    (h : Z) (e : cacheEntry) :
  (h, e) ∈ l → time.After now (expireAt e) = true →
  foldr (RequestCache.sweep_entry now) c l !! h = None.
Proof.
  induction l as [|[k e'] l IH]; intros Hin He; [by apply elem_of_nil in Hin|].
  simpl. unfold RequestCache.sweep_entry at 1; simpl.
  apply elem_of_cons in Hin as [Heq|Hin].
  - simplify_eq. rewrite He. apply lookup_delete_eq.
  - specialize (IH Hin He).
    destruct (time.After now (expireAt e')); [|done].
    rewrite lookup_delete. case_decide; done.
Qed.

Lemma CleanupExpired_lookup (c : gmap Z cacheEntry) (h : Z) :
  RequestCache.CleanupExpired c now !! h =
    match c !! h with
    | Some e => if time.After now (expireAt e) then None else Some e
    | None => None
    end.
Proof.
  unfold RequestCache.CleanupExpired.
  destruct (c !! h) as [e|] eqn:Hc.
  - destruct (time.After now (expireAt e)) eqn:He.
    + apply (sweep_drops _ _ _ e); [|done]. by apply elem_of_map_to_list.
    + rewrite sweep_keeps_live; [done|].
      intros e' He'. apply elem_of_map_to_list in He'. congruence.
  - rewrite sweep_keeps_live; [done|].
    intros e' He'. apply elem_of_map_to_list in He'. congruence.
Qed.
End sweep.

(** C9, as stated, fails: an entry that expires exactly at the instant of
    the sweep is kept, because [CleanupExpired] deletes only when
    [now.After(entry.expireAt)]. *)
Lemma sweep_keeps_entry_expiring_now :
  ¬ sweeps_through_now {[ 7 := {| data := [x01]; expireAt := 5 |} ]} 5.
Proof.
  intros [Hgone _].
  specialize (Hgone 7 {| data := [x01]; expireAt := 5 |}).
  rewrite CleanupExpired_lookup, lookup_singleton_eq in Hgone.
  simpl in Hgone. specialize (Hgone eq_refl). lia.
Qed.

(** C9, amended: the cache sweep removes exactly the entries whose expiry is
    strictly before [now]; an entry is in the swept cache if and only if it
    was in the cache, unchanged, with [now ≤ expireAt]. *)
Theorem sweep_removes_strictly_expired (c : gmap Z cacheEntry)
    (now : time.Time) (h : Z) (e : cacheEntry) :
  RequestCache.CleanupExpired c now !! h = Some e
  ↔ c !! h = Some e ∧ now ≤ expireAt e.
Proof.
  rewrite CleanupExpired_lookup. unfold time.After.
  destruct (c !! h) as [e'|]; [|split; [done | by intros [? _]]].
  destruct (expireAt e' <? now) eqn:Hlt.
  - apply Z.ltb_lt in Hlt. split; [done|]. intros [[= ->] ?]. lia.
  - apply Z.ltb_ge in Hlt. split; [intros [= ->]; done | by intros [-> _]].
Qed.

Lemma sweep_removes_strictly_expired_witness :
  let c : gmap Z cacheEntry :=
    {[ 7 := {| data := [x01]; expireAt := 5 |};
       8 := {| data := [x02]; expireAt := 4 |} ]} in
  RequestCache.CleanupExpired c 5 !! 7 = Some {| data := [x01]; expireAt := 5 |}
  ∧ RequestCache.CleanupExpired c 5 !! 8 = None.
Proof.
  intros c. split.
  - apply (sweep_removes_strictly_expired c 5 7).
    split; [reflexivity | simpl; lia].
  - destruct (RequestCache.CleanupExpired c 5 !! 8) as [e|] eqn:He; [|done].
    apply (sweep_removes_strictly_expired c 5 8) in He as [He Hle].
    vm_compute in He. injection He as <-. simpl in Hle. lia.
Defined.

(** ** The fingerprint *)

Lemma hashData_from (h : Z) (d : list byte) :
  fold_left
    (fun hash b => wrap_uint64 (Z.lxor hash (uint64_of_byte b) * prime64))
    d h
  = fnv1a_from h d.
Proof.
  revert h. induction d as [|b d IH]; intros h; simpl; [done|].
  rewrite IH. reflexivity.
Qed.

Lemma hashData_range (d : list byte) : 0 ≤ hashData d < 2 ^ 64.
Proof.
  unfold hashData.
  assert (Hoff : 0 ≤ offset64 < 2 ^ 64) by (unfold offset64; lia).
  revert Hoff. generalize offset64.
  induction d as [|b d IH]; intros h Hh; simpl; [done|].
  apply IH, wrap_uint64_range.
Qed.

Lemma Send_by_hash (q : WriteQueue.t) (clientID : string) (d1 d2 : list byte)
    (t0 now : time.Time) :
  hashData d1 = hashData d2 →
  let '(q1, h1, evs1) := Send q clientID d1 t0 now in
  let '(q2, h2, evs2) := Send q clientID d2 t0 now in
  forget_payloads q1 = forget_payloads q2 ∧ h1 = h2 ∧ evs1 = evs2.
Proof.
  intros Hh. unfold Send, Send_locked, newRequest. rewrite <- Hh.
  destruct (RequestCache.Get (cache q) (hashData d1) t0); [done|].
  destruct (RequestCache.Get (cache q) (hashData d1) now); [done|].
  destruct (inflight q !! hashData d1).
  - split; [|done]. unfold forget_payloads; simpl. f_equal.
    rewrite !fmap_insert, !map_app. simpl. unfold forget_payload at 2 4; simpl.
    by rewrite Hh.
  - cbv zeta. rewrite !length_app. simpl. split; [|done].
    unfold forget_payloads; simpl. rewrite !map_app. simpl.
    unfold forget_payload at 2 4; simpl. by rewrite Hh.
Qed.

(** C8: [hashData] is 64-bit FNV-1a (offset basis 14695981039346656037,
    prime 1099511628211, XOR then multiply for every byte), it gives equal
    byte sequences equal fingerprints, and [Send] takes the same route, with
    the same events and the same queue up to the payload it stores, for any
    two payloads that have the same fingerprint. *)
Theorem hashData_is_the_identity :
  (∀ d, hashData d = fnv1a_64 d ∧ 0 ≤ hashData d < 2 ^ 64)
  ∧ hashData [x61] = 0xaf63dc4c8601ec8c
  ∧ (∀ d1 d2, d1 = d2 → hashData d1 = hashData d2)
  ∧ (∀ q clientID d1 d2 t0 now,
       hashData d1 = hashData d2 →
       forget_payloads (Send q clientID d1 t0 now).1.1
         = forget_payloads (Send q clientID d2 t0 now).1.1
       ∧ (Send q clientID d1 t0 now).1.2 = (Send q clientID d2 t0 now).1.2
       ∧ (Send q clientID d1 t0 now).2 = (Send q clientID d2 t0 now).2).
Proof.
  split; [|split; [|split]].
  - intros d. split; [apply hashData_from | apply hashData_range].
  - reflexivity.
  - by intros d1 d2 ->.
  - intros q clientID d1 d2 t0 now Hh.
    pose proof (Send_by_hash q clientID d1 d2 t0 now Hh) as H.
    destruct (Send q clientID d1 t0 now) as [[q1 h1] evs1].
    destruct (Send q clientID d2 t0 now) as [[q2 h2] evs2]. exact H.
Qed.

Lemma hashData_is_the_identity_witness :
  hashData [x01; x02] = hashData [x01; x02]
  ∧ (Send (NewWriteQueue true) "c1" [x01; x02] 5 6).2
      = (Send (NewWriteQueue true) "c1" [x01; x02] 5 6).2.
Proof.
  split; [reflexivity|].
  apply (proj2 (proj2 (proj2 hashData_is_the_identity))
           (NewWriteQueue true) "c1"%string [x01; x02] [x01; x02] 5 6).
  reflexivity.
Defined.

(** ** The adaptive TTL *)

Lemma rttOf_sent (req : PendingRequest) (now : time.Time) :
  time.IsZero (SentAt req) = false →
  now - SentAt req < 2 ^ 62 →
  rttOf req now = Z.max 0 (now - SentAt req).
Proof.
  intros Hset Hlt. unfold rttOf, sendTime. rewrite Hset.
  unfold time.Sub, time.maxDuration, time.minDuration.
  repeat case_match; rewrite ?Z.ltb_lt, ?Z.ltb_ge in *; lia.
Qed.

Lemma cacheTTLOf_clamp (rtt : time.Duration) :
  0 ≤ rtt < 2 ^ 62 →
  cacheTTLOf rtt = clamp (2 * rtt) time.Second (30 * time.Second).
Proof.
  intros Hr. unfold cacheTTLOf, time.Mul, clamp, time.Second.
  rewrite wrap_int64_small by lia.
  repeat case_match; rewrite ?Z.ltb_lt, ?Z.ltb_ge in *; lia.
Qed.

(** The range matters: a round trip of [2^62] ns doubles to [2^63], which
    wraps to a negative [int64], and the TTL falls to the lower bound. *)
Remark cacheTTLOf_wraps : cacheTTLOf (2 ^ 62) = time.Second.
Proof. reflexivity. Qed.

(** C7: when a frame completes the head request, whose [SentAt] is set, the
    round-trip time is [max(0, now − SentAt)] and the response is cached
    with the TTL [clamp(2·RTT, 1 s, 30 s)].  Durations are [int64]
    nanoseconds, so the doubling is exact for every round trip shorter than
    [2^62] ns (146 years). *)
Theorem flush_caches_with_clamped_ttl (q : WriteQueue.t) (now : time.Time)
    (req : PendingRequest) (rest : list PendingRequest) :
  pending q = req :: rest →
  respBuf q ≠ [] →
  time.IsZero (SentAt req) = false →
  now - SentAt req < 2 ^ 62 →
  let rtt := Z.max 0 (now - SentAt req) in
  let ttl := clamp (2 * rtt) 1000000000 30000000000 in
  rttOf req now = rtt
  ∧ cacheTTLOf (rttOf req now) = ttl
  ∧ (ttl = 2 * rtt ∨ (2 * rtt < 1000000000 ∧ ttl = 1000000000)
     ∨ (30000000000 < 2 * rtt ∧ ttl = 30000000000))
  ∧ cache (flushResponseLocked q now).1 !! DataHash req
      = Some {| data := respBuf q; expireAt := now + ttl |}.
Proof.
  intros Hp Hbuf Hset Hlt rtt ttl.
  assert (Hrtt : rttOf req now = rtt) by by apply rttOf_sent.
  assert (Httl : cacheTTLOf (rttOf req now) = ttl).
  { rewrite Hrtt. apply cacheTTLOf_clamp. unfold rtt. lia. }
  repeat split; [done | done | unfold ttl, clamp; lia |].
  unfold flushResponseLocked. rewrite Hp.
  destruct (respBuf q) as [|b buf]; [done|]. simpl.
  unfold RequestCache.SetWithTTL, time.Add.
  rewrite lookup_insert_eq, Httl. reflexivity.
Qed.

Lemma flush_caches_with_clamped_ttl_witness :
  cache
    (flushResponseLocked
       (run (boot true)
          [DoSend "c1" [x68; x03; x03] 10 10; DoBegin 0; DoEnd 0 false 20;
           DoData [xaa; xbb] 40000020]).1.(queue)
       100000020).1
    !! hashData [x68; x03; x03]
  = Some {| data := [xaa; xbb]; expireAt := 100000020 + 1000000000 |}.
Proof.
  pose proof (flush_caches_with_clamped_ttl
    (run (boot true)
       [DoSend "c1" [x68; x03; x03] 10 10; DoBegin 0; DoEnd 0 false 20;
        DoData [xaa; xbb] 40000020]).1.(queue)
    100000020
    {| addr := 0; ID := 1; ClientID := "c1";
       DataHash := hashData [x68; x03; x03]; Request := [x68; x03; x03];
       ResponseCh := make_chan; Timestamp := 10; SentAt := 20;
       done := false |}
    [] eq_refl ltac:(discriminate) eq_refl ltac:(vm_compute; reflexivity))
    as (_ & _ & _ & H).
  exact H.
Defined.

(** ** The cache hit *)

(** C5: if the cache holds a live entry for the fingerprint of the payload
    when [Send] looks it up (before the lock, or again under it), [Send]
    returns a channel that already holds the cached bytes and is closed,
    causes no event (no serial write, no writer goroutine), and leaves the
    whole queue, with its pending list, inflight index, waiter map, client
    index, [currentReqID] and [respState], as it was. *)
Theorem Send_cache_hit (q : WriteQueue.t) (clientID : string) (d : list byte)
    (t0 now : time.Time) (e : cacheEntry) :
  cache q !! hashData d = Some e →
  t0 ≤ expireAt e ∨ now ≤ expireAt e →
  Send q clientID d t0 now = (q, Resolved (Closed [data e]), []).
Proof.
  intros He Hlive. unfold Send, Send_locked, RequestCache.Get, time.After.
  rewrite He.
  destruct (expireAt e <? t0) eqn:H0; [|done].
  destruct (expireAt e <? now) eqn:H1; [|done].
  apply Z.ltb_lt in H0, H1. lia.
Qed.

Lemma Send_cache_hit_witness :
  let q :=
    (run (boot true)
       [DoSend "c1" [x01; x02] 10 10; DoBegin 0; DoEnd 0 false 20;
        DoData [xff] 30; DoFire 50000030]).1.(queue) in
  Send q "c3" [x01; x02] 60000000 60000000
    = (q, Resolved (Closed [[xff]]), []).
Proof.
  intros q.
  apply (Send_cache_hit q "c3"%string [x01; x02] 60000000 60000000
           {| data := [xff]; expireAt := 1050000030 |}).
  - reflexivity.
  - left. vm_compute. discriminate.
Defined.

(** ** Bytes that have no owner *)

(** C4, as stated, fails: bytes that arrive inside the drop window while the
    queue is idle are dropped, but the drop is written to the issue log. *)
Lemma late_bytes_are_reported :
  ¬ silent_drop after_timeout ∅ [xaa] 4050000000.
Proof.
  intros H.
  assert (Hev : (OnSerialData after_timeout ∅ [xaa] 4050000000).2
                = [Issue "drop_state"]) by reflexivity.
  rewrite H in Hev; [discriminate | reflexivity | left; discriminate].
Qed.

(** C4, amended: device bytes that do not belong to the current head (the
    state is not waiting, the queue is empty, the head's id is not
    [currentReqID], or the head's [SentAt] is unset) are never accumulated
    and leave the queue as it was, inside the drop window and outside it;
    every such drop is reported to the issue log, throttled per key, under
    [drop_state], [drop_no_pending], [drop_until] (id mismatch inside the
    window), [drop_id_mismatch] (outside it) or [drop_unsent]. *)
Theorem OnSerialData_drops_and_reports (q : WriteQueue.t)
    (last : gmap string time.Time) (d : list byte) (now : time.Time) :
  not_owned q →
  OnSerialData q last d now
    = (q, (logIssuefThrottled last (drop_key q now) time.Second now).1,
          (logIssuefThrottled last (drop_key q now) time.Second now).2)
  ∧ (last !! drop_key q now = None →
       (OnSerialData q last d now).2 = [Issue (drop_key q now)])
  ∧ (time.Before now (dropUntil q) = true →
       drop_key q now ≠ "drop_id_mismatch"%string).
Proof.
  intros Hno.
  assert (Hdrop : OnSerialData q last d now = drop q last (drop_key q now) now).
  { unfold OnSerialData, drop_key.
    destruct (negb (respState q =? respStateWaiting)) eqn:Hst; [done|].
    destruct Hno as [Hno|Hno].
    { apply negb_false_iff, Z.eqb_eq in Hst. done. }
    destruct (pending q) as [|head rest]; [done|].
    destruct (negb (ID head =? currentReqID q)) eqn:Hid.
    { by destruct (time.Before now (dropUntil q)). }
    destruct Hno as [Hno|Hno].
    { apply negb_false_iff, Z.eqb_eq in Hid. done. }
    by rewrite Hno. }
  split; [|split].
  - rewrite Hdrop. unfold drop.
    by destruct (logIssuefThrottled last (drop_key q now) time.Second now).
  - intros Hlast. rewrite Hdrop. unfold drop, logIssuefThrottled.
    rewrite Hlast. reflexivity.
  - intros Hwin. unfold drop_key. rewrite Hwin.
    repeat case_match; discriminate.
Qed.

Lemma OnSerialData_drops_and_reports_witness :
  OnSerialData after_timeout ∅ [xaa] 4050000000
    = (after_timeout, {[ "drop_state"%string := 4050000000 ]},
       [Issue "drop_state"]).
Proof.
  assert (Hno : not_owned after_timeout) by (left; vm_compute; discriminate).
  destruct (OnSerialData_drops_and_reports after_timeout ∅ [xaa] 4050000000
              Hno) as [H _].
  rewrite H. vm_compute. reflexivity.
Defined.

(** ** The reaper and the order of the queue *)

Section reap.
Variable now : time.Time.

Lemma reapPending_active (l : list PendingRequest) (i : nat) (a : reap) :
  active (reapPending now i l a)
    = active a ++ List.filter (fun r => alive now (sendTime r)) l.
Proof.
  revert i a. induction l as [|r l IH]; intros i a; simpl.
  - by rewrite app_nil_r.
  - rewrite IH. unfold reapStep.
    destruct (alive now (sendTime r)); simpl.
    + by rewrite <- app_assoc.
    + by destruct (r_waiting a !! DataHash r).
Qed.

Lemma reapPending_first_later (l : list PendingRequest) (i : nat) (a : reap) :
  i ≠ 0%nat →
  firstWasExpired (reapPending now i l a) = firstWasExpired a.
Proof.
  revert i a. induction l as [|r l IH]; intros i a Hi; simpl; [done|].
  rewrite IH by done. unfold reapStep.
  destruct (alive now (sendTime r)); simpl; [done|].
  destruct i; [done|].
  by destruct (r_waiting a !! DataHash r).
Qed.

Lemma reapPending_first (r : PendingRequest) (l : list PendingRequest)
    (a : reap) :
  firstWasExpired (reapPending now 0 (r :: l) a)
    = firstWasExpired a || negb (alive now (sendTime r)).
Proof.
  simpl. rewrite reapPending_first_later by done. unfold reapStep.
  destruct (alive now (sendTime r)); simpl.
  - by rewrite orb_false_r.
  - rewrite orb_true_r. by destruct (r_waiting a !! DataHash r).
Qed.

Lemma CleanupExpired_sweep_fields (q : WriteQueue.t) :
  let a := reapPending now 0 (pending q) (reapStart q) in
  let q' := (CleanupExpired_sweep q now).1.1 in
  pending q' = active a
  ∧ (CleanupExpired_sweep q now).1.2 = firstWasExpired a
  ∧ respState q'
      = (if firstWasExpired a then respStateIdle else respState q)
  ∧ currentReqID q' = (if firstWasExpired a then 0 else currentReqID q)
  ∧ dropUntil q'
      = (if firstWasExpired a then time.Add now (150 * time.Millisecond)
         else dropUntil q)
  ∧ inflight q' = r_inflight a
  ∧ nextAddr q' = nextAddr q.
Proof.
  intros a q'. subst q'. unfold CleanupExpired_sweep. fold a.
  by destruct (foldr (reapWaiters now) (expired a, newIndex a, r_waiting a)
                 (map_to_list (r_waiting a))) as [[? ?] ?].
Qed.

Lemma CleanupExpired_queue (q : WriteQueue.t) :
  (CleanupExpired q now).1 = (CleanupExpired_sweep q now).1.1.
Proof.
  unfold CleanupExpired.
  by destruct (CleanupExpired_sweep q now) as [[? ?] ?].
Qed.

Lemma CleanupExpired_pending (q : WriteQueue.t) :
  pending (CleanupExpired q now).1
    = List.filter (fun r => alive now (sendTime r)) (pending q).
Proof.
  rewrite CleanupExpired_queue.
  destruct (CleanupExpired_sweep_fields q) as (-> & _).
  by rewrite reapPending_active.
Qed.
End reap.

Lemma filter_head {A} (f : A → bool) (l : list A) (x : A) (t : list A) :
  List.filter f l = x :: t →
  ∃ gone later,
    l = gone ++ x :: later ∧ Forall (fun y => f y = false) gone
    ∧ f x = true ∧ t = List.filter f later.
Proof.
  induction l as [|y l IH]; simpl; [done|].
  destruct (f y) eqn:Hy.
  - intros [= -> <-]. exists [], l. by repeat split.
  - intros Hl. destruct (IH Hl) as (gone & later & -> & Hg & Hx & Ht).
    exists (y :: gone), later. repeat split; [|done|done].
    by constructor.
Qed.

(** C10: the reaper keeps the order of the queue.  After [CleanupExpired]
    the pending queue is the previous queue with the timed-out requests
    (3 s since [SentAt], or since [Timestamp] while [SentAt] is unset)
    deleted and nothing moved, so the new head is the first request of the
    previous queue that has not timed out. *)
Theorem reaper_keeps_queue_order (q : WriteQueue.t) (now : time.Time) :
  pending (CleanupExpired q now).1
    = List.filter (fun r => alive now (sendTime r)) (pending q)
  ∧ (∀ r, alive now (sendTime r) = true ↔ now - sendTime r < 3000000000)
  ∧ (∀ head rest,
       pending (CleanupExpired q now).1 = head :: rest →
       ∃ gone later,
         pending q = gone ++ head :: later
         ∧ Forall (fun r => 3000000000 ≤ now - sendTime r) gone
         ∧ now - sendTime head < 3000000000
         ∧ rest = List.filter (fun r => alive now (sendTime r)) later).
Proof.
  split; [apply CleanupExpired_pending|].
  split; [intros r; apply alive_iff|].
  intros head rest. rewrite CleanupExpired_pending. intros Hf.
  destruct (filter_head _ _ _ _ Hf) as (gone & later & Hq & Hg & Hh & Hr).
  exists gone, later. repeat split; [done| |by apply alive_iff|done].
  eapply Forall_impl; [exact Hg|]. simpl. intros r Hr'.
  destruct (Z.lt_ge_cases (now - sendTime r) 3000000000) as [Hlt|]; [|done].
  apply alive_iff in Hlt. congruence.
Qed.

Lemma reaper_keeps_queue_order_witness :
  let q :=
    (run (boot true)
       [DoSend "c1" [x01] 10 10; DoBegin 0; DoEnd 0 false 20;
        DoSend "c2" [x02] 2000000000 2000000000;
        DoSend "c3" [x03] 2500000000 2500000000]).1.(queue) in
  map ClientID (pending q) = ["c1"; "c2"; "c3"]%string
  ∧ map ClientID (pending (CleanupExpired q 3500000000).1)
      = ["c2"; "c3"]%string
  ∧ ∃ gone later,
      pending q = gone ++ {| addr := 1; ID := 2; ClientID := "c2";
                             DataHash := hashData [x02]; Request := [x02];
                             ResponseCh := make_chan;
                             Timestamp := 2000000000; SentAt := 0;
                             done := false |} :: later
      ∧ Forall (fun r => 3000000000 ≤ 3500000000 - sendTime r) gone.
Proof.
  intros q.
  split; [vm_compute; reflexivity|]. split; [vm_compute; reflexivity|].
  destruct (reaper_keeps_queue_order q 3500000000) as (_ & _ & H).
  destruct (H {| addr := 1; ID := 2; ClientID := "c2";
                 DataHash := hashData [x02]; Request := [x02];
                 ResponseCh := make_chan;
                 Timestamp := 2000000000; SentAt := 0; done := false |}
              [{| addr := 2; ID := 3; ClientID := "c3";
                  DataHash := hashData [x03]; Request := [x03];
                  ResponseCh := make_chan;
                  Timestamp := 2500000000; SentAt := 0; done := false |}])
    as (gone & later & Hq & Hg & _).
  { vm_compute. reflexivity. }
  exists gone, later. split; [exact Hq | exact Hg].
Defined.

(** ** State coherence *)

Lemma coherent_frame (q q' : WriteQueue.t) :
  respState q' = respState q →
  currentReqID q' = currentReqID q →
  (∀ head rest, pending q = head :: rest →
     ∃ rest', pending q' = head :: rest') →
  coherent q → coherent q'.
Proof.
  intros Hs Hc Hp [Hw Hi]. split; rewrite Hs, Hc; [|done].
  intros Hst. destruct (Hw Hst) as (head & rest & Hq & Hsent & Hid).
  destruct (Hp _ _ Hq) as [rest' Hq']. by exists head, rest'.
Qed.

Lemma coherent_idle (q : WriteQueue.t) :
  respState q = respStateIdle → currentReqID q = 0 → coherent q.
Proof.
  intros Hs Hc. split; [|done]. rewrite Hs. discriminate.
Qed.

Lemma coherent_new (sp : bool) : coherent (NewWriteQueue sp).
Proof. by apply coherent_idle. Qed.

Lemma coherent_Send (q : WriteQueue.t) (clientID : string) (d : list byte)
    (t0 now : time.Time) :
  coherent q → coherent (Send q clientID d t0 now).1.1.
Proof.
  intros Hq. unfold Send, Send_locked.
  destruct (RequestCache.Get (cache q) (hashData d) t0); [done|].
  destruct (RequestCache.Get (cache q) (hashData d) now); [done|].
  destruct (inflight q !! hashData d); simpl.
  - eapply coherent_frame; [..|exact Hq]; simpl; eauto.
  - eapply coherent_frame; [..|exact Hq]; simpl; [done|done|].
    intros head rest ->. simpl. eauto.
Qed.

Lemma coherent_begin (q q1 : WriteQueue.t) (req : nat) :
  sendToSerial_begin q req = Some q1 → coherent q → coherent q1.
Proof.
  unfold sendToSerial_begin. intros Hb _.
  repeat case_match; simplify_eq.
  split; simpl; discriminate.
Qed.

Lemma coherent_end (q : WriteQueue.t) (req : nat) (err : bool)
    (now : time.Time) :
  0 < now → coherent q → coherent (sendToSerial_end q req err now).1.
Proof.
  intros Hnow Hq. unfold sendToSerial_end.
  destruct (pending q) as [|head rest] eqn:Hp; [done|].
  destruct (negb (addr head =? req)%nat); [done|].
  destruct err; simpl.
  - by apply coherent_idle.
  - split; simpl; [|discriminate].
    intros _. exists (set_SentAt head now), rest. simpl.
    repeat split. unfold time.IsZero. apply Z.eqb_neq. lia.
Qed.

Lemma coherent_sendToSerial (q : WriteQueue.t) (req : nat) (err : bool)
    (now : time.Time) :
  0 < now → coherent q → coherent (sendToSerial q req err now).1.
Proof.
  intros Hnow Hq. unfold sendToSerial.
  destruct (sendToSerial_begin q req) as [q1|] eqn:Hb; [|done].
  pose proof (coherent_end q1 req err now Hnow (coherent_begin _ _ _ Hb Hq)).
  by destruct (sendToSerial_end q1 req err now).
Qed.

Lemma OnSerialData_queue (q : WriteQueue.t) (last : gmap string time.Time)
    (d : list byte) (now : time.Time) :
  let q' := (OnSerialData q last d now).1.1 in
  q' = q
  ∨ (respState q' = respState q ∧ currentReqID q' = currentReqID q
     ∧ pending q' = pending q ∧ respBuf q' = respBuf q ++ d
     ∧ waiting q' = waiting q ∧ inflight q' = inflight q
     ∧ nextAddr q' = nextAddr q).
Proof.
  unfold OnSerialData, drop.
  repeat case_match; simplify_eq; simpl; auto 10.
Qed.

Lemma coherent_OnSerialData (q : WriteQueue.t) (last : gmap string time.Time)
    (d : list byte) (now : time.Time) :
  coherent q → coherent (OnSerialData q last d now).1.1.
Proof.
  intros Hq.
  destruct (OnSerialData_queue q last d now) as [->|(Hs & Hc & Hp & _)];
    [done|].
  eapply coherent_frame; [done|done| |exact Hq].
  intros head rest Hh. rewrite Hp, Hh. eauto.
Qed.

Lemma coherent_clearRespBuf (q : WriteQueue.t) :
  coherent q → coherent (clearRespBuf q).
Proof.
  intros Hq. eapply coherent_frame; [..|exact Hq]; simpl; eauto.
Qed.

Lemma coherent_flush (q : WriteQueue.t) (now : time.Time) :
  coherent q → coherent (flushResponseLocked q now).1.
Proof.
  intros Hq. unfold flushResponseLocked.
  destruct (pending q) as [|req rest]; [by apply coherent_clearRespBuf|].
  destruct (respBuf q); [by apply coherent_clearRespBuf|].
  by apply coherent_idle.
Qed.

Lemma coherent_fire (q : WriteQueue.t) (now : time.Time) :
  coherent q → coherent (flushResponseLoop_fire q now).1.
Proof.
  intros Hq. unfold flushResponseLoop_fire.
  case_match; [by apply coherent_flush | by apply coherent_clearRespBuf].
Qed.

Lemma coherent_reap (q : WriteQueue.t) (now : time.Time) :
  coherent q → coherent (CleanupExpired q now).1.
Proof.
  intros Hq. rewrite CleanupExpired_queue.
  destruct (CleanupExpired_sweep_fields now q) as (Hp & _ & Hs & Hc & _).
  rewrite reapPending_active in Hp. simpl in Hp.
  destruct (pending q) as [|head rest] eqn:Hq0.
  - simpl in *. eapply coherent_frame; [exact Hs|exact Hc| |exact Hq].
    by rewrite Hq0.
  - rewrite reapPending_first in Hs, Hc. simpl in Hs, Hc, Hp.
    destruct (alive now (sendTime head)); simpl in *.
    + eapply coherent_frame; [exact Hs|exact Hc| |exact Hq].
      rewrite Hq0. intros ? ? [= <- <-]. eauto.
    + by apply coherent_idle.
Qed.

Lemma coherent_step (s : system) (a : action) :
  clock_ok a → coherent (queue s) → coherent (queue (step s a).1).
Proof.
  intros Hclock Hq.
  destruct a as [c d t0 now|req|req err now|d now|now|now]; unfold step.
  - pose proof (coherent_Send (queue s) c d t0 now Hq) as H.
    by destruct (Send (queue s) c d t0 now) as [[q' h] evs].
  - destruct (sendToSerial_begin (queue s) req) as [q1|] eqn:Hb; [|done].
    destruct (pending (queue s)); [done|]. simpl.
    by eapply coherent_begin.
  - destruct (memb req (writing s)); [|done].
    pose proof (coherent_end (queue s) req err now Hclock Hq) as H.
    by destruct (sendToSerial_end (queue s) req err now) as [q' evs].
  - pose proof (coherent_OnSerialData (queue s) (throttle s) d now Hq) as H.
    by destruct (OnSerialData (queue s) (throttle s) d now) as [[q' l'] evs].
  - pose proof (coherent_fire (queue s) now Hq) as H.
    by destruct (flushResponseLoop_fire (queue s) now) as [q' evs].
  - pose proof (coherent_reap (queue s) now Hq) as H.
    by destruct (CleanupExpired (queue s) now) as [q' evs].
Qed.

Lemma run_coherent (acts : list action) (s : system) :
  Forall clock_ok acts → coherent (queue s) →
  coherent (queue (run s acts).1).
Proof.
  revert s. induction acts as [|a acts IH]; intros s Hok Hq; simpl; [done|].
  apply Forall_cons in Hok as [Ha Hok].
  pose proof (coherent_step s a Ha Hq) as Hstep.
  destruct (step s a) as [s1 evs1]. simpl in Hstep.
  specialize (IH s1 Hok Hstep).
  by destruct (run s1 acts) as [s2 evs2].
Qed.

Lemma reachable_coherent (sp : bool) (acts : list action) :
  Forall clock_ok acts → coherent (queue (run (boot sp) acts).1).
Proof. intros Hok. apply run_coherent; [done | apply coherent_new]. Qed.

(** C2: state coherence is an invariant.  It holds of the new queue, and
    [Send], [sendToSerial] (its first step, its last step, and the two
    together), [OnSerialData], the flush and [CleanupExpired] each take a
    queue in which (waiting ⇒ the queue is non-empty, the head's [SentAt] is
    set and the head's id is [currentReqID]) and (idle ⇒ [currentReqID] = 0)
    to a queue in which both hold again; so they hold in every state the
    queue reaches, however its callers interleave. *)
Theorem coherence_is_preserved :
  (∀ sp, coherent (NewWriteQueue sp))
  ∧ (∀ q,
       coherent q →
       (∀ clientID d t0 now, coherent (Send q clientID d t0 now).1.1)
       ∧ (∀ req q1, sendToSerial_begin q req = Some q1 → coherent q1)
       ∧ (∀ req err now, 0 < now → coherent (sendToSerial_end q req err now).1)
       ∧ (∀ req err now, 0 < now → coherent (sendToSerial q req err now).1)
       ∧ (∀ last d now, coherent (OnSerialData q last d now).1.1)
       ∧ (∀ now, coherent (flushResponseLocked q now).1)
       ∧ (∀ now, coherent (flushResponseLoop_fire q now).1)
       ∧ (∀ now, coherent (CleanupExpired q now).1))
  ∧ (∀ sp acts,
       Forall clock_ok acts → coherent (queue (run (boot sp) acts).1)).
Proof.
  split; [apply coherent_new|]. split; [|apply reachable_coherent].
  intros q Hq.
  refine (conj _ (conj _ (conj _ (conj _ (conj _ (conj _ (conj _ _)))))));
    intros.
  - by apply coherent_Send.
  - by eapply coherent_begin.
  - by apply coherent_end.
  - by apply coherent_sendToSerial.
  - by apply coherent_OnSerialData.
  - by apply coherent_flush.
  - by apply coherent_fire.
  - by apply coherent_reap.
Qed.

Lemma coherence_is_preserved_witness :
  let acts :=
    [DoSend "c1" [x01] 10 10; DoBegin 0; DoEnd 0 false 20;
     DoSend "c2" [x02] 30 30] in
  let q := (run (boot true) acts).1.(queue) in
  respState q = respStateWaiting
  ∧ coherent q
  ∧ coherent (sendToSerial_end q 0 true 40).1
  ∧ coherent (CleanupExpired q 3500000000).1.
Proof.
  intros acts q.
  destruct coherence_is_preserved as (_ & Hops & Hreach).
  assert (Hq : coherent q).
  { apply Hreach. repeat constructor; simpl; lia. }
  destruct (Hops q Hq) as (_ & _ & Hend & _ & _ & _ & _ & Hreap).
  split; [reflexivity|]. split; [exact Hq|].
  split; [apply Hend; lia | apply Hreap].
Defined.

(** ** Write failure *)

Lemma dropClients_lookup (l : list PendingRequest) (ci : gmap string Z)
    (k : string) :
  dropClients ci l !! k
    = if decide (k ∈ map ClientID l) then None else ci !! k.
Proof.
  unfold dropClients. revert ci.
  induction l as [|w l IH]; intros ci.
  - destruct (decide (k ∈ map ClientID [])) as [Hin|]; [|done].
    by apply elem_of_nil in Hin.
  - change (fold_left (fun m w0 => delete (ClientID w0) m) (w :: l) ci)
      with (fold_left (fun m w0 => delete (ClientID w0) m) l
              (delete (ClientID w) ci)).
    rewrite IH. rewrite fmap_cons.
    destruct (decide (k ∈ map ClientID l)) as [Hin|Hout].
    + rewrite decide_True; [done | by right].
    + rewrite lookup_delete. destruct (decide (ClientID w = k)) as [<-|Hne].
      * rewrite decide_True; [done | left].
      * rewrite decide_False; [done|].
        intros Hin. apply elem_of_cons in Hin as [?|?]; [congruence | done].
Qed.

Lemma finishNoResponse_unfinished (r : PendingRequest) :
  unfinished r →
  finishNoResponse r = set_ResponseCh (set_done r) (Closed []).
Proof.
  intros [Hd Hc]. unfold finishNoResponse, close_on. rewrite Hd. simpl.
  by rewrite Hc.
Qed.

Lemma finishWithResponse_unfinished (r : PendingRequest) (d : list byte) :
  unfinished r →
  finishWithResponse r d = set_ResponseCh (set_done r) (Closed [d]).
Proof.
  intros [Hd Hc]. unfold finishWithResponse, close_on, send_on. rewrite Hd.
  simpl. by rewrite Hc.
Qed.

(** C6: when the write of the head request fails, the head and its waiter
    list leave the queue, the inflight index, the waiter map and the client
    index; the state is idle with [currentReqID] = 0; [dropUntil] is 150 ms
    after [now]; the failure is logged, the main and then each of its
    waiters are finished without a response (an unfinished request ends
    closed and empty), and if a next head exists a writer goroutine is
    started for it.  The same holds for the whole of [sendToSerial] when it
    is let through (port present, head, idle), after its single write. *)
Theorem write_failure_drops_head_and_waiters (q : WriteQueue.t)
    (head : PendingRequest) (rest : list PendingRequest) (now : time.Time) :
  pending q = head :: rest →
  let ws := default [] (waiting q !! DataHash head) in
  let q' := (sendToSerial_end q (addr head) true now).1 in
  let evs := (sendToSerial_end q (addr head) true now).2 in
  pending q' = rest
  ∧ inflight q' = delete (DataHash head) (inflight q)
  ∧ waiting q' = delete (DataHash head) (waiting q)
  ∧ (∀ r, r ∈ head :: ws → clientIndex q' !! ClientID r = None)
  ∧ respState q' = respStateIdle
  ∧ currentReqID q' = 0
  ∧ dropUntil q' = now + 150000000
  ∧ evs = Issue "serial write failed"
            :: map (fun r => Finished (finishNoResponse r)) (head :: ws)
            ++ nextEvents rest
  ∧ (∀ r, r ∈ head :: ws → unfinished r →
       done (finishNoResponse r) = true
       ∧ ResponseCh (finishNoResponse r) = Closed [])
  ∧ (∀ next rest', rest = next :: rest' →
       nextEvents rest = [GoSendToSerial (addr next)])
  ∧ (serial q = true → respState q = respStateIdle →
       sendToSerial q (addr head) true now
         = (q', SerialWrite (addr head) (Request head) :: evs)).
Proof.
  intros Hp ws q' evs.
  assert (Hend : sendToSerial_end q (addr head) true now
                 = ({| cache := cache q; pending := rest; serial := serial q;
                       nextReqID := nextReqID q;
                       clientIndex :=
                         dropClients (delete (ClientID head) (clientIndex q)) ws;
                       inflight := delete (DataHash head) (inflight q);
                       waiting := delete (DataHash head) (waiting q);
                       respBuf := respBuf q; respTimer := respTimer q;
                       currentReqID := 0; respState := respStateIdle;
                       dropUntil := time.Add now (150 * time.Millisecond);
                       nextAddr := nextAddr q |},
                    Issue "serial write failed"
                      :: map (fun r => Finished (finishNoResponse r)) (head :: ws)
                      ++ nextEvents rest)).
  { unfold sendToSerial_end. rewrite Hp, Nat.eqb_refl. reflexivity. }
  subst q' evs. rewrite Hend. simpl.
  refine (conj eq_refl (conj eq_refl (conj eq_refl (conj _ (conj eq_refl
         (conj eq_refl (conj eq_refl (conj eq_refl (conj _ (conj _ _)))))))))).
  - intros r Hr. rewrite dropClients_lookup.
    apply elem_of_cons in Hr as [->|Hr].
    + case_decide; [done | apply lookup_delete_eq].
    + rewrite decide_True; [done|]. apply list_elem_of_fmap. eauto.
  - intros r _ Hr. by rewrite finishNoResponse_unfinished.
  - by intros next rest' ->.
  - intros Hs Hi. unfold sendToSerial, sendToSerial_begin.
    rewrite Hs, Hp, Nat.eqb_refl, Hi. simpl.
    unfold sendToSerial_end. simpl. rewrite ?Hp, ?Nat.eqb_refl. reflexivity.
Qed.

Lemma write_failure_drops_head_and_waiters_witness :
  let q :=
    (run (boot true)
       [DoSend "c1" [x11] 10 10; DoSend "c2" [x11] 11 11;
        DoSend "c3" [x22] 12 12]).1.(queue) in
  map ClientID (pending q) = ["c1"; "c3"]%string
  ∧ map ClientID (pending (sendToSerial q 0 true 20).1) = ["c3"%string]
  ∧ (sendToSerial q 0 true 20).2
      = [SerialWrite 0 [x11]; Issue "serial write failed";
         Finished {| addr := 0; ID := 1; ClientID := "c1";
                     DataHash := hashData [x11]; Request := [x11];
                     ResponseCh := Closed []; Timestamp := 10; SentAt := 0;
                     done := true |};
         Finished {| addr := 1; ID := 0; ClientID := "c2";
                     DataHash := hashData [x11]; Request := [x11];
                     ResponseCh := Closed []; Timestamp := 11; SentAt := 0;
                     done := true |};
         GoSendToSerial 2].
Proof.
  intros q.
  split; [vm_compute; reflexivity|].
  pose proof (write_failure_drops_head_and_waiters q
    {| addr := 0; ID := 1; ClientID := "c1";
       DataHash := hashData [x11]; Request := [x11];
       ResponseCh := make_chan; Timestamp := 10; SentAt := 0; done := false |}
    [{| addr := 2; ID := 2; ClientID := "c3";
        DataHash := hashData [x22]; Request := [x22];
        ResponseCh := make_chan; Timestamp := 12; SentAt := 0; done := false |}]
    20 ltac:(vm_compute; reflexivity)) as H.
  cbv zeta in H.
  destruct H as (_ & _ & _ & _ & _ & _ & _ & _ & _ & _ & H).
  specialize (H ltac:(vm_compute; reflexivity) ltac:(vm_compute; reflexivity)).
  cbn [addr] in H. rewrite H.
  split; vm_compute; reflexivity.
Defined.

(** ** Single completion *)

Lemma alone_unfinished (c : Race.call) (r : PendingRequest) :
  unfinished r →
  Race.alone c r = set_ResponseCh (set_done r) (outcome c).
Proof.
  intros Hr. destruct c; simpl.
  - by apply finishWithResponse_unfinished.
  - by apply finishNoResponse_unfinished.
Qed.

Lemma alone_again (c c' : Race.call) (r : PendingRequest) :
  unfinished r → Race.alone c' (Race.alone c r) = Race.alone c r.
Proof.
  intros Hr. rewrite (alone_unfinished c r Hr).
  by destruct c'.
Qed.

Lemma winner_at_done (r : PendingRequest) (c : Race.call) (p : Race.pc)
    (o : PendingRequest) :
  unfinished r → winner_at r c p o →
  done o = true ∧ ResponseCh o ≠ Fault.
Proof.
  intros Hr [(-> & ->)|[(d & -> & -> & ->)|(-> & ->)]].
  - destruct Hr as [_ Hc]. simpl. by rewrite Hc.
  - destruct Hr as [_ Hc]. simpl. by rewrite Hc.
  - rewrite alone_unfinished by done. by destruct c.
Qed.

Lemma decided_step (r : PendingRequest) (i j : nat) (c : Race.call)
    (cfg : Race.config) :
  unfinished r → decided r i c cfg → decided r i c (Race.step cfg j).
Proof.
  intros Hr [(p & Hi & Hw) Hothers]. unfold Race.step.
  destruct (Race.threads cfg !! j) as [pj|] eqn:Hj; [|by split; eauto].
  assert (Hlen : (j < length (Race.threads cfg))%nat)
    by (apply lookup_lt_is_Some; eauto).
  destruct (decide (j = i)) as [->|Hne].
  - assert (pj = p) as -> by congruence.
    assert (Hkeep : ∀ o' p',
      winner_at r c p' o' →
      decided r i c {| Race.obj := o'; Race.threads := <[i:=p']> (Race.threads cfg) |}).
    { intros o' p' Hw'. split; simpl.
      - exists p'. by rewrite list_lookup_insert_eq.
      - intros k pk Hk. rewrite list_lookup_insert_ne by done. by apply Hothers. }
    destruct Hw as [(-> & Ho)|[(d & -> & -> & Ho)|(-> & Ho)]]; simpl.
    + destruct c as [d|]; apply Hkeep.
      * right; left. exists d. by rewrite Ho.
      * right; right. split; [done|]. rewrite Ho, alone_unfinished by done.
        unfold close_on. simpl. by destruct Hr as [_ ->].
    + apply Hkeep. right; right. split; [done|].
      rewrite Ho, alone_unfinished by done.
      unfold close_on, send_on. simpl. by destruct Hr as [_ ->].
    + apply Hkeep. right; right. done.
  - destruct (winner_at_done r c p _ Hr Hw) as [Hdone _].
    assert (Hadv : Race.advance (Race.obj cfg) pj = (Race.obj cfg, Race.Returned)).
    { destruct (Hothers j pj Hne Hj) as [->|[c' ->]]; simpl; [done|].
      by rewrite Hdone. }
    rewrite Hadv. split; simpl.
    + exists p. by rewrite list_lookup_insert_ne.
    + intros k pk Hk. destruct (decide (k = j)) as [->|Hkj].
      * rewrite list_lookup_insert_eq by done. intros [= <-]. by left.
      * rewrite list_lookup_insert_ne by done. by apply Hothers.
Qed.

Lemma decided_run (r : PendingRequest) (i : nat) (c : Race.call)
    (sched : list nat) (cfg : Race.config) :
  unfinished r → decided r i c cfg → decided r i c (Race.run cfg sched).
Proof.
  intros Hr. revert cfg. induction sched as [|j sched IH]; intros cfg Hd;
    [done|].
  simpl. apply IH. by apply decided_step.
Qed.

Lemma start_run (r : PendingRequest) (calls : list Race.call)
    (sched : list nat) :
  unfinished r →
  (first_scheduled (length calls) sched = None
   ∧ Race.run (Race.start r calls) sched = Race.start r calls)
  ∨ (∃ i c, first_scheduled (length calls) sched = Some i
            ∧ calls !! i = Some c
            ∧ decided r i c (Race.run (Race.start r calls) sched)).
Proof.
  intros Hr. induction sched as [|j sched IH]; [by left|].
  unfold first_scheduled. simpl.
  destruct (j <? length calls)%nat eqn:Hj.
  - right. apply Nat.ltb_lt in Hj.
    destruct (lookup_lt_is_Some_2 calls j Hj) as [c Hc].
    exists j, c. split; [done|]. split; [done|].
    apply decided_run; [done|].
    unfold Race.step, Race.start. simpl.
    rewrite list_lookup_fmap, Hc. simpl.
    destruct Hr as [Hd Hch]. rewrite Hd. split; simpl.
    + exists (Race.Won c). rewrite list_lookup_insert_eq
        by (rewrite length_map; done).
      split; [done|]. by left.
    + intros k pk Hk. rewrite list_lookup_insert_ne by done.
      rewrite list_lookup_fmap. intros Hpk.
      destruct (calls !! k); [|done]. right. simplify_eq/=. eauto.
  - apply Nat.ltb_ge in Hj.
    assert (Hstep : Race.step (Race.start r calls) j = Race.start r calls).
    { unfold Race.step, Race.start. simpl.
      rewrite list_lookup_fmap, (lookup_ge_None_2 calls j) by done. done. }
    unfold Race.run. simpl. rewrite Hstep. exact IH.
Qed.

(** Racing finisher calls on an unfinished request. *)
Lemma race_first_wins (r : PendingRequest) (calls : list Race.call)
    (sched : list nat) :
  unfinished r →
  let cfg := Race.run (Race.start r calls) sched in
  ResponseCh (Race.obj cfg) ≠ Fault
  ∧ (∀ i, first_scheduled (length calls) sched = Some i →
       ∃ c, calls !! i = Some c
            ∧ done (Race.obj cfg) = true
            ∧ (Forall (fun p => p = Race.Returned) (Race.threads cfg) →
                 Race.obj cfg = Race.alone c r
                 ∧ ResponseCh (Race.obj cfg) = outcome c))
  ∧ (first_scheduled (length calls) sched = None → Race.obj cfg = r)
  ∧ (∀ c c', Race.alone c' (Race.alone c r) = Race.alone c r).
Proof.
  intros Hr cfg. subst cfg.
  destruct (start_run r calls sched Hr)
    as [(Hnone & Hrun)|(i & c & Hfirst & Hc & Hdec)].
  - rewrite Hrun, Hnone. simpl.
    split; [destruct Hr as [_ ->]; done|].
    split; [done|]. split; [done|].
    intros c c'. by apply alone_again.
  - rewrite Hfirst.
    destruct Hdec as [(p & Hp & Hw) Hothers].
    destruct (winner_at_done r c p _ Hr Hw) as [Hdone Hfault].
    split; [done|]. split; [|split; [done|]].
    + intros i' [= <-]. exists c. split; [done|]. split; [done|].
      intros Hall. rewrite Forall_lookup in Hall.
      specialize (Hall i p Hp). subst p.
      destruct Hw as [(? & _)|[(d & _ & ? & _)|(_ & Ho)]]; [done|done|].
      split; [done|]. rewrite Ho, alone_unfinished by done. done.
    + intros c0 c'. by apply alone_again.
Qed.


(** ** Accounting for the link *)

Lemma writes_to_app (a : nat) (tr evs : list event) :
  writes_to a (tr ++ evs) = (writes_to a tr + writes_to a evs)%nat.
Proof. unfold writes_to. by rewrite List.filter_app, length_app. Qed.

Lemma no_writes_count (a : nat) (evs : list event) :
  no_writes evs → writes_to a evs = 0%nat.
Proof.
  unfold no_writes, writes_to. induction 1 as [|e evs He _ IH]; [done|].
  simpl. destruct e; simpl in *; try done.
Qed.

Lemma no_writes_elem (a : nat) (b : list byte) (evs : list event) :
  no_writes evs → SerialWrite a b ∉ evs.
Proof.
  unfold no_writes. rewrite Forall_forall. intros H Hin.
  by specialize (H _ Hin).
Qed.

Lemma no_writes_next (l : list PendingRequest) : no_writes (nextEvents l).
Proof. destruct l; repeat constructor. Qed.

Lemma no_writes_finished (f : PendingRequest → PendingRequest)
    (l : list PendingRequest) :
  no_writes (map (fun r => Finished (f r)) l).
Proof. unfold no_writes. apply Forall_fmap, Forall_true. done. Qed.

Lemma no_writes_timeout (l : list PendingRequest) :
  no_writes (timeoutEvents l).
Proof.
  unfold no_writes, timeoutEvents.
  induction l as [|r l IH]; simpl; [constructor|].
  by repeat constructor.
Qed.

Lemma no_writes_throttled (last : gmap string time.Time) (key : string)
    (interval : time.Duration) (now : time.Time) :
  no_writes (logIssuefThrottled last key interval now).2.
Proof.
  unfold logIssuefThrottled. repeat case_match; simpl; repeat constructor.
Qed.

Lemma filter_sublist {A} (f : A → bool) (l : list A) :
  List.filter f l `sublist_of` l.
Proof.
  induction l as [|x l IH]; simpl; [constructor|].
  destruct (f x); by constructor.
Qed.

Lemma memb_elem (x : nat) (l : list nat) : memb x l = true ↔ x ∈ l.
Proof.
  unfold memb. rewrite existsb_exists. split.
  - intros (y & Hy & Heq). apply Nat.eqb_eq in Heq as ->.
    by apply list_elem_of_In.
  - intros Hin. exists x. split; [by apply list_elem_of_In|].
    apply Nat.eqb_refl.
Qed.

Lemma remove1_elem (x y : nat) (l : list nat) : y ∈ remove1 x l → y ∈ l.
Proof.
  induction l as [|z l IH]; simpl; [done|].
  destruct (x =? z)%nat.
  - intros ?. by right.
  - intros [->|?]%elem_of_cons; [left | right; auto].
Qed.

(** Steps that only take requests away, and write nothing. *)
Lemma accounted_shrink (s s' : system) (tr evs : list event) :
  accounted s tr →
  nextAddr (queue s') = nextAddr (queue s) →
  pending (queue s') `sublist_of` pending (queue s) →
  (∀ h w, waits (queue s') h w → waits (queue s) h w) →
  (∀ a, a ∈ writing s' → a ∈ writing s) →
  ((respState (queue s') = respStateIdle → respState (queue s) = respStateIdle)
   ∨ pending (queue s') `sublist_of` tail (pending (queue s))) →
  no_writes evs →
  accounted s' (tr ++ evs).
Proof.
  intros Hacc Hnext Hsub Hwk Hwr Hhead Hev.
  assert (Hw : ∀ w, waiters_of (queue s') w → waiters_of (queue s) w).
  { intros w [h Hh]. exists h. auto. }
  assert (Hcount : ∀ a, writes_to a (tr ++ evs) = writes_to a tr).
  { intros a. rewrite writes_to_app, (no_writes_count a evs Hev). lia. }
  assert (Hin : ∀ r, r ∈ pending (queue s') → r ∈ pending (queue s)).
  { intros r Hr. by eapply elem_of_sublist. }
  assert (Hheld : ∀ r, held (queue s') r → held (queue s) r).
  { intros r [?|?]; [left|right]; auto. }
  assert (Htail : ∀ r, r ∈ tail (pending (queue s')) →
                       r ∈ tail (pending (queue s))).
  { intros r Hr. destruct (pending (queue s')) as [|h' rest'] eqn:Hp';
      [by apply elem_of_nil in Hr|]. simpl in Hr.
    destruct (pending (queue s)) as [|h rest] eqn:Hp.
    { by apply sublist_nil_r in Hsub. }
    simpl. apply sublist_cons_r in Hsub as [Hsub|(l' & [= -> ->] & Hsub)].
    - eapply elem_of_sublist; [|exact Hsub]. by right.
    - by eapply elem_of_sublist. }
  split; intros; rewrite ?Hcount, ?Hnext.
  - by apply (acc_once _ _ Hacc).
  - apply (acc_fresh _ _ Hacc). lia.
  - apply (acc_below _ _ Hacc). auto.
  - eapply sublist_NoDup; [apply (acc_nodup _ _ Hacc)|].
    by apply fmap_sublist.
  - intros Hin'. apply (acc_apart _ _ Hacc w); [auto|].
    eapply elem_of_sublist; [exact Hin'|]. by apply fmap_sublist.
  - destruct Hhead as [Hst|Hdrop].
    + destruct (pending (queue s)) as [|h rest0] eqn:Hp.
      { rewrite H in Hsub. by apply sublist_nil_r in Hsub. }
      rewrite H in Hsub.
      apply sublist_cons_r in Hsub as [Hsub|(l' & [= -> ->] & Hsub)].
      * apply (acc_tail _ _ Hacc). rewrite Hp. simpl.
        eapply elem_of_sublist; [|exact Hsub]. left.
      * eapply (acc_idle _ _ Hacc); eauto.
    + apply (acc_tail _ _ Hacc).
      eapply elem_of_sublist; [|exact Hdrop]. rewrite H. left.
  - apply (acc_tail _ _ Hacc). auto.
  - apply (acc_sent _ _ Hacc); auto.
  - apply (acc_waiters _ _ Hacc). auto.
  - apply (acc_writing _ _ Hacc). auto.
  - apply (acc_sound _ _ Hacc). auto.
  - apply (acc_payload _ _ Hacc); [auto|].
    apply elem_of_app in H0 as [?|Hbad]; [done|].
    by apply no_writes_elem in Hbad.
  - apply (acc_keyed _ _ Hacc). auto.
Qed.

Lemma accounted_same (s s' : system) (tr : list event) :
  accounted s tr → queue s' = queue s → writing s' = writing s →
  accounted s' tr.
Proof.
  intros Hacc Hq Hw. rewrite <- (app_nil_r tr).
  apply (accounted_shrink s s' tr []); rewrite ?Hq, ?Hw; auto.
  constructor.
Qed.

Lemma waits_attach (q : WriteQueue.t) (h k : Z) (req w : PendingRequest)
    (m : gmap Z (list PendingRequest)) :
  m = <[h := default [] (waiting q !! h) ++ [req]]> (waiting q) →
  (∃ ws, m !! k = Some ws ∧ w ∈ ws) →
  waits q k w ∨ (w = req ∧ k = h).
Proof.
  intros -> (ws & Hk & Hin).
  destruct (decide (h = k)) as [->|Hne].
  - rewrite lookup_insert_eq in Hk. injection Hk as <-.
    apply elem_of_app in Hin as [Hin|Hin].
    + left. destruct (waiting q !! k) as [old|] eqn:Hold; simpl in Hin.
      * by exists old.
      * by apply elem_of_nil in Hin.
    + right. by apply list_elem_of_singleton in Hin.
  - rewrite lookup_insert_ne in Hk by done. left. by exists ws.
Qed.

Lemma writes_to_pos (a : nat) (b : list byte) (tr : list event) :
  SerialWrite a b ∈ tr → (1 ≤ writes_to a tr)%nat.
Proof.
  induction tr as [|e tr IH]; intros Hin; [by apply elem_of_nil in Hin|].
  apply elem_of_cons in Hin as [<-|Hin].
  - unfold writes_to. simpl. rewrite Nat.eqb_refl. simpl. lia.
  - specialize (IH Hin). unfold writes_to in *. simpl.
    case_match; simpl; lia.
Qed.

Lemma accounted_Send (s : system) (tr : list event) (clientID : string)
    (d : list byte) (t0 now : time.Time) :
  accounted s tr →
  accounted
    {| queue := (Send (queue s) clientID d t0 now).1.1;
       throttle := throttle s; writing := writing s |}
    (tr ++ (Send (queue s) clientID d t0 now).2).
Proof.
  intros Hacc. unfold Send, Send_locked.
  destruct (RequestCache.Get (cache (queue s)) (hashData d) t0).
  { simpl. rewrite app_nil_r. by eapply accounted_same. }
  destruct (RequestCache.Get (cache (queue s)) (hashData d) now).
  { simpl. rewrite app_nil_r. by eapply accounted_same. }
  set (q := queue s) in *.
  assert (Hbelow : ∀ r, r ∈ pending q → (addr r < nextAddr q)%nat).
  { intros r Hr. apply (acc_below _ _ Hacc). by left. }
  destruct (inflight q !! hashData d).
  - (* attached as a waiter *)
    cbv zeta. simpl. rewrite app_nil_r.
    set (req := newRequest q 0 clientID d now).
    assert (Hwk : ∀ k w,
      waits
        {| cache := cache q; pending := pending q; serial := serial q;
           nextReqID := nextReqID q;
           clientIndex := <[clientID:=-1]> (clientIndex q);
           inflight := inflight q;
           waiting :=
             <[hashData d:=default [] (waiting q !! hashData d) ++ [req]]>
               (waiting q);
           respBuf := respBuf q; respTimer := respTimer q;
           currentReqID := currentReqID q; respState := respState q;
           dropUntil := dropUntil q; nextAddr := S (nextAddr q) |} k w →
      waits q k w ∨ (w = req ∧ k = hashData d)).
    { intros k w Hw. eapply waits_attach; [reflexivity|exact Hw]. }
    assert (Hw : ∀ w,
      waiters_of
        {| cache := cache q; pending := pending q; serial := serial q;
           nextReqID := nextReqID q;
           clientIndex := <[clientID:=-1]> (clientIndex q);
           inflight := inflight q;
           waiting :=
             <[hashData d:=default [] (waiting q !! hashData d) ++ [req]]>
               (waiting q);
           respBuf := respBuf q; respTimer := respTimer q;
           currentReqID := currentReqID q; respState := respState q;
           dropUntil := dropUntil q; nextAddr := S (nextAddr q) |} w →
      waiters_of q w ∨ w = req).
    { intros w [k Hk]. destruct (Hwk k w Hk) as [?|[? _]]; [left|by right].
      by exists k. }
    split; simpl.
    + apply (acc_once _ _ Hacc).
    + intros a Ha. apply (acc_fresh _ _ Hacc). fold q. lia.
    + intros r [Hr|Hr].
      * specialize (Hbelow r Hr). lia.
      * destruct (Hw r Hr) as [Hold| ->]; [|simpl; lia].
        pose proof (acc_below _ _ Hacc r (or_intror Hold)). fold q in H. lia.
    + apply (acc_nodup _ _ Hacc).
    + intros w Hwq. destruct (Hw w Hwq) as [Hold| ->].
      * by apply (acc_apart _ _ Hacc).
      * simpl. intros Hin. apply list_elem_of_fmap in Hin as (r & Hr & Hin).
        specialize (Hbelow r Hin). lia.
    + apply (acc_idle _ _ Hacc).
    + apply (acc_tail _ _ Hacc).
    + apply (acc_sent _ _ Hacc).
    + intros w Hwq. destruct (Hw w Hwq) as [Hold| ->].
      * by apply (acc_waiters _ _ Hacc).
      * apply (acc_fresh _ _ Hacc). simpl. fold q. lia.
    + apply (acc_writing _ _ Hacc).
    + intros r [Hr|Hr].
      * apply (acc_sound _ _ Hacc). by left.
      * destruct (Hw r Hr) as [Hold| ->]; [|done].
        apply (acc_sound _ _ Hacc). by right.
    + apply (acc_payload _ _ Hacc).
    + intros k w Hk. destruct (Hwk k w Hk) as [?|[-> ->]]; [|done].
      by apply (acc_keyed _ _ Hacc).
  - (* queued as a main request *)
    cbv zeta. simpl.
    set (req := newRequest q (wrap_uint64 (nextReqID q + 1)) clientID d now).
    assert (Hcount : ∀ a evs, no_writes evs →
              writes_to a (tr ++ evs) = writes_to a tr).
    { intros a evs Hev. rewrite writes_to_app, (no_writes_count a evs Hev). lia. }
    assert (Hev : no_writes
              (if (length (pending q ++ [req]) =? 1)%nat
               then [GoSendToSerial (nextAddr q)] else [])).
    { case_match; repeat constructor. }
    split; simpl; intros; rewrite ?(Hcount _ _ Hev).
    + apply (acc_once _ _ Hacc).
    + apply (acc_fresh _ _ Hacc). fold q. lia.
    + destruct H as [Hr|Hr].
      * apply elem_of_app in Hr as [Hr|Hr].
        -- specialize (Hbelow r Hr). lia.
        -- apply list_elem_of_singleton in Hr as ->. simpl. lia.
      * pose proof (acc_below _ _ Hacc r (or_intror Hr)). fold q in H. lia.
    + rewrite map_app. simpl. apply NoDup_app.
      split; [apply (acc_nodup _ _ Hacc)|].
      split; [|apply NoDup_singleton].
      intros a Ha Ha'. apply list_elem_of_singleton in Ha' as ->.
      apply list_elem_of_fmap in Ha as (r & Hr & Hin).
      specialize (Hbelow r Hin). lia.
    + rewrite map_app. simpl. intros Hin.
      apply elem_of_app in Hin as [Hin|Hin].
      * by apply (acc_apart _ _ Hacc w).
      * apply list_elem_of_singleton in Hin.
        pose proof (acc_below _ _ Hacc w (or_intror H)). fold q in H0. lia.
    + destruct (pending q) as [|h0 rest0] eqn:Hp; simpl in H.
      * injection H as <- <-. apply (acc_fresh _ _ Hacc). simpl. by fold q.
      * injection H as <- <-. eapply (acc_idle _ _ Hacc); eauto.
    + destruct (pending q) as [|h0 rest0] eqn:Hp; simpl in H.
      { by apply elem_of_nil in H. }
      apply elem_of_app in H as [Hr|Hr].
      * apply (acc_tail _ _ Hacc). fold q. by rewrite Hp.
      * apply list_elem_of_singleton in Hr as ->.
        apply (acc_fresh _ _ Hacc). simpl. by fold q.
    + apply elem_of_app in H as [Hr|Hr].
      * by apply (acc_sent _ _ Hacc).
      * apply list_elem_of_singleton in Hr as ->. done.
    + by apply (acc_waiters _ _ Hacc).
    + by apply (acc_writing _ _ Hacc).
    + destruct H as [Hr|Hr].
      * apply elem_of_app in Hr as [Hr|Hr].
        -- apply (acc_sound _ _ Hacc). by left.
        -- apply list_elem_of_singleton in Hr as ->. done.
      * apply (acc_sound _ _ Hacc). by right.
    + apply elem_of_app in H0 as [Htr|Hbad];
        [|by apply no_writes_elem in Hbad].
      apply elem_of_app in H as [Hr|Hr].
      * by apply (acc_payload _ _ Hacc).
      * apply list_elem_of_singleton in Hr as ->. simpl in Htr.
        assert (Hz : writes_to (nextAddr q) tr = 0%nat)
          by (apply (acc_fresh _ _ Hacc); by fold q).
        apply writes_to_pos in Htr. lia.
    + by apply (acc_keyed _ _ Hacc).
Qed.

Lemma writes_to_snoc (a req : nat) (b : list byte) (tr : list event) :
  writes_to a (tr ++ [SerialWrite req b])
    = (writes_to a tr + if decide (req = a) then 1 else 0)%nat.
Proof.
  rewrite writes_to_app. f_equal. unfold writes_to. simpl.
  destruct (decide (req = a)) as [->|Hne].
  - by rewrite Nat.eqb_refl.
  - apply Nat.eqb_neq in Hne. by rewrite Hne.
Qed.

Lemma sendToSerial_begin_Some (q q1 : WriteQueue.t) (req : nat) :
  sendToSerial_begin q req = Some q1 →
  ∃ head rest,
    pending q = head :: rest ∧ addr head = req
    ∧ serial q = true ∧ respState q = respStateIdle
    ∧ pending q1 = pending q ∧ waiting q1 = waiting q
    ∧ inflight q1 = inflight q ∧ nextAddr q1 = nextAddr q
    ∧ respBuf q1 = respBuf q ∧ currentReqID q1 = currentReqID q
    ∧ respState q1 = respStateSending.
Proof.
  unfold sendToSerial_begin. intros Hb.
  destruct (serial q) eqn:Hs; [|done]. simpl in Hb.
  destruct (pending q) as [|head rest] eqn:Hp; [done|].
  destruct (addr head =? req)%nat eqn:Ha; [|done]. simpl in Hb.
  destruct (respState q =? respStateIdle) eqn:Hi; [|done]. simpl in Hb.
  injection Hb as <-. exists head, rest. simpl.
  apply Nat.eqb_eq in Ha. apply Z.eqb_eq in Hi. by repeat split.
Qed.

Lemma head_by_addr (head r : PendingRequest) (rest : list PendingRequest) :
  NoDup (map addr (head :: rest)) → r ∈ head :: rest →
  addr r = addr head → r = head.
Proof.
  intros Hnd Hr Ha. apply elem_of_cons in Hr as [->|Hr]; [done|].
  simpl in Hnd. apply NoDup_cons in Hnd as [Hnot _].
  exfalso. apply Hnot. rewrite <- Ha. apply list_elem_of_fmap. eauto.
Qed.

Lemma accounted_begin (s : system) (tr : list event) (req : nat)
    (q1 : WriteQueue.t) (head : PendingRequest) (rest : list PendingRequest) :
  accounted s tr →
  sendToSerial_begin (queue s) req = Some q1 →
  pending (queue s) = head :: rest →
  accounted
    {| queue := q1; throttle := throttle s; writing := req :: writing s |}
    (tr ++ [SerialWrite req (Request head)]).
Proof.
  intros Hacc Hb Hp.
  destruct (sendToSerial_begin_Some _ _ _ Hb)
    as (head' & rest' & Hp' & Ha & _ & Hidle & Hp1 & Hw1 & _ & Hn1 & _ & _ & Hs1).
  rewrite Hp in Hp'. injection Hp' as <- <-.
  assert (Hzero : writes_to req tr = 0%nat).
  { rewrite <- Ha. by eapply (acc_idle _ _ Hacc). }
  assert (Hnd : NoDup (map addr (head :: rest))).
  { rewrite <- Hp. apply (acc_nodup _ _ Hacc). }
  assert (Hheld : ∀ r, held q1 r → held (queue s) r).
  { intros r [Hr|(h & ws & Hh & Hin)]; [left; by rewrite <- Hp1|].
    right. exists h, ws. by rewrite <- Hw1. }
  assert (Hwait : ∀ w, waiters_of q1 w → waiters_of (queue s) w).
  { intros w (h & ws & Hh & Hin). exists h, ws. by rewrite <- Hw1. }
  assert (Hkey : ∀ h w, waits q1 h w → waits (queue s) h w).
  { intros h w (ws & Hh & Hin). exists ws. by rewrite <- Hw1. }
  split; simpl; intros; rewrite ?writes_to_snoc, ?Hp1, ?Hn1 in *.
  - case_decide; [subst; lia|]. pose proof (acc_once _ _ Hacc a). lia.
  - rewrite (acc_fresh _ _ Hacc a) by done.
    rewrite decide_False; [done|]. intros ->.
    assert (addr head < nextAddr (queue s))%nat; [|lia].
    apply (acc_below _ _ Hacc). left. rewrite Hp. left.
  - apply (acc_below _ _ Hacc). auto.
  - apply (acc_nodup _ _ Hacc).
  - apply (acc_apart _ _ Hacc). auto.
  - rewrite Hs1 in H0. discriminate.
  - rewrite (acc_tail _ _ Hacc r) by done.
    rewrite decide_False; [done|]. intros Heq.
    rewrite Hp in H. simpl in H.
    simpl in Hnd. apply NoDup_cons in Hnd as [Hnot _]. apply Hnot.
    rewrite Ha, Heq. apply list_elem_of_fmap. eauto.
  - rewrite (acc_sent _ _ Hacc r) by done.
    rewrite decide_False; [done|]. intros Heq.
    pose proof (acc_sent _ _ Hacc r H H0) as Hone.
    rewrite <- Heq in Hone. lia.
  - rewrite (acc_waiters _ _ Hacc w) by auto.
    rewrite decide_False; [done|]. intros Heq.
    apply (acc_apart _ _ Hacc w); [auto|].
    rewrite Hp, <- Heq, <- Ha. apply list_elem_of_fmap. exists head.
    split; [done|left].
  - apply elem_of_cons in H as [->|Hin].
    + rewrite decide_True by done. lia.
    + pose proof (acc_writing _ _ Hacc a Hin) as Hone. rewrite Hone.
      rewrite decide_False; [done|]. intros <-. lia.
  - apply (acc_sound _ _ Hacc). auto.
  - apply elem_of_app in H0 as [Htr|Hnew].
    + by apply (acc_payload _ _ Hacc).
    + apply list_elem_of_singleton in Hnew. injection Hnew as Heq ->.
      f_equal. symmetry. eapply head_by_addr; [exact Hnd| |congruence].
      by rewrite <- Hp.
  - apply (acc_keyed _ _ Hacc). auto.
Qed.

Lemma unfinished_set_SentAt (r : PendingRequest) (now : time.Time) :
  unfinished r → unfinished (set_SentAt r now).
Proof. by intros [? ?]. Qed.

Lemma waits_delete (q q' : WriteQueue.t) (h k : Z) (w : PendingRequest) :
  waiting q' = delete h (waiting q) → waits q' k w → waits q k w.
Proof.
  intros Hw (ws & Hk & Hin). rewrite Hw in Hk.
  apply lookup_delete_Some in Hk as [_ Hk]. by exists ws.
Qed.

Lemma accounted_end (s : system) (tr : list event) (req : nat) (err : bool)
    (now : time.Time) :
  accounted s tr → req ∈ writing s →
  accounted
    {| queue := (sendToSerial_end (queue s) req err now).1;
       throttle := throttle s; writing := remove1 req (writing s) |}
    (tr ++ (sendToSerial_end (queue s) req err now).2).
Proof.
  intros Hacc Hreq.
  assert (Hrm : ∀ a, a ∈ remove1 req (writing s) → a ∈ writing s)
    by (intros a; apply remove1_elem).
  unfold sendToSerial_end.
  destruct (pending (queue s)) as [|head rest] eqn:Hp.
  { simpl. apply (accounted_shrink s); simpl; auto. constructor. }
  destruct (addr head =? req)%nat eqn:Ha; simpl;
    [|apply (accounted_shrink s); simpl; auto; constructor].
  apply Nat.eqb_eq in Ha.
  destruct err; simpl.
  - apply (accounted_shrink s); simpl; auto.
    + rewrite Hp. by constructor.
    + intros k w. by apply (waits_delete _ _ (DataHash head)).
    + right. by rewrite Hp.
    + constructor; [done|]. constructor; [done|].
      apply Forall_app. split;
        [apply no_writes_finished | apply no_writes_next].
  - rewrite app_nil_r.
    assert (Hwait : ∀ w,
      waiters_of
        {| cache := cache (queue s); pending := set_SentAt head now :: rest;
           serial := serial (queue s); nextReqID := nextReqID (queue s);
           clientIndex := clientIndex (queue s);
           inflight := inflight (queue s); waiting := waiting (queue s);
           respBuf := respBuf (queue s); respTimer := respTimer (queue s);
           currentReqID := ID head; respState := respStateWaiting;
           dropUntil := dropUntil (queue s);
           nextAddr := nextAddr (queue s) |} w →
      waiters_of (queue s) w) by (intros w H; exact H).
    assert (Hpend : ∀ r, r ∈ set_SentAt head now :: rest →
              ∃ r0, r0 ∈ pending (queue s) ∧ addr r = addr r0
                    ∧ Request r = Request r0 ∧ DataHash r = DataHash r0
                    ∧ (unfinished r0 → unfinished r)
                    ∧ (r = r0 ∨ r0 = head)).
    { intros r [->|Hr]%elem_of_cons.
      - exists head. rewrite Hp.
        split_and!; [left|done|done|done|apply unfinished_set_SentAt|by right].
      - exists r. rewrite Hp.
        split_and!; [by right|done|done|done|done|by left]. }
    split; simpl; intros.
    + apply (acc_once _ _ Hacc).
    + by apply (acc_fresh _ _ Hacc).
    + destruct H as [Hr|Hr].
      * destruct (Hpend r Hr) as (r0 & Hr0 & -> & _).
        apply (acc_below _ _ Hacc). by left.
      * apply (acc_below _ _ Hacc). right. auto.
    + pose proof (acc_nodup _ _ Hacc) as Hnd. by rewrite Hp in Hnd.
    + pose proof (acc_apart _ _ Hacc w (Hwait w H)) as Hap.
      by rewrite Hp in Hap.
    + discriminate.
    + apply (acc_tail _ _ Hacc). by rewrite Hp.
    + apply elem_of_cons in H as [->|Hr].
      * simpl. rewrite Ha. by apply (acc_writing _ _ Hacc).
      * apply (acc_sent _ _ Hacc); [|done]. rewrite Hp. by right.
    + by apply (acc_waiters _ _ Hacc).
    + apply (acc_writing _ _ Hacc). auto.
    + destruct H as [Hr|Hr].
      * destruct (Hpend r Hr) as (r0 & Hr0 & _ & -> & -> & Hun & _).
        destruct (acc_sound _ _ Hacc r0 (or_introl Hr0)) as [? ?]. auto.
      * apply (acc_sound _ _ Hacc). right. auto.
    + destruct (Hpend r H) as (r0 & Hr0 & Haddr & -> & _).
      apply (acc_payload _ _ Hacc); [done|]. by rewrite <- Haddr.
    + by apply (acc_keyed _ _ Hacc).
Qed.

Lemma no_writes_OnSerialData (q : WriteQueue.t) (last : gmap string time.Time)
    (d : list byte) (now : time.Time) :
  no_writes (OnSerialData q last d now).2.
Proof.
  unfold OnSerialData, drop.
  repeat case_match; simplify_eq; simpl;
    try (repeat constructor; fail);
    match goal with
    | H : logIssuefThrottled ?l ?k ?i ?n = (_, ?evs) |- no_writes ?evs =>
        pose proof (no_writes_throttled l k i n) as Hn;
        rewrite H in Hn; exact Hn
    end.
Qed.

Lemma accounted_data (s : system) (tr : list event) (d : list byte)
    (now : time.Time) :
  accounted s tr →
  accounted
    {| queue := (OnSerialData (queue s) (throttle s) d now).1.1;
       throttle := (OnSerialData (queue s) (throttle s) d now).1.2;
       writing := writing s |}
    (tr ++ (OnSerialData (queue s) (throttle s) d now).2).
Proof.
  intros Hacc.
  pose proof (no_writes_OnSerialData (queue s) (throttle s) d now) as Hev.
  destruct (OnSerialData_queue (queue s) (throttle s) d now)
    as [Hq|(Hs & Hc & Hp & _ & Hw & _ & Hn)].
  - apply (accounted_shrink s); simpl; rewrite ?Hq; auto.
  - apply (accounted_shrink s); simpl; rewrite ?Hp, ?Hs; auto.
    intros h w (ws & Hh & Hin). exists ws. by rewrite <- Hw.
Qed.

Lemma accounted_clear (s : system) (tr : list event) :
  accounted s tr →
  accounted
    {| queue := clearRespBuf (queue s); throttle := throttle s;
       writing := writing s |} (tr ++ []).
Proof.
  intros Hacc. apply (accounted_shrink s); simpl; auto. constructor.
Qed.

Lemma accounted_flush (s : system) (tr : list event) (now : time.Time) :
  accounted s tr →
  accounted
    {| queue := (flushResponseLocked (queue s) now).1;
       throttle := throttle s; writing := writing s |}
    (tr ++ (flushResponseLocked (queue s) now).2).
Proof.
  intros Hacc. unfold flushResponseLocked.
  destruct (pending (queue s)) as [|req rest] eqn:Hp;
    [by apply accounted_clear|].
  destruct (respBuf (queue s)) as [|b buf]; [by apply accounted_clear|].
  apply (accounted_shrink s); simpl; auto.
  - rewrite Hp. by constructor.
  - intros k w. by apply (waits_delete _ _ (DataHash req)).
  - right. by rewrite Hp.
  - constructor; [done|]. apply Forall_app. split;
      [apply no_writes_finished | apply no_writes_next].
Qed.

Lemma accounted_fire (s : system) (tr : list event) (now : time.Time) :
  accounted s tr →
  accounted
    {| queue := (flushResponseLoop_fire (queue s) now).1;
       throttle := throttle s; writing := writing s |}
    (tr ++ (flushResponseLoop_fire (queue s) now).2).
Proof.
  intros Hacc. unfold flushResponseLoop_fire.
  case_match; [by apply accounted_flush | by apply accounted_clear].
Qed.

Section reap_waiters.
Variable now : time.Time.

Lemma reapPending_waiting (l : list PendingRequest) (i : nat) (a : reap)
    (h : Z) (ws : list PendingRequest) :
  r_waiting (reapPending now i l a) !! h = Some ws →
  r_waiting a !! h = Some ws.
Proof.
  revert i a. induction l as [|r l IH]; intros i a; simpl; [done|].
  intros Hl. apply IH in Hl. revert Hl. unfold reapStep.
  destruct (alive now (sendTime r)); simpl; [done|].
  destruct (r_waiting a !! DataHash r); simpl; [|done].
  intros Hl. by apply lookup_delete_Some in Hl as [_ ?].
Qed.

Lemma reapWaiters_waiting (l : list (Z * list PendingRequest))
    (acc : list PendingRequest * gmap string Z * gmap Z (list PendingRequest))
    (h : Z) (ws' : list PendingRequest) :
  (foldr (reapWaiters now) acc l).2 !! h = Some ws' →
  acc.2 !! h = Some ws'
  ∨ ∃ ws, (h, ws) ∈ l ∧ ∀ w, w ∈ ws' → w ∈ ws.
Proof.
  induction l as [|[k ws] l IH]; simpl; [by left|].
  destruct (foldr (reapWaiters now) acc l) as [[ex ci] w] eqn:Hf.
  simpl in IH. unfold reapWaiters. simpl.
  case_match; simpl.
  - destruct (decide (k = h)) as [->|Hne].
    + rewrite lookup_insert_eq. intros [= <-]. right. exists ws.
      split; [left|]. intros x Hx.
      apply list_elem_of_In, filter_In in Hx as [Hx _].
      by apply list_elem_of_In.
    + rewrite lookup_insert_ne by done. intros Hw.
      destruct (IH Hw) as [?|(ws0 & Hin & Hsub)]; [by left|].
      right. exists ws0. split; [by right | done].
  - intros Hw. apply lookup_delete_Some in Hw as [_ Hw].
    destruct (IH Hw) as [?|(ws0 & Hin & Hsub)]; [by left|].
    right. exists ws0. split; [by right | done].
Qed.

Lemma CleanupExpired_sweep_rest (q : WriteQueue.t) :
  let a := reapPending now 0 (pending q) (reapStart q) in
  let w :=
    foldr (reapWaiters now) (expired a, newIndex a, r_waiting a)
      (map_to_list (r_waiting a)) in
  waiting (CleanupExpired_sweep q now).1.1 = w.2
  ∧ (CleanupExpired_sweep q now).2 = timeoutEvents w.1.1.
Proof.
  intros a w. subst w. unfold CleanupExpired_sweep. fold a.
  by destruct (foldr (reapWaiters now) (expired a, newIndex a, r_waiting a)
                 (map_to_list (r_waiting a))) as [[? ?] ?].
Qed.

Lemma CleanupExpired_waits (q : WriteQueue.t) (h : Z) (w : PendingRequest) :
  waits (CleanupExpired q now).1 h w → waits q h w.
Proof.
  rewrite CleanupExpired_queue.
  destruct (CleanupExpired_sweep_rest q) as [Hw _].
  intros (ws' & Hh & Hin). rewrite Hw in Hh.
  apply reapWaiters_waiting in Hh as [Hh|(ws & Hl & Hsub)]; simpl in *.
  - apply reapPending_waiting in Hh. by exists ws'.
  - apply elem_of_map_to_list, reapPending_waiting in Hl.
    exists ws. auto.
Qed.

Lemma no_writes_CleanupExpired (q : WriteQueue.t) :
  no_writes (CleanupExpired q now).2.
Proof.
  unfold CleanupExpired.
  destruct (CleanupExpired_sweep_rest q) as [_ Hev].
  destruct (CleanupExpired_sweep q now) as [[q' first] evs]. simpl in *.
  apply Forall_app. split.
  - rewrite Hev. apply no_writes_timeout.
  - unfold CleanupExpired_next. destruct first; [apply no_writes_next|].
    constructor.
Qed.

Lemma accounted_reap (s : system) (tr : list event) :
  accounted s tr →
  accounted
    {| queue := (CleanupExpired (queue s) now).1;
       throttle := throttle s; writing := writing s |}
    (tr ++ (CleanupExpired (queue s) now).2).
Proof.
  intros Hacc. apply (accounted_shrink s); simpl; auto.
  - rewrite CleanupExpired_queue.
    by destruct (CleanupExpired_sweep_fields now (queue s))
      as (_ & _ & _ & _ & _ & _ & ->).
  - rewrite CleanupExpired_pending. apply filter_sublist.
  - apply CleanupExpired_waits.
  - rewrite CleanupExpired_pending, CleanupExpired_queue.
    destruct (CleanupExpired_sweep_fields now (queue s))
      as (_ & _ & -> & _).
    destruct (pending (queue s)) as [|head rest] eqn:Hp; [by left|].
    rewrite reapPending_first. simpl.
    destruct (alive now (sendTime head)); simpl; [by left|].
    right. apply filter_sublist.
  - apply no_writes_CleanupExpired.
Qed.
End reap_waiters.

Lemma accounted_step (s : system) (tr : list event) (a : action) :
  accounted s tr → accounted (step s a).1 (tr ++ (step s a).2).
Proof.
  intros Hacc. destruct a as [c d t0 now|req|req err now|d now|now|now];
    unfold step.
  - pose proof (accounted_Send s tr c d t0 now Hacc) as H.
    by destruct (Send (queue s) c d t0 now) as [[q' h] evs].
  - destruct (sendToSerial_begin (queue s) req) as [q1|] eqn:Hb;
      [|simpl; by rewrite app_nil_r].
    destruct (pending (queue s)) as [|head rest] eqn:Hp;
      [simpl; by rewrite app_nil_r|].
    simpl. by eapply accounted_begin.
  - destruct (memb req (writing s)) eqn:Hm; [|simpl; by rewrite app_nil_r].
    apply memb_elem in Hm.
    pose proof (accounted_end s tr req err now Hacc Hm) as H.
    by destruct (sendToSerial_end (queue s) req err now) as [q' evs].
  - pose proof (accounted_data s tr d now Hacc) as H.
    by destruct (OnSerialData (queue s) (throttle s) d now) as [[q' l'] evs].
  - pose proof (accounted_fire s tr now Hacc) as H.
    by destruct (flushResponseLoop_fire (queue s) now) as [q' evs].
  - pose proof (accounted_reap now s tr Hacc) as H.
    by destruct (CleanupExpired (queue s) now) as [q' evs].
Qed.

Lemma run_accounted (acts : list action) (s : system) (tr : list event) :
  accounted s tr → accounted (run s acts).1 (tr ++ (run s acts).2).
Proof.
  revert s tr. induction acts as [|a acts IH]; intros s tr Hacc; simpl.
  - by rewrite app_nil_r.
  - pose proof (accounted_step s tr a Hacc) as Hstep.
    destruct (step s a) as [s1 evs1]. simpl in Hstep.
    specialize (IH s1 (tr ++ evs1) Hstep).
    destruct (run s1 acts) as [s2 evs2]. simpl in *.
    by rewrite app_assoc.
Qed.

Lemma accounted_boot (sp : bool) : accounted (boot sp) [].
Proof.
  split; simpl; intros; unfold held, waiters_of, waits in *; simpl in *;
    repeat match goal with
    | H : _ ∨ _ |- _ => destruct H
    | H : ∃ _, _ |- _ => destruct H
    | H : _ ∧ _ |- _ => destruct H
    | H : _ ∈ [] |- _ => by apply elem_of_nil in H
    | H : ∅ !! _ = Some _ |- _ => by rewrite lookup_empty in H
    end; try done.
  - unfold writes_to. simpl. lia.
  - constructor.
Qed.

Lemma reachable_accounted (sp : bool) (acts : list action) :
  accounted (run (boot sp) acts).1 (run (boot sp) acts).2.
Proof. apply (run_accounted acts (boot sp) []), accounted_boot. Qed.

Lemma writes_to_event (a : nat) (tr : list event) :
  (1 ≤ writes_to a tr)%nat → ∃ b, SerialWrite a b ∈ tr.
Proof.
  unfold writes_to. induction tr as [|e tr IH]; simpl; [lia|].
  destruct e as [| | | |r b| |]; simpl;
    try (intros H; destruct (IH H) as [b' Hb]; exists b'; by right).
  destruct (r =? a)%nat eqn:Hr.
  - apply Nat.eqb_eq in Hr as ->. intros _. exists b. left.
  - intros H; destruct (IH H) as [b' Hb]; exists b'; by right.
Qed.

Lemma finished_with_response (l : list PendingRequest) (d : list byte) :
  Forall unfinished l →
  map (fun w => Finished (finishWithResponse w d)) l
    = map (fun w => Finished (set_ResponseCh (set_done w) (Closed [d]))) l.
Proof.
  induction 1 as [|w l Hw _ IH]; simpl; [done|].
  by rewrite IH, finishWithResponse_unfinished.
Qed.

Lemma flush_fire_events (q : WriteQueue.t) (now : time.Time)
    (main : PendingRequest) (rest : list PendingRequest) :
  pending q = main :: rest → respBuf q ≠ [] →
  (flushResponseLoop_fire q now).2
    = map (fun w => Finished (finishWithResponse w (respBuf q)))
        (main :: default [] (waiting q !! DataHash main))
      ++ nextEvents rest.
Proof.
  intros Hp Hbuf. unfold flushResponseLoop_fire, flushResponseLocked.
  rewrite Hp. destruct (respBuf q) as [|b buf]; [done|]. reflexivity.
Qed.

(** ** Deduplication *)


(** ** Requests leave the queue through a finisher *)

Lemma timeoutEvents_elem (l : list PendingRequest) (x : PendingRequest) :
  Finished x ∈ timeoutEvents l ↔ ∃ r, r ∈ l ∧ x = finishNoResponse r.
Proof.
  unfold timeoutEvents. induction l as [|r l IH]; simpl.
  - split; [intros H; by apply elem_of_nil in H|].
    intros (r & Hr & _). by apply elem_of_nil in Hr.
  - rewrite !elem_of_cons, IH. split.
    + intros [?|[[= ->]|(r0 & Hr0 & ->)]]; [done| |].
      * exists r. split; [left | done].
      * exists r0. split; [by right | done].
    + intros (r0 & [->|Hr0]%elem_of_cons & ->); [right; by left|].
      right; right. eauto.
Qed.

Lemma nextEvents_finished (l : list PendingRequest) (x : PendingRequest) :
  Finished x ∉ nextEvents l.
Proof.
  destruct l; simpl; [apply not_elem_of_nil|].
  intros [?|H]%elem_of_cons; [done | by apply elem_of_nil in H].
Qed.

Lemma finished_map_elem (f : PendingRequest → PendingRequest)
    (l : list PendingRequest) (x : PendingRequest) :
  Finished x ∈ map (fun r => Finished (f r)) l ↔ ∃ r, r ∈ l ∧ x = f r.
Proof.
  rewrite list_elem_of_fmap. split.
  - intros (r & [= ->] & Hr). eauto.
  - intros (r & Hr & ->). eauto.
Qed.

Lemma default_waits (q : WriteQueue.t) (h : Z) (w : PendingRequest) :
  w ∈ default [] (waiting q !! h) ↔ waits q h w.
Proof.
  unfold waits. destruct (waiting q !! h) as [ws|]; simpl.
  - split; [intros ?; by exists ws | by intros (? & [= ->] & ?)].
  - split; [intros H; by apply elem_of_nil in H | by intros (? & ? & _)].
Qed.

Section reap_expired.
Variable now : time.Time.

Lemma reapPending_expired_mono (l : list PendingRequest) (i : nat) (a : reap)
    (r : PendingRequest) :
  r ∈ expired a → r ∈ expired (reapPending now i l a).
Proof.
  revert i a. induction l as [|x l IH]; intros i a Hr; simpl; [done|].
  apply IH. unfold reapStep.
  destruct (alive now (sendTime x)); simpl; [done|].
  destruct (r_waiting a !! DataHash x); simpl;
    rewrite ?elem_of_app; auto.
Qed.

Lemma reapPending_expired_dead (l : list PendingRequest) (i : nat) (a : reap)
    (r : PendingRequest) :
  r ∈ l → alive now (sendTime r) = false →
  r ∈ expired (reapPending now i l a).
Proof.
  revert i a. induction l as [|x l IH]; intros i a Hr Hdead;
    [by apply elem_of_nil in Hr|].
  simpl. apply elem_of_cons in Hr as [->|Hr]; [|by apply IH].
  apply reapPending_expired_mono. unfold reapStep. rewrite Hdead.
  destruct (r_waiting a !! DataHash x); simpl;
    rewrite ?elem_of_app, list_elem_of_singleton; auto.
Qed.

Lemma reapPending_waiter (l : list PendingRequest) (i : nat) (a : reap)
    (h : Z) (ws : list PendingRequest) (w : PendingRequest) :
  r_waiting a !! h = Some ws → w ∈ ws →
  r_waiting (reapPending now i l a) !! h = Some ws
  ∨ w ∈ expired (reapPending now i l a).
Proof.
  revert i a. induction l as [|x l IH]; intros i a Hh Hw; simpl; [by left|].
  destruct (alive now (sendTime x)) eqn:Hal.
  { apply IH; [|done]. unfold reapStep. by rewrite Hal. }
  destruct (r_waiting a !! DataHash x) as [wl|] eqn:Hx.
  - destruct (decide (DataHash x = h)) as [Heq|Hne].
    + right. apply reapPending_expired_mono.
      unfold reapStep. rewrite Hal, Hx. simpl.
      rewrite Heq in Hx. assert (wl = ws) as -> by congruence.
      apply elem_of_app. by right.
    + apply IH; [|done]. unfold reapStep. rewrite Hal, Hx. simpl.
      by rewrite lookup_delete_ne.
  - apply IH; [|done]. unfold reapStep. by rewrite Hal, Hx.
Qed.

Lemma reapPending_expired_from (l : list PendingRequest) (i : nat) (a : reap)
    (r : PendingRequest) :
  r ∈ expired (reapPending now i l a) →
  r ∈ expired a ∨ r ∈ l
  ∨ ∃ h ws, r_waiting a !! h = Some ws ∧ r ∈ ws.
Proof.
  revert i a. induction l as [|x l IH]; intros i a; simpl; [by left|].
  intros Hr. apply IH in Hr. revert Hr. unfold reapStep.
  destruct (alive now (sendTime x)); simpl.
  { intros [?|[?|?]]; [by left | right; left; by right | by right; right]. }
  destruct (r_waiting a !! DataHash x) as [wl|] eqn:Hx; simpl.
  - rewrite !elem_of_app, list_elem_of_singleton.
    intros [[[?| ->]|?]|[?|(h & ws & Hh & Hin)]].
    + by left.
    + right; left; left.
    + right; right. eauto.
    + right; left; by right.
    + apply lookup_delete_Some in Hh as [_ Hh]. right; right. eauto.
  - rewrite !elem_of_app, list_elem_of_singleton.
    intros [[?| ->]|[?|?]];
      [by left | right; left; left | right; left; by right | by right; right].
Qed.

Lemma reapWaiters_expired_mono (l : list (Z * list PendingRequest))
    (acc : list PendingRequest * gmap string Z * gmap Z (list PendingRequest))
    (r : PendingRequest) :
  r ∈ acc.1.1 → r ∈ (foldr (reapWaiters now) acc l).1.1.
Proof.
  intros Hr. induction l as [|kv l IH]; simpl; [done|].
  destruct (foldr (reapWaiters now) acc l) as [[ex ci] w]. simpl in *.
  apply elem_of_app. by left.
Qed.

Lemma reapWaiters_expired_from (l : list (Z * list PendingRequest))
    (acc : list PendingRequest * gmap string Z * gmap Z (list PendingRequest))
    (r : PendingRequest) :
  r ∈ (foldr (reapWaiters now) acc l).1.1 →
  r ∈ acc.1.1 ∨ ∃ h ws, (h, ws) ∈ l ∧ r ∈ ws.
Proof.
  induction l as [|[k ws] l IH]; simpl; [by left|].
  destruct (foldr (reapWaiters now) acc l) as [[ex ci] w]. simpl in *.
  rewrite elem_of_app. intros [Hr|Hr].
  - destruct (IH Hr) as [?|(h & ws0 & Hin & Hr0)]; [by left|].
    right. exists h, ws0. split; [by right | done].
  - right. exists k, ws. split; [left|].
    apply list_elem_of_In, filter_In in Hr as [Hr _].
    by apply list_elem_of_In.
Qed.

Lemma reapWaiters_keeps (l : list (Z * list PendingRequest))
    (acc : list PendingRequest * gmap string Z * gmap Z (list PendingRequest))
    (h : Z) (ws : list PendingRequest) (w : PendingRequest) :
  NoDup l.*1 → (h, ws) ∈ l → w ∈ ws →
  (∃ ws', (foldr (reapWaiters now) acc l).2 !! h = Some ws' ∧ w ∈ ws')
  ∨ w ∈ (foldr (reapWaiters now) acc l).1.1.
Proof.
  induction l as [|[k wl] l IH]; intros Hnd Hin Hw;
    [by apply elem_of_nil in Hin|].
  rewrite fmap_cons in Hnd. apply NoDup_cons in Hnd as [Hk Hnd].
  simpl. destruct (foldr (reapWaiters now) acc l) as [[ex ci] m] eqn:Hf.
  simpl in IH. unfold reapWaiters. simpl.
  apply elem_of_cons in Hin as [[= <- <-]|Hin].
  - destruct (alive now (Timestamp w)) eqn:Hal.
    + left.
      assert (Hkeep : w ∈ List.filter
                (fun req => alive now (Timestamp req)) ws).
      { apply list_elem_of_In, filter_In. split; [|done].
        by apply list_elem_of_In. }
      destruct (List.filter (fun req => alive now (Timestamp req)) ws)
        as [|y ys] eqn:Hflt; [by apply elem_of_nil in Hkeep|].
      simpl. rewrite lookup_insert_eq. eauto.
    + right. apply elem_of_app. right.
      apply list_elem_of_In, filter_In. split; [by apply list_elem_of_In|].
      by rewrite Hal.
  - assert (Hne : k ≠ h).
    { intros ->. apply Hk. apply list_elem_of_fmap. by exists (h, ws). }
    destruct (IH Hnd Hin Hw) as [(ws' & Hl & Hw')|Hex].
    + left. exists ws'. split; [|done].
      case_match; [by rewrite lookup_insert_ne | by rewrite lookup_delete_ne].
    + right. apply elem_of_app. by left.
Qed.
End reap_expired.

Lemma CleanupExpired_events (q : WriteQueue.t) (now : time.Time)
    (x : PendingRequest) :
  Finished x ∈ (CleanupExpired q now).2
  ↔ ∃ r, x = finishNoResponse r ∧ r ∈ reaped q now.
Proof.
  unfold CleanupExpired, reaped.
  destruct (CleanupExpired_sweep_rest now q) as [_ Hev].
  destruct (CleanupExpired_sweep q now) as [[q' first] evs]. simpl in *.
  rewrite Hev, elem_of_app, timeoutEvents_elem. split.
  - intros [(r & Hr & ->)|Hbad]; [eauto|].
    unfold CleanupExpired_next in Hbad. destruct first.
    + by apply nextEvents_finished in Hbad.
    + by apply elem_of_nil in Hbad.
  - intros (r & -> & Hr). left. eauto.
Qed.

Lemma CleanupExpired_conserves (q : WriteQueue.t) (now : time.Time)
    (r : PendingRequest) :
  held q r →
  held (CleanupExpired q now).1 r
  ∨ Finished (finishNoResponse r) ∈ (CleanupExpired q now).2.
Proof.
  intros [Hr|(h & ws & Hh & Hw)].
  - destruct (alive now (sendTime r)) eqn:Hal.
    + left. left. rewrite CleanupExpired_pending.
      apply list_elem_of_In, filter_In. split; [by apply list_elem_of_In|done].
    + right. apply CleanupExpired_events. exists r. split; [done|].
      apply reapWaiters_expired_mono. simpl.
      by apply reapPending_expired_dead.
  - set (a0 := reapStart q).
    destruct (reapPending_waiter now (pending q) 0 a0 h ws r Hh Hw)
      as [Hkeep|Hex].
    + apply elem_of_map_to_list in Hkeep.
      destruct (reapWaiters_keeps now _
                  (expired (reapPending now 0 (pending q) a0),
                   newIndex (reapPending now 0 (pending q) a0),
                   r_waiting (reapPending now 0 (pending q) a0))
                  h ws r (NoDup_fst_map_to_list _) Hkeep Hw)
        as [(ws' & Hl & Hw')|Hex].
      * left. right. exists h, ws'. split; [|done].
        rewrite CleanupExpired_queue.
        destruct (CleanupExpired_sweep_rest now q) as [-> _]. exact Hl.
      * right. apply CleanupExpired_events. eauto.
    + right. apply CleanupExpired_events. exists r. split; [done|].
      by apply reapWaiters_expired_mono.
Qed.

Lemma CleanupExpired_finishes (q : WriteQueue.t) (now : time.Time)
    (x : PendingRequest) :
  Finished x ∈ (CleanupExpired q now).2 →
  ∃ r, held q r ∧ x = finishNoResponse r.
Proof.
  intros (r & -> & Hr)%CleanupExpired_events. exists r. split; [|done].
  unfold reaped in Hr.
  apply reapWaiters_expired_from in Hr as [Hr|(h & ws & Hin & Hr)];
    simpl in Hr.
  - apply reapPending_expired_from in Hr as [Hr|[Hr|(h & ws & Hh & Hr)]].
    + by apply elem_of_nil in Hr.
    + by left.
    + right. by exists h, ws.
  - apply elem_of_map_to_list, reapPending_waiting in Hin.
    right. by exists h, ws.
Qed.

Lemma reapWaiters_late (now : time.Time)
    (l : list (Z * list PendingRequest))
    (acc : list PendingRequest * gmap string Z * gmap Z (list PendingRequest))
    (h : Z) (ws : list PendingRequest) (w : PendingRequest) :
  (h, ws) ∈ l → w ∈ ws → alive now (Timestamp w) = false →
  w ∈ (foldr (reapWaiters now) acc l).1.1.
Proof.
  induction l as [|[k wl] l IH]; intros Hin Hw Hlate;
    [by apply elem_of_nil in Hin|].
  simpl. destruct (foldr (reapWaiters now) acc l) as [[ex ci] m] eqn:Hf.
  simpl in *. apply elem_of_app.
  apply elem_of_cons in Hin as [[= <- <-]|Hin]; [right | left; by apply IH].
  apply list_elem_of_In, filter_In. split; [by apply list_elem_of_In|].
  by rewrite Hlate.
Qed.

(** A pass of the reaper finishes every request whose time is up. *)
Lemma CleanupExpired_times_out (q : WriteQueue.t) (now : time.Time)
    (r : PendingRequest) :
  (r ∈ pending q ∧ 3000000000 ≤ now - sendTime r)
  ∨ (waiters_of q r ∧ 3000000000 ≤ now - Timestamp r) →
  Finished (finishNoResponse r) ∈ (CleanupExpired q now).2.
Proof.
  intros Hr. apply CleanupExpired_events. exists r. split; [done|].
  unfold reaped.
  destruct Hr as [[Hr Hup]|[(h & ws & Hh & Hw) Hup]].
  - apply reapWaiters_expired_mono. simpl.
    apply reapPending_expired_dead; [done|].
    destruct (alive now (sendTime r)) eqn:Hal; [|done].
    apply alive_iff in Hal. lia.
  - destruct (reapPending_waiter now (pending q) 0 (reapStart q) h ws r Hh Hw)
      as [Hkeep|Hex].
    + apply (reapWaiters_late now _ _ h ws); [|done|].
      * by apply elem_of_map_to_list.
      * destruct (alive now (Timestamp r)) eqn:Hal; [|done].
        apply alive_iff in Hal. lia.
    + by apply reapWaiters_expired_mono.
Qed.

(** Dropping the head with its waiter list: what [sendToSerial] does on a
    write error and what the flush does on a frame. *)
Lemma drop_head_conserves (q q' : WriteQueue.t) (head r : PendingRequest)
    (rest : list PendingRequest) :
  pending q = head :: rest → pending q' = rest →
  waiting q' = delete (DataHash head) (waiting q) →
  held q r →
  held q' r ∨ r ∈ head :: default [] (waiting q !! DataHash head).
Proof.
  intros Hp Hp' Hw' [Hr|(h & ws & Hh & Hw)].
  - rewrite Hp in Hr. apply elem_of_cons in Hr as [->|Hr].
    + right. left.
    + left. left. by rewrite Hp'.
  - destruct (decide (h = DataHash head)) as [->|Hne].
    + right. right. by rewrite Hh.
    + left. right. exists h, ws. split; [|done].
      by rewrite Hw', lookup_delete_ne.
Qed.

Lemma step_conserves (s : system) (a : action) (r : PendingRequest) :
  held (queue s) r →
  held_addr (queue (step s a).1) (addr r) ∨ finished_by (step s a).2 r.
Proof.
  intros Hr.
  assert (Hstay : held_addr (queue s) (addr r)) by by exists r.
  destruct a as [c d t0 now|req|req err now|d now|now|now]; unfold step.
  - left. unfold Send, Send_locked.
    destruct (RequestCache.Get (cache (queue s)) (hashData d) t0); [done|].
    destruct (RequestCache.Get (cache (queue s)) (hashData d) now); [done|].
    destruct (inflight (queue s) !! hashData d); cbv zeta; simpl.
    + exists r. split; [|done]. destruct Hr as [?|(h & ws & Hh & Hw)];
        [by left|]. right. exists h. unfold waits. simpl.
      destruct (decide (h = hashData d)) as [->|Hne].
      * eexists. split; [apply lookup_insert_eq|].
        rewrite Hh. simpl. apply elem_of_app. by left.
      * exists ws. by rewrite lookup_insert_ne.
    + exists r. split; [|done]. destruct Hr as [?|?]; [left|by right].
      simpl. apply elem_of_app. by left.
  - left. destruct (sendToSerial_begin (queue s) req) as [q1|] eqn:Hb; [|done].
    destruct (pending (queue s)) eqn:Hp; [done|]. simpl.
    destruct (sendToSerial_begin_Some _ _ _ Hb)
      as (? & ? & _ & _ & _ & _ & Hp1 & Hw1 & _).
    exists r. split; [|done]. destruct Hr as [?|(h & ws & Hh & Hw)].
    + left. by rewrite Hp1.
    + right. exists h, ws. by rewrite Hw1.
  - destruct (memb req (writing s)); [|by left].
    unfold sendToSerial_end.
    destruct (pending (queue s)) as [|head rest] eqn:Hp; [by left|].
    destruct (negb (addr head =? req)%nat); [by left|].
    destruct err; simpl.
    + destruct (drop_head_conserves (queue s)
        {| cache := cache (queue s); pending := rest;
           serial := serial (queue s); nextReqID := nextReqID (queue s);
           clientIndex :=
             dropClients (delete (ClientID head) (clientIndex (queue s)))
               (default [] (waiting (queue s) !! DataHash head));
           inflight := delete (DataHash head) (inflight (queue s));
           waiting := delete (DataHash head) (waiting (queue s));
           respBuf := respBuf (queue s); respTimer := respTimer (queue s);
           currentReqID := 0; respState := respStateIdle;
           dropUntil := time.Add now (150 * time.Millisecond);
           nextAddr := nextAddr (queue s) |} head r rest Hp eq_refl eq_refl Hr)
        as [Hheld|Hgone].
      * left. by exists r.
      * right. left. right.
        apply elem_of_cons in Hgone as [->|Hgone]; [left|right].
        apply elem_of_app. left. apply finished_map_elem. eauto.
    + left. destruct Hr as [Hr|Hr].
      * rewrite Hp in Hr. apply elem_of_cons in Hr as [->|Hr].
        -- exists (set_SentAt head now). split; [|done]. left. left.
        -- exists r. split; [|done]. left. by right.
      * exists r. split; [|done]. by right.
  - left. destruct (OnSerialData_queue (queue s) (throttle s) d now)
      as [Hq|(_ & _ & Hp & _ & Hw & _)];
      destruct (OnSerialData (queue s) (throttle s) d now) as [[q' l'] evs];
      simpl in *; [by rewrite Hq|].
    exists r. split; [|done]. destruct Hr as [?|(h & ws & Hh & Hin)].
    + left. by rewrite Hp.
    + right. exists h, ws. by rewrite Hw.
  - unfold flushResponseLoop_fire, flushResponseLocked.
    destruct (pending (queue s)) as [|head rest] eqn:Hp; simpl;
      [by left|].
    destruct (respBuf (queue s)) as [|b buf] eqn:Hbuf; simpl; [by left|].
    destruct (drop_head_conserves (queue s)
      {| cache :=
           RequestCache.SetWithTTL (cache (queue s)) (DataHash head) (b :: buf)
             (cacheTTLOf (rttOf head now)) now;
         pending := rest;
         serial := serial (queue s); nextReqID := nextReqID (queue s);
         clientIndex :=
           dropClients (delete (ClientID head) (clientIndex (queue s)))
             (default [] (waiting (queue s) !! DataHash head));
         inflight := delete (DataHash head) (inflight (queue s));
         waiting := delete (DataHash head) (waiting (queue s));
         respBuf := []; respTimer := respTimer (queue s);
         currentReqID := 0; respState := respStateIdle;
         dropUntil := dropUntil (queue s);
         nextAddr := nextAddr (queue s) |} head r rest Hp eq_refl eq_refl Hr)
      as [Hheld|Hgone].
    + left. by exists r.
    + right. right. exists (b :: buf).
      apply elem_of_cons in Hgone as [->|Hgone]; [left|right].
      apply elem_of_app. left. apply finished_map_elem. eauto.
  - destruct (CleanupExpired_conserves (queue s) now r Hr) as [Hheld|Hfin].
    + left. destruct (CleanupExpired (queue s) now) as [q' evs].
      by exists r.
    + right. left. by destruct (CleanupExpired (queue s) now) as [q' evs].
Qed.

(** No [Finished] event in a list that is written out. *)
Ltac not_listed :=
  let H := fresh "H" in
  intros H;
  repeat (apply elem_of_cons in H as [H|H]; [discriminate|]);
  by apply elem_of_nil in H.

Lemma OnSerialData_no_finished (q : WriteQueue.t)
    (last : gmap string time.Time) (d : list byte) (now : time.Time)
    (x : PendingRequest) :
  Finished x ∉ (OnSerialData q last d now).2.
Proof.
  assert (Hlog : ∀ key, Finished x ∉ (drop q last key now).2).
  { intros key. unfold drop, logIssuefThrottled, logIssuef.
    repeat case_match; simplify_eq; simpl; not_listed. }
  unfold OnSerialData.
  repeat case_match; simplify_eq; try apply Hlog; simpl; not_listed.
Qed.

Lemma step_finishes_held (s : system) (a : action) (x : PendingRequest) :
  Finished x ∈ (step s a).2 →
  ∃ r, held (queue s) r
       ∧ (x = finishNoResponse r ∨ ∃ d, x = finishWithResponse r d).
Proof.
  destruct a as [c d t0 now|req|req err now|d now|now|now]; unfold step.
  - unfold Send, Send_locked.
    repeat case_match; simplify_eq; simpl; not_listed.
  - repeat case_match; simplify_eq; simpl; not_listed.
  - destruct (memb req (writing s));
      [|simpl; not_listed].
    unfold sendToSerial_end.
    destruct (pending (queue s)) as [|head rest] eqn:Hp;
      [simpl; not_listed|].
    destruct (negb (addr head =? req)%nat);
      [simpl; not_listed|].
    destruct err; simpl; [|not_listed].
    rewrite !elem_of_cons, elem_of_app, finished_map_elem.
    intros [?|[[= ->]|[(r & Hr & ->)|Hbad]]]; [done| | |].
    + exists head. split; [|by left]. left. rewrite Hp. left.
    + exists r. split; [|by left]. right. exists (DataHash head).
      by apply default_waits.
    + by apply nextEvents_finished in Hbad.
  - pose proof (OnSerialData_no_finished (queue s) (throttle s) d now x).
    by destruct (OnSerialData (queue s) (throttle s) d now) as [[q' l'] evs].
  - unfold flushResponseLoop_fire, flushResponseLocked.
    destruct (pending (queue s)) as [|head rest] eqn:Hp;
      [simpl; not_listed|].
    destruct (respBuf (queue s)) as [|b buf];
      [simpl; not_listed|].
    simpl. rewrite !elem_of_cons, elem_of_app, finished_map_elem.
    intros [[= ->]|[(r & Hr & ->)|Hbad]].
    + exists head. split; [|right; eauto]. left. rewrite Hp. left.
    + exists r. split; [|right; eauto]. right. exists (DataHash head).
      by apply default_waits.
    + by apply nextEvents_finished in Hbad.
  - intros Hx.
    assert (Hx' : Finished x ∈ (CleanupExpired (queue s) now).2)
      by by destruct (CleanupExpired (queue s) now) as [q' evs].
    destruct (CleanupExpired_finishes _ _ _ Hx') as (r & Hr & ->).
    exists r. split; [done | by left].
Qed.


(** * Further properties of the code *)

(** ** The cache as a map with expiry *)

(** X1: what [Get] returns after [SetWithTTL]: under the key that was set,
    the new bytes until the TTL has passed (whatever was stored there
    before), and nothing afterwards; under any other key, what it returned
    before.  [Set] is [SetWithTTL] with five seconds. *)
Theorem SetWithTTL_then_Get (c : gmap Z cacheEntry) (h k : Z) (d : list byte)
    (ttl : time.Duration) (t t' : time.Time) :
  RequestCache.Get (RequestCache.SetWithTTL c h d ttl t) k t'
    = (if decide (k = h)
       then if t + ttl <? t' then None else Some d
       else RequestCache.Get c k t')
  ∧ (RequestCache.Get (RequestCache.Set_ c h d t) h t' = Some d
     ↔ t' ≤ t + 5000000000).
Proof.
  assert (Hget : ∀ ttl0,
    RequestCache.Get (RequestCache.SetWithTTL c h d ttl0 t) h t'
      = if t + ttl0 <? t' then None else Some d).
  { intros ttl0.
    unfold RequestCache.Get, RequestCache.SetWithTTL, time.After, time.Add.
    by rewrite lookup_insert_eq. }
  split.
  - destruct (decide (k = h)) as [->|Hne]; [apply Hget|].
    unfold RequestCache.Get, RequestCache.SetWithTTL.
    by rewrite lookup_insert_ne.
  - unfold RequestCache.Set_. rewrite Hget.
    unfold defaultCacheTTL, time.Second.
    destruct (t + 5 * 1000000000 <? t') eqn:Hlt.
    + apply Z.ltb_lt in Hlt. split; [done | lia].
    + apply Z.ltb_ge in Hlt. split; [lia | done].
Qed.

(** X2: the sweep cannot be seen through [Get]: at the instant of the sweep
    and at any later one, [Get] returns from the swept cache what it would
    have returned from the unswept one. *)
Theorem sweep_is_invisible_to_Get (c : gmap Z cacheEntry) (now t : time.Time)
    (h : Z) :
  now ≤ t →
  RequestCache.Get (RequestCache.CleanupExpired c now) h t
    = RequestCache.Get c h t.
Proof.
  intros Hle. unfold RequestCache.Get. rewrite CleanupExpired_lookup.
  destruct (c !! h) as [e|]; [|done].
  unfold time.After.
  destruct (expireAt e <? now) eqn:Hnow; [|done].
  apply Z.ltb_lt in Hnow.
  destruct (expireAt e <? t) eqn:Ht; [done|].
  apply Z.ltb_ge in Ht. lia.
Qed.

Lemma sweep_is_invisible_to_Get_witness :
  let c : gmap Z cacheEntry :=
    {[ 7 := {| data := [x01]; expireAt := 5 |};
       8 := {| data := [x02]; expireAt := 9 |} ]} in
  RequestCache.Get (RequestCache.CleanupExpired c 6) 7 8 = None
  ∧ RequestCache.Get (RequestCache.CleanupExpired c 6) 8 8 = Some [x02].
Proof.
  intros c.
  rewrite !(sweep_is_invisible_to_Get c 6 8) by lia.
  split; reflexivity.
Defined.

(** ** How long a response is served from the cache *)

Lemma cacheTTLOf_bounds (rtt : time.Duration) :
  1000000000 ≤ cacheTTLOf rtt ≤ 30000000000.
Proof.
  unfold cacheTTLOf, time.Second.
  repeat case_match; rewrite ?Z.ltb_lt, ?Z.ltb_ge in *; lia.
Qed.

(** X3: a frame that completes the head is served from the cache for at
    least one second and at most thirty, whatever the round trip was.  A
    [Send] of a payload with the head's fingerprint whose first lookup falls
    within a second of the flush returns the frame at once, leaves the queue
    alone and writes nothing; a lookup more than thirty seconds after the
    flush misses that entry. *)
Theorem flushed_frame_is_served_from_cache (q : WriteQueue.t)
    (now : time.Time) (req : PendingRequest) (rest : list PendingRequest)
    (clientID : string) (d : list byte) (t0 t1 : time.Time) :
  pending q = req :: rest →
  respBuf q ≠ [] →
  hashData d = DataHash req →
  let q1 := (flushResponseLoop_fire q now).1 in
  (t0 ≤ now + 1000000000 →
     Send q1 clientID d t0 t1 = (q1, Resolved (Closed [respBuf q]), []))
  ∧ (now + 30000000000 < t0 →
       RequestCache.Get (cache q1) (hashData d) t0 = None).
Proof.
  intros Hp Hbuf Hh q1.
  assert (Hentry : cache q1 !! hashData d
            = Some {| data := respBuf q;
                      expireAt := now + cacheTTLOf (rttOf req now) |}).
  { subst q1. unfold flushResponseLoop_fire, flushResponseLocked.
    rewrite Hp. destruct (respBuf q) as [|b buf]; [done|]. simpl.
    unfold RequestCache.SetWithTTL, time.Add.
    by rewrite Hh, lookup_insert_eq. }
  pose proof (cacheTTLOf_bounds (rttOf req now)) as Httl.
  split.
  - intros Hsoon. unfold Send, RequestCache.Get. rewrite Hentry. simpl.
    unfold time.After.
    destruct (now + cacheTTLOf (rttOf req now) <? t0) eqn:Hlt; [|done].
    apply Z.ltb_lt in Hlt. lia.
  - intros Hlate. unfold RequestCache.Get. rewrite Hentry. simpl.
    unfold time.After.
    destruct (now + cacheTTLOf (rttOf req now) <? t0) eqn:Hlt; [done|].
    apply Z.ltb_ge in Hlt. lia.
Qed.

Lemma flushed_frame_is_served_from_cache_witness :
  let q :=
    (run (boot true)
       [DoSend "c1" [x01; x02] 10 10; DoBegin 0; DoEnd 0 false 20;
        DoData [xff] 30]).1.(queue) in
  let q1 := (flushResponseLoop_fire q 50000030).1 in
  Send q1 "c3" [x01; x02] 60000000 60000000
    = (q1, Resolved (Closed [[xff]]), []).
Proof.
  intros q q1.
  destruct (flushed_frame_is_served_from_cache q 50000030
    {| addr := 0; ID := 1; ClientID := "c1";
       DataHash := hashData [x01; x02]; Request := [x01; x02];
       ResponseCh := make_chan; Timestamp := 10; SentAt := 20;
       done := false |} [] "c3"%string [x01; x02] 60000000 60000000)
    as [Hhit _];
    [vm_compute; reflexivity | vm_compute; discriminate | reflexivity |].
  fold q1 in Hhit. rewrite Hhit by lia.
  assert (Hbuf : respBuf q = [xff]) by (vm_compute; reflexivity).
  by rewrite Hbuf.
Defined.

(** ** What a step does to the lists of the queue *)

Lemma step_transition (s : system) (a : action) :
  transition (queue s) (queue (step s a).1).
Proof.
  destruct a as [c d t0 now|req|req err now|d now|now|now]; unfold step.
  - unfold Send, Send_locked.
    destruct (RequestCache.Get (cache (queue s)) (hashData d) t0);
      [by apply T_same|].
    destruct (RequestCache.Get (cache (queue s)) (hashData d) now);
      [by apply T_same|].
    destruct (inflight (queue s) !! hashData d) eqn:Hin; cbv zeta; simpl.
    + by eapply (T_attach _ _ (newRequest (queue s) 0 c d now)); simpl;
        rewrite ?Hin.
    + by eapply (T_enqueue _ _
        (newRequest (queue s) (wrap_uint64 (nextReqID (queue s) + 1)) c d now)).
  - destruct (sendToSerial_begin (queue s) req) as [q1|] eqn:Hb;
      [|by apply T_same].
    destruct (pending (queue s)) eqn:Hp; [by apply T_same|]. simpl.
    destruct (sendToSerial_begin_Some _ _ _ Hb)
      as (? & ? & _ & _ & _ & _ & Hp1 & Hw1 & Hi1 & Hn1 & _).
    apply T_same; try done.
    unfold sendToSerial_begin in Hb. repeat case_match; by simplify_eq.
  - destruct (memb req (writing s)); [|by apply T_same].
    unfold sendToSerial_end.
    destruct (pending (queue s)) as [|head rest] eqn:Hp; [by apply T_same|].
    destruct (negb (addr head =? req)%nat); [by apply T_same|].
    destruct err; simpl.
    + by eapply (T_drop _ _ head rest).
    + by eapply (T_sent _ _ head rest now).
  - destruct (OnSerialData_queue (queue s) (throttle s) d now)
      as [Hq|(_ & _ & Hp & _ & Hw & Hi & Hn)];
      destruct (OnSerialData (queue s) (throttle s) d now) as [[q' l'] evs]
        eqn:Hd; simpl in *.
    + subst q'. by apply T_same.
    + apply T_same; try done.
      unfold OnSerialData, drop in Hd. repeat case_match; by simplify_eq.
  - unfold flushResponseLoop_fire, flushResponseLocked.
    destruct (pending (queue s)) as [|head rest] eqn:Hp; simpl;
      [by apply T_same|].
    destruct (respBuf (queue s)) as [|b buf] eqn:Hbuf; simpl;
      [by apply T_same|].
    by eapply (T_drop _ _ head rest).
  - apply (T_reap _ _ now).
    by destruct (CleanupExpired (queue s) now).
Qed.

(** ** Unique heads *)

Section reap_index.
Variable now : time.Time.

Lemma reapPending_inflight (l : list PendingRequest) (i : nat) (a : reap)
    (h : Z) :
  r_inflight (reapPending now i l a) !! h
    = if existsb (dead_with now h) l then None else r_inflight a !! h.
Proof.
  revert i a. induction l as [|r l IH]; intros i a; simpl; [done|].
  rewrite IH. unfold dead_with at 2, reapStep.
  destruct (alive now (sendTime r)) eqn:Hal; simpl; [done|].
  destruct (DataHash r =? h) eqn:Hh; simpl.
  - apply Z.eqb_eq in Hh as <-.
    destruct (r_waiting a !! DataHash r); simpl;
      rewrite lookup_delete_eq; by destruct (existsb _ l).
  - apply Z.eqb_neq in Hh.
    destruct (r_waiting a !! DataHash r); simpl;
      by rewrite lookup_delete_ne.
Qed.

Lemma reapPending_waiting_lookup (l : list PendingRequest) (i : nat)
    (a : reap) (h : Z) :
  r_waiting (reapPending now i l a) !! h
    = if existsb (dead_with now h) l then None else r_waiting a !! h.
Proof.
  revert i a. induction l as [|r l IH]; intros i a; simpl; [done|].
  rewrite IH. unfold dead_with at 2, reapStep.
  destruct (alive now (sendTime r)) eqn:Hal; simpl; [done|].
  destruct (DataHash r =? h) eqn:Hh; simpl.
  - apply Z.eqb_eq in Hh as <-.
    destruct (r_waiting a !! DataHash r) eqn:Hw; simpl.
    + rewrite lookup_delete_eq. by destruct (existsb _ l).
    + rewrite Hw. by destruct (existsb _ l).
  - apply Z.eqb_neq in Hh.
    destruct (r_waiting a !! DataHash r); simpl; [|done].
    by rewrite lookup_delete_ne.
Qed.

Lemma reapWaiters_nonempty (l : list (Z * list PendingRequest))
    (acc : list PendingRequest * gmap string Z * gmap Z (list PendingRequest))
    (h : Z) (ws' : list PendingRequest) :
  (foldr (reapWaiters now) acc l).2 !! h = Some ws' →
  ws' ≠ [] ∨ acc.2 !! h = Some ws'.
Proof.
  induction l as [|[k ws] l IH]; simpl; [by right|].
  destruct (foldr (reapWaiters now) acc l) as [[ex ci] w] eqn:Hf.
  simpl in IH. unfold reapWaiters. simpl.
  destruct (List.filter (fun req => alive now (Timestamp req)) ws)
    as [|y ys] eqn:Hflt; simpl.
  - intros Hw. apply lookup_delete_Some in Hw as [_ Hw]. auto.
  - destruct (decide (k = h)) as [->|Hne].
    + rewrite lookup_insert_eq. intros [= <-]. by left.
    + rewrite lookup_insert_ne by done. auto.
Qed.

Lemma CleanupExpired_inflight (q : WriteQueue.t) (h : Z) :
  inflight (CleanupExpired q now).1 !! h
    = if existsb (dead_with now h) (pending q) then None else inflight q !! h.
Proof.
  rewrite CleanupExpired_queue.
  destruct (CleanupExpired_sweep_fields now q) as (_ & _ & _ & _ & _ & -> & _).
  apply reapPending_inflight.
Qed.

Lemma CleanupExpired_waiting (q : WriteQueue.t) (h : Z)
    (ws' : list PendingRequest) :
  (∀ k ws, waiting q !! k = Some ws → ws ≠ []) →
  waiting (CleanupExpired q now).1 !! h = Some ws' →
  ws' ≠ [] ∧ existsb (dead_with now h) (pending q) = false
  ∧ ∃ ws, waiting q !! h = Some ws ∧ ∀ w, w ∈ ws' → w ∈ ws.
Proof.
  intros Hne. rewrite CleanupExpired_queue.
  destruct (CleanupExpired_sweep_rest now q) as [-> _].
  intros Hl.
  assert (Hfirst : ∀ ws,
    r_waiting (reapPending now 0 (pending q) (reapStart q)) !! h = Some ws →
    existsb (dead_with now h) (pending q) = false
    ∧ waiting q !! h = Some ws).
  { intros ws. rewrite reapPending_waiting_lookup.
    by destruct (existsb (dead_with now h) (pending q)). }
  pose proof (reapWaiters_nonempty _ _ _ _ Hl) as Hnon.
  apply reapWaiters_waiting in Hl as [Hl|(ws & Hin & Hsub)]; simpl in *.
  - destruct (Hfirst _ Hl) as [Hdead Hq]. split_and!; [|done|by exists ws'].
    by apply (Hne h).
  - apply elem_of_map_to_list in Hin.
    destruct (Hfirst _ Hin) as [Hdead Hq]. split_and!; [|done|by exists ws].
    destruct Hnon as [?|Hsame]; [done|].
    destruct (Hfirst _ Hsame) as [_ Hq']. by apply (Hne h).
Qed.
End reap_index.

Lemma dead_with_none (now : time.Time) (h : Z) (l : list PendingRequest) :
  existsb (dead_with now h) l = false
  ↔ ∀ r, r ∈ l → DataHash r = h → alive now (sendTime r) = true.
Proof.
  split.
  - intros Hex r Hr Hh.
    destruct (alive now (sendTime r)) eqn:Hal; [done|].
    assert (existsb (dead_with now h) l = true); [|congruence].
    apply existsb_exists. exists r. split; [by apply list_elem_of_In|].
    unfold dead_with. rewrite Hal, Hh, Z.eqb_refl. done.
  - intros Hall. destruct (existsb (dead_with now h) l) eqn:Hex; [|done].
    apply existsb_exists in Hex as (r & Hr & Hd).
    unfold dead_with in Hd. apply andb_true_iff in Hd as [Hal Hh].
    apply Z.eqb_eq in Hh. apply list_elem_of_In in Hr.
    rewrite (Hall r Hr Hh) in Hal. done.
Qed.

Lemma same_hash_same_request (l : list PendingRequest)
    (r1 r2 : PendingRequest) :
  NoDup (map DataHash l) → r1 ∈ l → r2 ∈ l → DataHash r1 = DataHash r2 →
  r1 = r2.
Proof.
  induction l as [|x l IH]; intros Hnd H1 H2 Hh;
    [by apply elem_of_nil in H1|].
  simpl in Hnd. apply NoDup_cons in Hnd as [Hx Hnd].
  apply elem_of_cons in H1 as [->|H1]; apply elem_of_cons in H2 as [->|H2].
  - done.
  - exfalso. apply Hx. rewrite Hh. apply list_elem_of_fmap. eauto.
  - exfalso. apply Hx. rewrite <- Hh. apply list_elem_of_fmap. eauto.
  - by apply IH.
Qed.

Lemma indexed_transition (q q' : WriteQueue.t) :
  transition q q' → indexed q → indexed q'.
Proof.
  intros Ht [Hnd Hin Hwait].
  destruct Ht as [Hp Hi Hw _ _|req Hmain _ _ Hp Hi Hw _ _
                 |req Hfree _ _ Hp Hi Hw _ _|head rest now Hp Hp' Hi Hw _ _
                 |head rest Hp Hp' Hi Hw _ _|now ->].
  - split; rewrite ?Hp, ?Hi, ?Hw; auto.
  - split; rewrite ?Hp, ?Hi; auto.
    intros h ws. rewrite Hw.
    destruct (decide (DataHash req = h)) as [<-|Hne].
    + rewrite lookup_insert_eq. intros [= <-]. split; [|done].
      by destruct (default [] (waiting q !! DataHash req)).
    + rewrite lookup_insert_ne by done. apply Hwait.
  - assert (Hnew : ∀ r, r ∈ pending q → DataHash r ≠ DataHash req).
    { intros r Hr Heq.
      assert (is_Some (inflight q !! DataHash req)) as [a Ha].
      { exists (addr r). apply Hin. eauto. }
      congruence. }
    split; rewrite ?Hp, ?Hi, ?Hw.
    + rewrite map_app. simpl. apply NoDup_app. split; [done|].
      split; [|apply NoDup_singleton].
      intros h Hh Hh'. apply list_elem_of_singleton in Hh' as ->.
      apply list_elem_of_fmap in Hh as (r & Heq & Hr).
      by apply (Hnew r).
    + intros h a. destruct (decide (DataHash req = h)) as [<-|Hne].
      * rewrite lookup_insert_eq. split.
        -- intros [= <-]. exists req. split; [|done].
           apply elem_of_app. right. left.
        -- intros (r & [Hr| ->%list_elem_of_singleton]%elem_of_app & Hh & <-);
             [|done]. by apply Hnew in Hr.
      * rewrite lookup_insert_ne by done. rewrite Hin. split.
        -- intros (r & Hr & Hh & Ha). exists r. split; [|done].
           apply elem_of_app. by left.
        -- intros (r & [Hr| ->%list_elem_of_singleton]%elem_of_app & Hh & Ha);
             [eauto | done].
    + intros h ws Hh. destruct (Hwait h ws Hh) as [? [a Ha]]. split; [done|].
      destruct (decide (DataHash req = h)) as [<-|Hne].
      * rewrite lookup_insert_eq. eauto.
      * rewrite lookup_insert_ne by done. eauto.
  - split; rewrite ?Hp', ?Hi, ?Hw; auto.
    + by rewrite Hp in Hnd.
    + intros h a. rewrite Hin, Hp. split.
      * intros (r & [->|Hr]%elem_of_cons & Hh & Ha).
        -- exists (set_SentAt head now). split; [left | done].
        -- exists r. split; [by right | done].
      * intros (r & [->|Hr]%elem_of_cons & Hh & Ha).
        -- exists head. split; [left | done].
        -- exists r. split; [by right | done].
  - rewrite Hp in Hnd. simpl in Hnd. apply NoDup_cons in Hnd as [Hhead Hnd].
    split; rewrite ?Hp', ?Hi, ?Hw; [done|..].
    + intros h a. destruct (decide (DataHash head = h)) as [<-|Hne].
      * rewrite lookup_delete_eq. split; [done|].
        intros (r & Hr & Hh & _). exfalso. apply Hhead.
        rewrite <- Hh. apply list_elem_of_fmap. eauto.
      * rewrite lookup_delete_ne by done. rewrite Hin, Hp. split.
        -- intros (r & [->|Hr]%elem_of_cons & Hh & Ha); [done|eauto].
        -- intros (r & Hr & Hh & Ha). exists r. split; [by right | done].
    + intros h ws Hh. apply lookup_delete_Some in Hh as [Hne Hh].
      destruct (Hwait h ws Hh) as [? ?]. split; [done|].
      by rewrite lookup_delete_ne.
  - split.
    + rewrite CleanupExpired_pending.
      eapply sublist_NoDup; [exact Hnd|]. apply fmap_sublist, filter_sublist.
    + intros h a. rewrite CleanupExpired_inflight, CleanupExpired_pending.
      destruct (existsb (dead_with now h) (pending q)) eqn:Hdead.
      * split; [done|]. intros (r & Hr & Hh & _).
        apply list_elem_of_In, filter_In in Hr as [Hr Hal].
        apply list_elem_of_In in Hr.
        apply existsb_exists in Hdead as (r' & Hr' & Hd).
        unfold dead_with in Hd. apply andb_true_iff in Hd as [Hal' Hh'].
        apply Z.eqb_eq in Hh'. apply list_elem_of_In in Hr'.
        assert (r' = r) as -> by (eapply same_hash_same_request; eauto; congruence).
        rewrite Hal in Hal'. done.
      * rewrite Hin. split.
        -- intros (r & Hr & Hh & Ha). exists r. split; [|done].
           apply list_elem_of_In, filter_In. split; [by apply list_elem_of_In|].
           by apply (dead_with_none now h (pending q)).
        -- intros (r & Hr & Hh & Ha). exists r. split; [|done].
           apply list_elem_of_In, filter_In in Hr as [Hr _].
           by apply list_elem_of_In.
    + intros h ws' Hh.
      apply CleanupExpired_waiting in Hh as (Hne & Hdead & ws & Hws & _);
        [|intros k ws0 Hk; by destruct (Hwait k ws0 Hk)].
      split; [done|]. rewrite CleanupExpired_inflight, Hdead.
      by destruct (Hwait h ws Hws).
Qed.

Lemma indexed_new (sp : bool) : indexed (NewWriteQueue sp).
Proof.
  split; simpl.
  - constructor.
  - intros h a. rewrite lookup_empty. split; [done|].
    intros (r & Hr & _). by apply elem_of_nil in Hr.
  - intros h ws. by rewrite lookup_empty.
Qed.

(** Any property of the queue that every transition keeps holds in every
    state the queue reaches. *)
Lemma run_transitions (P : WriteQueue.t → Prop) :
  (∀ q q', transition q q' → P q → P q') →
  ∀ acts s, P (queue s) → P (queue (run s acts).1).
Proof.
  intros Hkeep acts. induction acts as [|a acts IH]; intros s HP; [done|].
  simpl. pose proof (step_transition s a) as Ht.
  destruct (step s a) as [s1 evs1]. simpl in Ht.
  specialize (IH s1 (Hkeep _ _ Ht HP)).
  by destruct (run s1 acts) as [s2 evs2].
Qed.

(** X4: unique heads.  In every state the queue reaches, the requests of
    the pending queue have pairwise distinct fingerprints; the inflight
    index holds, under a fingerprint, exactly the address of the queued
    request with that fingerprint; and every waiter list is non-empty, is
    kept under the fingerprint of its waiters, and has its main in the
    queue, so that no waiter is left without a request that will complete
    it. *)
Theorem heads_are_unique (sp : bool) (acts : list action) :
  let q := queue (run (boot sp) acts).1 in
  NoDup (map DataHash (pending q))
  ∧ (∀ h a, inflight q !! h = Some a
            ↔ ∃ r, r ∈ pending q ∧ DataHash r = h ∧ addr r = a)
  ∧ (∀ h ws, waiting q !! h = Some ws →
       ws ≠ []
       ∧ ∃ main, main ∈ pending q
                 ∧ Forall (fun w => DataHash w = DataHash main
                                    ∧ addr w ≠ addr main) ws).
Proof.
  intros q.
  assert (Hidx : indexed q).
  { apply (run_transitions indexed indexed_transition), indexed_new. }
  pose proof (reachable_accounted sp acts) as Hacc. fold q in Hacc.
  destruct Hidx as [Hnd Hin Hwait].
  split; [done|]. split; [done|].
  intros h ws Hws. destruct (Hwait h ws Hws) as [Hne [a Ha]].
  split; [done|].
  apply Hin in Ha as (main & Hmain & Hh & _).
  exists main. split; [done|]. apply Forall_forall. intros w Hw.
  assert (Hwaits : waits q h w) by by exists ws.
  split.
  - rewrite Hh. by apply (acc_keyed _ _ Hacc).
  - intros Heq. apply (acc_apart _ _ Hacc w); [by exists h|].
    rewrite Heq. apply list_elem_of_fmap. eauto.
Qed.

(** ** Order of acceptance *)

Lemma CleanupExpired_nextReqID (q : WriteQueue.t) (now : time.Time) :
  nextReqID (CleanupExpired q now).1 = nextReqID q.
Proof.
  rewrite CleanupExpired_queue. unfold CleanupExpired_sweep.
  by destruct (foldr _ _ _) as [[? ?] ?].
Qed.

Lemma CleanupExpired_nextAddr (q : WriteQueue.t) (now : time.Time) :
  nextAddr (CleanupExpired q now).1 = nextAddr q.
Proof.
  rewrite CleanupExpired_queue.
  by destruct (CleanupExpired_sweep_fields now q) as (_ & _ & _ & _ & _ & _ & ->).
Qed.

Lemma transition_nextAddr (q q' : WriteQueue.t) :
  transition q q' →
  (nextAddr q ≤ nextAddr q' ≤ S (nextAddr q))%nat.
Proof.
  intros [? ? ? ? Hn|? ? ? ? ? ? ? ? Hn|? ? ? ? ? ? ? ? Hn|? ? ? ? ? ? ? ? Hn
         |? ? ? ? ? ? ? Hn|now ->]; rewrite ?Hn, ?CleanupExpired_nextAddr; lia.
Qed.

Lemma StronglySorted_filter {A} (R : A → A → Prop) (f : A → bool)
    (l : list A) :
  StronglySorted R l → StronglySorted R (List.filter f l).
Proof.
  induction 1 as [|x l Hl IH Hx]; simpl; [constructor|].
  destruct (f x); [|done]. constructor; [done|].
  apply List.Forall_forall. intros y Hy. apply filter_In in Hy as [Hy _].
  revert y Hy. by apply List.Forall_forall.
Qed.

Lemma numbered_transition (q q' : WriteQueue.t) :
  transition q q' → Z.of_nat (nextAddr q') < 2 ^ 64 →
  numbered q → numbered q'.
Proof.
  intros Ht Hbound [Hs Hids Hnext Hw].
  destruct Ht as [Hp Hi Hwt Hr Hn|req Hmain Ha Hid Hp Hi Hwt Hr Hn
                 |req Hfree Ha Hid Hp Hi Hwt Hr Hn
                 |head rest now Hp Hp' Hi Hwt Hr Hn
                 |head rest Hp Hp' Hi Hwt Hr Hn|now ->].
  - split; rewrite ?Hp, ?Hr, ?Hn; [done..|].
    intros h w. unfold waits. rewrite Hwt. apply Hw.
  - split; rewrite ?Hp, ?Hr, ?Hn; [done| |lia|].
    + eapply Forall_impl; [exact Hids|]. simpl. lia.
    + intros h w Hwait.
      destruct (waits_attach q (DataHash req) h req w (waiting q') Hwt Hwait)
        as [Hold|[-> _]]; [by eapply Hw | done].
  - assert (Hid' : ID req = nextReqID q + 1).
    { rewrite Hid. unfold wrap_uint64. rewrite Z.mod_small; [done|].
      rewrite Hn in Hbound. lia. }
    split; rewrite ?Hp, ?Hr, ?Hn.
    + clear Hp. induction Hs as [|x l Hl IH Hx]; simpl.
      * repeat constructor.
      * apply Forall_cons in Hids as [Hxid Hids].
        constructor; [by apply IH|].
        apply Forall_app. split; [done|]. constructor; [|done].
        unfold before. lia.
    + apply Forall_app. split.
      * eapply Forall_impl; [exact Hids|]. simpl. lia.
      * constructor; [|done]. lia.
    + lia.
    + intros h w. unfold waits. rewrite Hwt. apply Hw.
  - rewrite Hp in Hs, Hids.
    apply StronglySorted_inv in Hs as [Hs Hhead].
    apply Forall_cons in Hids as [Hhid Hids].
    split; rewrite ?Hp', ?Hr, ?Hn; [|by constructor|done|].
    + by constructor.
    + intros h w. unfold waits. rewrite Hwt. apply Hw.
  - rewrite Hp in Hs, Hids.
    apply StronglySorted_inv in Hs as [Hs Hhead].
    apply Forall_cons in Hids as [Hhid Hids].
    split; rewrite ?Hp', ?Hr, ?Hn; [done..|].
    intros h w Hwait. apply (Hw h w). by eapply waits_delete.
  - split; rewrite ?CleanupExpired_pending, ?CleanupExpired_nextReqID,
      ?CleanupExpired_nextAddr.
    + by apply StronglySorted_filter.
    + apply List.Forall_forall. intros r Hr.
      apply filter_In in Hr as [Hr _]. revert r Hr.
      by apply List.Forall_forall.
    + done.
    + intros h w Hwait. apply (Hw h w). by eapply CleanupExpired_waits.
Qed.

Lemma numbered_new (sp : bool) : numbered (NewWriteQueue sp).
Proof.
  split; simpl; [constructor|constructor|lia|].
  intros h w (ws & Hws & _). simpl in Hws. by rewrite lookup_empty in Hws.
Qed.

Lemma run_numbered (acts : list action) (s : system) :
  numbered (queue s) →
  Z.of_nat (nextAddr (queue s)) + Z.of_nat (length acts) < 2 ^ 64 →
  numbered (queue (run s acts).1)
  ∧ (nextAddr (queue (run s acts).1)
      ≤ nextAddr (queue s) + length acts)%nat.
Proof.
  revert s. induction acts as [|a acts IH]; intros s Hnum Hb; simpl.
  - split; [done|lia].
  - pose proof (step_transition s a) as Ht.
    pose proof (transition_nextAddr _ _ Ht) as Hn.
    destruct (step s a) as [s1 evs1]. simpl in Ht, Hn.
    simpl in Hb.
    assert (Hnum1 : numbered (queue s1)).
    { eapply numbered_transition; [exact Ht| lia |done]. }
    destruct (IH s1 Hnum1) as [Hnum2 Hn2]; [lia|].
    destruct (run s1 acts) as [s2 evs2]. simpl in *.
    split; [done|lia].
Qed.

(** X5: request IDs follow the order of acceptance.  In every state
    reached by fewer than 2^64 steps, the IDs of the queued requests are
    positive, at most [nextReqID], and strictly increasing from the head to
    the tail of the queue, so no two queued requests share an ID; every
    waiter has the ID 0, which no queued request has. *)
Theorem request_ids_increase (sp : bool) (acts : list action) :
  Z.of_nat (length acts) < 2 ^ 64 →
  let q := queue (run (boot sp) acts).1 in
  StronglySorted (fun r1 r2 => ID r1 < ID r2) (pending q)
  ∧ Forall (fun r => 0 < ID r ≤ nextReqID q) (pending q)
  ∧ (∀ w, waiters_of q w → ID w = 0).
Proof.
  intros Hlen q.
  destruct (run_numbered acts (boot sp) (numbered_new sp)) as [Hnum _];
    [simpl; lia|].
  fold q in Hnum. destruct Hnum as [Hs Hids _ Hw]. split_and!.
  - clear Hids. induction Hs as [|x l Hl IH Hx]; constructor; [done|].
    eapply Forall_impl; [exact Hx|]. by intros r [_ ?].
  - eapply Forall_impl; [exact Hids|]. by intros r [? _].
  - intros w [h Hh]. by apply (Hw h).
Qed.

Lemma request_ids_increase_witness :
  let q :=
    queue (run (boot true)
             [DoSend "c1" [xaa] 10 10; DoSend "c2" [xbb] 11 11;
              DoSend "c3" [xaa] 12 12]).1 in
  map ID (pending q) = [1; 2]
  ∧ StronglySorted (fun r1 r2 => ID r1 < ID r2) (pending q).
Proof.
  split; [vm_compute; reflexivity|].
  apply (request_ids_increase true
           [DoSend "c1" [xaa] 10 10; DoSend "c2" [xbb] 11 11;
            DoSend "c3" [xaa] 12 12]).
  simpl. lia.
Defined.

(** ** The three states of the link *)

Lemma phase_frame (q q' : WriteQueue.t) :
  respState q' = respState q →
  currentReqID q' = currentReqID q →
  (∀ head rest, pending q = head :: rest →
     ∃ rest', pending q' = head :: rest') →
  phase q → phase q'.
Proof.
  intros Hs Hc Hp [[? ?]|[(? & ? & Hne)|(? & head & rest & Hq & ?)]].
  - left. split; congruence.
  - right; left. split_and!; [congruence..|].
    destruct (pending q) as [|head rest]; [done|].
    destruct (Hp head rest eq_refl) as [rest' ->]. done.
  - right; right. split; [congruence|].
    destruct (Hp head rest Hq) as [rest' Hq']. exists head, rest'.
    split; [done | congruence].
Qed.

Lemma phase_idle (q : WriteQueue.t) :
  respState q = respStateIdle → currentReqID q = 0 → phase q.
Proof. intros. by left. Qed.

Lemma phase_step (s : system) (a : action) :
  phase (queue s) → phase (queue (step s a).1).
Proof.
  intros Hq.
  destruct a as [c d t0 now|req|req err now|d now|now|now]; unfold step.
  - unfold Send, Send_locked.
    destruct (RequestCache.Get (cache (queue s)) (hashData d) t0); [done|].
    destruct (RequestCache.Get (cache (queue s)) (hashData d) now); [done|].
    destruct (inflight (queue s) !! hashData d); cbv zeta; simpl.
    + eapply phase_frame; [..|exact Hq]; simpl; eauto.
    + eapply phase_frame; [..|exact Hq]; simpl; [done|done|].
      intros head rest ->. simpl. eauto.
  - destruct (sendToSerial_begin (queue s) req) as [q1|] eqn:Hb; [|done].
    destruct (sendToSerial_begin_Some _ _ _ Hb)
      as (head & rest & Hp & _ & _ & Hidle & Hp1 & _ & _ & _ & _ & Hc & Hs).
    rewrite Hp. simpl. right; left. split_and!; [done| |by rewrite Hp1, Hp].
    rewrite Hc. destruct Hq as [[_ ?]|[(? & _)|(? & _)]]; [done|..];
      rewrite Hidle in *; discriminate.
  - destruct (memb req (writing s)); [|done].
    unfold sendToSerial_end.
    destruct (pending (queue s)) as [|head rest] eqn:Hp; [done|].
    destruct (negb (addr head =? req)%nat); [done|].
    destruct err; simpl.
    + by apply phase_idle.
    + right; right. simpl. split; [done|]. by eexists _, _.
  - destruct (OnSerialData_queue (queue s) (throttle s) d now)
      as [Heq|(Hs & Hc & Hp & _)];
      destruct (OnSerialData (queue s) (throttle s) d now) as [[q' l'] evs];
      simpl in *; [by subst q'|].
    eapply phase_frame; [done|done| |exact Hq].
    intros head rest Hh. rewrite Hp, Hh. eauto.
  - unfold flushResponseLoop_fire, flushResponseLocked.
    destruct (pending (queue s)) as [|head rest] eqn:Hp; simpl.
    + eapply phase_frame; [..|exact Hq]; simpl; [done|done|].
      rewrite Hp. eauto.
    + destruct (respBuf (queue s)) as [|b buf]; simpl.
      * eapply phase_frame; [..|exact Hq]; simpl; [done|done|].
        rewrite Hp. eauto.
      * by apply phase_idle.
  - assert (Hgoal : phase (CleanupExpired (queue s) now).1);
      [|by destruct (CleanupExpired (queue s) now)].
    rewrite CleanupExpired_queue.
    destruct (CleanupExpired_sweep_fields now (queue s))
      as (Hp & _ & Hs & Hc & _).
    rewrite reapPending_active in Hp. simpl in Hp.
    destruct (pending (queue s)) as [|head rest] eqn:Hq0.
    + simpl in *. eapply phase_frame; [exact Hs|exact Hc| |exact Hq].
      by rewrite Hq0.
    + rewrite reapPending_first in Hs, Hc. simpl in Hs, Hc, Hp.
      destruct (alive now (sendTime head)); simpl in *.
      * eapply phase_frame; [exact Hs|exact Hc| |exact Hq].
        rewrite Hq0. intros ? ? [= <- <-]. eauto.
      * by apply phase_idle.
Qed.

Lemma run_phase (acts : list action) (s : system) :
  phase (queue s) → phase (queue (run s acts).1).
Proof.
  revert s. induction acts as [|a acts IH]; intros s Hq; simpl; [done|].
  pose proof (phase_step s a Hq) as Hstep.
  destruct (step s a) as [s1 evs1]. simpl in Hstep.
  specialize (IH s1 Hstep).
  by destruct (run s1 acts) as [s2 evs2].
Qed.

(** X6: [currentReqID] is set exactly while the link waits for a response.
    In every state reached by fewer than 2^64 steps, [respState] is idle,
    sending or waiting; [currentReqID] is non-zero if and only if the state
    is waiting, and it is then the ID of the head of the queue; and the
    queue is non-empty whenever the state is not idle. *)
Theorem currentReqID_marks_waiting (sp : bool) (acts : list action) :
  Z.of_nat (length acts) < 2 ^ 64 →
  let q := queue (run (boot sp) acts).1 in
  (respState q = respStateIdle ∨ respState q = respStateSending
   ∨ respState q = respStateWaiting)
  ∧ (currentReqID q ≠ 0 ↔ respState q = respStateWaiting)
  ∧ (respState q = respStateWaiting →
       ∃ head rest, pending q = head :: rest ∧ ID head = currentReqID q)
  ∧ (respState q ≠ respStateIdle → pending q ≠ []).
Proof.
  intros Hlen q.
  assert (Hph : phase q) by (apply run_phase; by left).
  destruct (run_numbered acts (boot sp) (numbered_new sp)) as [Hnum _];
    [simpl; lia|].
  fold q in Hnum. destruct Hnum as [_ Hids _ _].
  destruct Hph as [[Hs Hc]|[(Hs & Hc & Hne)|(Hs & head & rest & Hp & Hid)]];
    rewrite Hs.
  - split_and!; [by left| |discriminate|done].
    split; [done|discriminate].
  - split_and!; [by right; left| |discriminate|done].
    split; [done|discriminate].
  - rewrite Hp in Hids. apply Forall_cons in Hids as [[Hpos _] _].
    split_and!; [by right; right| |by eauto|by rewrite Hp].
    split; [done|]. intros _. lia.
Qed.

Lemma currentReqID_marks_waiting_witness :
  let q :=
    queue (run (boot true)
             [DoSend "c1" [xaa] 10 10; DoBegin 0; DoEnd 0 false 20]).1 in
  respState q = respStateWaiting ∧ currentReqID q = 1
  ∧ (currentReqID q ≠ 0 ↔ respState q = respStateWaiting).
Proof.
  split; [vm_compute; reflexivity|]. split; [vm_compute; reflexivity|].
  apply (currentReqID_marks_waiting true
           [DoSend "c1" [xaa] 10 10; DoBegin 0; DoEnd 0 false 20]).
  simpl. lia.
Defined.

(** ** The order of the writes *)

Lemma written_app (tr evs : list event) :
  written (tr ++ evs) = written tr ++ written evs.
Proof.
  induction tr as [|e tr IH]; simpl; [done|].
  destruct e; simpl; by rewrite ?IH.
Qed.

Lemma no_writes_written (evs : list event) : no_writes evs → written evs = [].
Proof.
  induction 1 as [|e evs He _ IH]; simpl; [done|]. by destruct e.
Qed.

Lemma written_elem (a : nat) (tr : list event) :
  a ∈ written tr ↔ (1 ≤ writes_to a tr)%nat.
Proof.
  unfold writes_to. induction tr as [|e tr IH]; simpl.
  - split; [by intros ?%elem_of_nil | lia].
  - destruct e as [| | | |r b| |]; simpl; try done.
    rewrite elem_of_cons, IH.
    destruct (r =? a)%nat eqn:Hr; simpl.
    + apply Nat.eqb_eq in Hr. split; [lia | by left].
    + apply Nat.eqb_neq in Hr. split; [by intros [?|?] | by right].
Qed.

Lemma transition_addrs (q q' : WriteQueue.t) (r' : PendingRequest) :
  transition q q' → r' ∈ pending q' →
  (∃ r, r ∈ pending q ∧ addr r = addr r') ∨ addr r' = nextAddr q.
Proof.
  intros [Hp _ _ _ _|req _ _ _ Hp _ _ _ _|req _ Ha _ Hp _ _ _ _
         |head rest now Hp Hp' _ _ _ _|head rest Hp Hp' _ _ _ _|now ->].
  - rewrite Hp. eauto.
  - rewrite Hp. eauto.
  - rewrite Hp. intros [?| ->%list_elem_of_singleton]%elem_of_app;
      [eauto | by right].
  - rewrite Hp', Hp. intros [->|?]%elem_of_cons; left.
    + exists head. split; [left | done].
    + exists r'. split; [by right | done].
  - rewrite Hp', Hp. intros ?. left. exists r'. split; [by right | done].
  - rewrite CleanupExpired_pending.
    intros [? _]%list_elem_of_In%filter_In. left. exists r'.
    split; [by apply list_elem_of_In | done].
Qed.

Lemma lined_transition (q q' : WriteQueue.t) :
  transition q q' → lined q → lined q'.
Proof.
  intros Ht [Hs Hb]. unfold lined.
  destruct Ht as [Hp _ _ _ Hn|req _ _ _ Hp _ _ _ Hn|req _ Ha _ Hp _ _ _ Hn
                 |head rest now Hp Hp' _ _ _ Hn|head rest Hp Hp' _ _ _ Hn
                 |now ->]; rewrite ?Hn.
  - by rewrite Hp.
  - rewrite Hp. split; [done|].
    eapply Forall_impl; [exact Hb|]. simpl. lia.
  - rewrite Hp. split.
    + clear Hp. induction Hs as [|x l Hl IH Hx]; simpl.
      * repeat constructor.
      * apply Forall_cons in Hb as [Hxb Hb].
        constructor; [by apply IH|].
        apply Forall_app. split; [done|]. constructor; [lia|done].
    + apply Forall_app. split.
      * eapply Forall_impl; [exact Hb|]. simpl. lia.
      * constructor; [lia|done].
  - rewrite Hp in Hs, Hb. rewrite Hp'.
    apply StronglySorted_inv in Hs as [Hs Hhead].
    apply Forall_cons in Hb as [Hhb Hb].
    split; by constructor.
  - rewrite Hp in Hs, Hb. rewrite Hp'.
    apply StronglySorted_inv in Hs as [Hs Hhead].
    by apply Forall_cons in Hb as [Hhb Hb].
  - rewrite CleanupExpired_pending, CleanupExpired_nextAddr. split.
    + by apply StronglySorted_filter.
    + apply List.Forall_forall. intros r Hr.
      apply filter_In in Hr as [Hr _]. revert r Hr.
      by apply List.Forall_forall.
Qed.

(** A step writes the port at most once, and then for the head of the
    queue, found idle. *)
Lemma step_written (s : system) (a : action) :
  written (step s a).2 = []
  ∨ ∃ head rest,
      pending (queue s) = head :: rest
      ∧ respState (queue s) = respStateIdle
      ∧ written (step s a).2 = [addr head]
      ∧ pending (queue (step s a).1) = pending (queue s).
Proof.
  destruct a as [c d t0 now|req|req err now|d now|now|now]; unfold step.
  - left. unfold Send, Send_locked.
    destruct (RequestCache.Get (cache (queue s)) (hashData d) t0); [done|].
    destruct (RequestCache.Get (cache (queue s)) (hashData d) now); [done|].
    destruct (inflight (queue s) !! hashData d); cbv zeta; simpl; [done|].
    by case_match.
  - destruct (sendToSerial_begin (queue s) req) as [q1|] eqn:Hb;
      [|by left].
    destruct (sendToSerial_begin_Some _ _ _ Hb)
      as (head & rest & Hp & Ha & _ & Hidle & Hp1 & _).
    rewrite Hp. simpl. right. exists head, rest.
    by rewrite Ha, Hp1, Hp.
  - left. destruct (memb req (writing s)); [|done].
    unfold sendToSerial_end.
    destruct (pending (queue s)) as [|head rest] eqn:Hp; [done|].
    destruct (negb (addr head =? req)%nat); [done|].
    destruct err; simpl; [|done].
    apply no_writes_written. repeat (constructor; [done|]).
    apply Forall_app. split;
      [apply no_writes_finished | apply no_writes_next].
  - left.
    pose proof (no_writes_OnSerialData (queue s) (throttle s) d now) as Hev.
    destruct (OnSerialData (queue s) (throttle s) d now) as [[q' l'] evs].
    by apply no_writes_written.
  - left. unfold flushResponseLoop_fire, flushResponseLocked.
    destruct (pending (queue s)) as [|head rest] eqn:Hp; simpl; [done|].
    destruct (respBuf (queue s)) as [|b buf]; simpl; [done|].
    apply no_writes_written. apply Forall_app. split;
      [apply no_writes_finished | apply no_writes_next].
  - left. pose proof (no_writes_CleanupExpired now (queue s)) as Hev.
    destruct (CleanupExpired (queue s) now) as [q' evs].
    by apply no_writes_written.
Qed.

Lemma StronglySorted_snoc (l : list nat) (x : nat) :
  StronglySorted lt l → Forall (fun y => (y < x)%nat) l →
  StronglySorted lt (l ++ [x]).
Proof.
  induction 1 as [|y l Hl IH Hy]; simpl; intros Hx.
  - repeat constructor.
  - apply Forall_cons in Hx as [Hyx Hx].
    constructor; [by apply IH|].
    apply Forall_app. split; [done|]. by constructor.
Qed.

Lemma fifo_step (s : system) (tr : list event) (a : action) :
  accounted s tr → lined (queue s) → fifo s tr →
  fifo (step s a).1 (tr ++ (step s a).2).
Proof.
  intros Hacc [Hsorted Hbelow] (Hs & Hle & Hlt).
  pose proof (step_transition s a) as Ht.
  pose proof (transition_nextAddr _ _ Ht) as Hn.
  assert (Hold : ∀ x r', x ∈ written tr →
            r' ∈ pending (queue (step s a).1) → (x ≤ addr r')%nat).
  { intros x r' Hx Hr'.
    destruct (transition_addrs _ _ r' Ht Hr') as [(r & Hr & <-)| ->].
    - by apply Hle.
    - specialize (Hlt x Hx). lia. }
  destruct (step_written s a)
    as [Hw|(head & rest & Hp & Hidle & Hw & Hsame)].
  - unfold fifo. rewrite written_app, Hw, app_nil_r.
    split_and!; [done|done|].
    intros x Hx. specialize (Hlt x Hx). lia.
  - assert (Hfresh : addr head ∉ written tr).
    { rewrite written_elem.
      rewrite (acc_idle _ _ Hacc head rest Hp Hidle). lia. }
    assert (Hhead : ∀ r, r ∈ pending (queue s) → (addr head ≤ addr r)%nat).
    { intros r. rewrite Hp in Hsorted |- *.
      apply StronglySorted_inv in Hsorted as [_ Hall].
      intros [->|Hr]%elem_of_cons; [lia|].
      rewrite Forall_forall in Hall. specialize (Hall r Hr). lia. }
    unfold fifo. rewrite written_app, Hw, Hsame. split_and!.
    + apply StronglySorted_snoc; [done|]. apply Forall_forall.
      intros x Hx.
      assert (x ≤ addr head)%nat by (apply Hle; [done|]; rewrite Hp; left).
      assert (x ≠ addr head) by (by intros ->). lia.
    + intros x r [Hx| ->%list_elem_of_singleton]%elem_of_app Hr;
        [by apply Hle | by apply Hhead].
    + intros x [Hx| ->%list_elem_of_singleton]%elem_of_app.
      * specialize (Hlt x Hx). lia.
      * rewrite Forall_forall in Hbelow.
        assert (addr head < nextAddr (queue s))%nat
          by (apply Hbelow; rewrite Hp; left).
        lia.
Qed.

Lemma run_fifo (acts : list action) (s : system) (tr : list event) :
  accounted s tr → lined (queue s) → fifo s tr →
  fifo (run s acts).1 (tr ++ (run s acts).2).
Proof.
  revert s tr. induction acts as [|a acts IH]; intros s tr Hacc Hl Hf; simpl.
  - by rewrite app_nil_r.
  - pose proof (accounted_step s tr a Hacc) as Hacc1.
    pose proof (lined_transition _ _ (step_transition s a) Hl) as Hl1.
    pose proof (fifo_step s tr a Hacc Hl Hf) as Hf1.
    destruct (step s a) as [s1 evs1]. simpl in *.
    specialize (IH s1 (tr ++ evs1) Hacc1 Hl1 Hf1).
    destruct (run s1 acts) as [s2 evs2]. simpl in *.
    by rewrite app_assoc.
Qed.


(** ** Frames *)

Lemma OnSerialData_accepts (q : WriteQueue.t) (last : gmap string time.Time)
    (d : list byte) (now : time.Time) (head : PendingRequest)
    (rest : list PendingRequest) :
  respState q = respStateWaiting → pending q = head :: rest →
  ID head = currentReqID q → time.IsZero (SentAt head) = false →
  let q' := (OnSerialData q last d now).1.1 in
  (OnSerialData q last d now).1.2 = last
  ∧ respBuf q' = respBuf q ++ d
  ∧ respState q' = respState q ∧ pending q' = pending q
  ∧ currentReqID q' = currentReqID q ∧ waiting q' = waiting q
  ∧ cache q' = cache q
  ∧ Forall (fun e => e = TimerStart ∨ e = TimerReset
                     ∨ e = GoFlushResponseLoop)
      (OnSerialData q last d now).2.
Proof.
  intros Hs Hp Hid Hsent. unfold OnSerialData.
  rewrite Hs, Hp, Hid, !Z.eqb_refl, Hsent. simpl.
  split_and!; try done.
  destruct (respTimer q); repeat (constructor; [by eauto|]); constructor.
Qed.

(** X8: the chunks of a response make one frame.  While the link waits
    for the response to the head, every chunk the serial reader hands to
    [OnSerialData] is appended to the buffer and nothing is reported to the
    issue log; when the flush timer fires, the head and its waiters are
    finished with the chunks joined in the order of arrival, and the same
    bytes are cached under the head's fingerprint.  If all chunks are
    empty there is nothing to flush: nobody is finished and the head stays
    at the front of the queue. *)
Theorem chunks_make_one_frame (s : system)
    (chunks : list (list byte * time.Time)) (now : time.Time)
    (head : PendingRequest) (rest : list PendingRequest) :
  respState (queue s) = respStateWaiting →
  pending (queue s) = head :: rest →
  ID head = currentReqID (queue s) →
  time.IsZero (SentAt head) = false →
  let fed := run s (map (fun c => DoData c.1 c.2) chunks) in
  let frame := respBuf (queue s) ++ concat (map fst chunks) in
  let fired := step fed.1 (DoFire now) in
  respBuf (queue fed.1) = frame
  ∧ pending (queue fed.1) = head :: rest
  ∧ throttle fed.1 = throttle s
  ∧ (∀ key, Issue key ∉ fed.2)
  ∧ (frame ≠ [] →
       fired.2
         = map (fun w => Finished (finishWithResponse w frame))
             (head :: default [] (waiting (queue s) !! DataHash head))
           ++ nextEvents rest
       ∧ pending (queue fired.1) = rest
       ∧ RequestCache.Get (cache (queue fired.1)) (DataHash head) now
           = Some frame)
  ∧ (frame = [] →
       fired.2 = [] ∧ pending (queue fired.1) = head :: rest).
Proof.
  intros Hs Hp Hid Hsent fed frame fired.
  assert (Hfed :
    respBuf (queue fed.1) = frame ∧ pending (queue fed.1) = head :: rest
    ∧ throttle fed.1 = throttle s ∧ (∀ key, Issue key ∉ fed.2)
    ∧ waiting (queue fed.1) = waiting (queue s)).
  { subst fed frame. clear fired. revert s Hs Hp Hid Hsent.
    induction chunks as [|[d t] chunks IH]; intros s Hs Hp Hid Hsent; simpl.
    - rewrite app_nil_r. split_and!; try done.
      intros key Hk. by apply elem_of_nil in Hk.
    - destruct (OnSerialData_accepts (queue s) (throttle s) d t head rest
                  Hs Hp Hid Hsent)
        as (Hl & Hb & Hs' & Hp' & Hc' & Hw' & _ & Hev).
      destruct (OnSerialData (queue s) (throttle s) d t) as [[q1 l1] evs1].
      simpl in *. subst l1.
      specialize (IH {| queue := q1; throttle := throttle s;
                        writing := writing s |}).
      simpl in IH. rewrite Hs', Hp', Hc' in IH.
      specialize (IH Hs Hp Hid Hsent).
      destruct (run _ (map _ chunks)) as [s2 evs2]. simpl in *.
      destruct IH as (Hb2 & Hp2 & Ht2 & Hi2 & Hw2).
      split_and!; [|done|done| |congruence].
      + by rewrite Hb2, Hb, <- app_assoc.
      + intros key [Hk|Hk]%elem_of_app; [|by apply (Hi2 key)].
        rewrite Forall_forall in Hev.
        by destruct (Hev _ Hk) as [?|[?|?]]. }
  destruct Hfed as (Hb & Hp' & Ht & Hi & Hw).
  split_and!; try done.
  - intros Hne. subst fired. unfold step.
    assert (Hev := flush_fire_events (queue fed.1) now head rest Hp').
    rewrite Hb, Hw in Hev. specialize (Hev Hne).
    unfold flushResponseLoop_fire, flushResponseLocked in *.
    rewrite Hp', Hb in *. simpl in *.
    destruct frame as [|b buf] eqn:Hf; [done|]. simpl in *.
    split_and!; [done|done|].
    unfold RequestCache.Get, RequestCache.SetWithTTL. simpl.
    rewrite lookup_insert_eq. simpl.
    unfold time.After, time.Add.
    pose proof (cacheTTLOf_bounds (rttOf head now)) as Httl.
    destruct (_ <? now) eqn:Hlt; [|done].
    apply Z.ltb_lt in Hlt. lia.
  - intros Hnil. subst fired. unfold step, flushResponseLoop_fire.
    rewrite Hp', Hb, Hnil. simpl. by rewrite Hp'.
Qed.

Lemma chunks_make_one_frame_witness :
  let s :=
    (run (boot true)
       [DoSend "c1" [xaa] 10 10; DoBegin 0; DoEnd 0 false 20]).1 in
  let fed := run s [DoData [x01; x02] 30; DoData [x03] 31] in
  respBuf (queue fed.1) = [x01; x02; x03]
  ∧ RequestCache.Get (cache (queue (step fed.1 (DoFire 90)).1))
      (hashData [xaa]) 90 = Some [x01; x02; x03].
Proof.
  pose (s := (run (boot true)
                [DoSend "c1" [xaa] 10 10; DoBegin 0; DoEnd 0 false 20]).1).
  assert (Hp : ∃ head, pending (queue s) = [head]
                       ∧ ID head = currentReqID (queue s)
                       ∧ time.IsZero (SentAt head) = false
                       ∧ DataHash head = hashData [xaa]).
  { eexists. vm_compute. split_and!; reflexivity. }
  destruct Hp as (head & Hp & Hid & Hsent & Hh).
  destruct (chunks_make_one_frame s [([x01; x02], 30); ([x03], 31)] 90
              head [] ltac:(vm_compute; reflexivity) Hp Hid Hsent)
    as (Hb & _ & _ & _ & Hfire & _).
  assert (Hbuf : respBuf (queue s) = []) by (vm_compute; reflexivity).
  rewrite Hbuf in Hb, Hfire. simpl in Hb, Hfire.
  split; [exact Hb|].
  destruct Hfire as (_ & _ & Hget); [done|].
  rewrite <- Hh. exact Hget.
Defined.

(** ** The flush loop *)

Lemma loops_app (tr evs : list event) :
  loops (tr ++ evs) = (loops tr + loops evs)%nat.
Proof. unfold loops. by rewrite List.filter_app, length_app. Qed.

Lemma loops_none (evs : list event) :
  Forall (fun e => is_loop e = false) evs → loops evs = 0%nat.
Proof.
  unfold loops. induction 1 as [|e evs He _ IH]; simpl; [done|].
  by rewrite He.
Qed.

Lemma loops_next (l : list PendingRequest) : loops (nextEvents l) = 0%nat.
Proof. by destruct l. Qed.

Lemma loops_finished (f : PendingRequest → PendingRequest)
    (l : list PendingRequest) :
  loops (map (fun r => Finished (f r)) l) = 0%nat.
Proof. apply loops_none, Forall_fmap, Forall_true. done. Qed.

Lemma loops_timeout (l : list PendingRequest) : loops (timeoutEvents l) = 0%nat.
Proof.
  apply loops_none. unfold timeoutEvents.
  induction l as [|r l IH]; simpl; [constructor|].
  by repeat constructor.
Qed.

Lemma loops_throttled (last : gmap string time.Time) (key : string)
    (interval : time.Duration) (now : time.Time) :
  loops (logIssuefThrottled last key interval now).2 = 0%nat.
Proof. unfold logIssuefThrottled. by repeat case_match. Qed.

Lemma step_timer (s : system) (a : action) :
  let q := queue s in
  let q' := queue (step s a).1 in
  (loops (step s a).2 = 0%nat ∧ respTimer q' = respTimer q
   ∧ (respBuf q' = respBuf q ∨ respBuf q' = []))
  ∨ (respTimer q' = true
     ∧ loops (step s a).2 = if respTimer q then 0%nat else 1%nat).
Proof.
  destruct a as [c d t0 now|req|req err now|d now|now|now]; unfold step;
    cbv zeta.
  - left. unfold Send, Send_locked.
    destruct (RequestCache.Get (cache (queue s)) (hashData d) t0);
      [by auto|].
    destruct (RequestCache.Get (cache (queue s)) (hashData d) now);
      [by auto|].
    destruct (inflight (queue s) !! hashData d); cbv zeta; simpl;
      [by auto|].
    split_and!; [by case_match|done|by left].
  - left. destruct (sendToSerial_begin (queue s) req) as [q1|] eqn:Hb;
      [|by auto].
    destruct (pending (queue s)) eqn:Hp; [by auto|]. simpl.
    unfold sendToSerial_begin in Hb. repeat case_match; simplify_eq.
    simpl. auto.
  - left. destruct (memb req (writing s)); [|by auto].
    unfold sendToSerial_end.
    destruct (pending (queue s)) as [|head rest] eqn:Hp; [by auto|].
    destruct (negb (addr head =? req)%nat); [by auto|].
    destruct err; simpl; [|by auto].
    split_and!; [|done|by left].
    change (loops ([Issue "serial write failed";
                    Finished (finishNoResponse head)]
                   ++ (map (fun w => Finished (finishNoResponse w))
                         (default [] (waiting (queue s) !! DataHash head))
                       ++ nextEvents rest)) = 0%nat).
    by rewrite !loops_app, loops_finished, loops_next.
  - unfold OnSerialData, drop.
    destruct (respTimer (queue s)) eqn:Ht;
      repeat case_match; simplify_eq; simpl; rewrite ?Ht;
      try (by right);
      left; (split_and!; [|done|by left]);
      match goal with
      | H : logIssuefThrottled ?l ?k ?i ?n = (_, ?evs) |- loops ?evs = _ =>
          pose proof (loops_throttled l k i n) as Hn;
          rewrite H in Hn; exact Hn
      end.
  - left. unfold flushResponseLoop_fire, flushResponseLocked.
    destruct (pending (queue s)) as [|head rest] eqn:Hp; simpl;
      [by auto|].
    destruct (respBuf (queue s)) as [|b buf]; simpl; [by auto|].
    split_and!; [|done|by right].
    change (loops ([Finished (finishWithResponse head (b :: buf))]
                   ++ (map (fun w => Finished (finishWithResponse w (b :: buf)))
                         (default [] (waiting (queue s) !! DataHash head))
                       ++ nextEvents rest)) = 0%nat).
    by rewrite !loops_app, loops_finished, loops_next.
  - left. unfold CleanupExpired.
    destruct (CleanupExpired_sweep_rest now (queue s)) as [_ Hev].
    pose proof (CleanupExpired_queue now (queue s)) as Hq.
    unfold CleanupExpired in Hq.
    destruct (CleanupExpired_sweep (queue s) now) as [[q' first] evs] eqn:Hsw.
    simpl in *.
    assert (Hf : respTimer q' = respTimer (queue s)
                 ∧ (respBuf q' = respBuf (queue s) ∨ respBuf q' = [])).
    { unfold CleanupExpired_sweep in Hsw.
      destruct (foldr _ _ _) as [[? ?] ?]. simplify_eq. simpl.
      split; [done|]. destruct (firstWasExpired _); auto. }
    destruct Hf as [Ht Hb]. split_and!; [|done..].
    rewrite loops_app, Hev, loops_timeout.
    unfold CleanupExpired_next. destruct first; [apply loops_next|done].
Qed.

Lemma run_timer (acts : list action) (s : system) (tr : list event) :
  loops tr = (if respTimer (queue s) then 1 else 0)%nat →
  (respTimer (queue s) = false → respBuf (queue s) = []) →
  let s' := (run s acts).1 in
  loops (tr ++ (run s acts).2) = (if respTimer (queue s') then 1 else 0)%nat
  ∧ (respTimer (queue s') = false → respBuf (queue s') = []).
Proof.
  revert s tr. induction acts as [|a acts IH]; intros s tr Hl Hb; simpl.
  - by rewrite app_nil_r.
  - pose proof (step_timer s a) as Hst.
    destruct (step s a) as [s1 evs1]. simpl in Hst.
    specialize (IH s1 (tr ++ evs1)).
    destruct (run s1 acts) as [s2 evs2]. simpl in *.
    rewrite app_assoc. apply IH.
    + rewrite loops_app, Hl.
      destruct Hst as [(-> & -> & _)|[-> ->]]; [lia|].
      by destruct (respTimer (queue s)).
    + destruct Hst as [(_ & Ht & Hbuf)|[-> _]]; [|done].
      rewrite Ht. intros Hf. destruct Hbuf as [->| ->]; auto.
Qed.

(** X9: one flush loop.  Until the queue is stopped, in the trace of any
    schedule [flushResponseLoop] is started at most once: once if the
    flush timer exists, not at all otherwise; and response bytes are
    buffered only while the timer exists, so no buffered frame is left
    without a loop to flush it. *)
Theorem flush_loop_starts_once (sp : bool) (acts : list action) :
  let q := queue (run (boot sp) acts).1 in
  let tr := (run (boot sp) acts).2 in
  loops tr = (if respTimer q then 1 else 0)%nat
  ∧ (GoFlushResponseLoop ∈ tr ↔ respTimer q = true)
  ∧ (respBuf q ≠ [] → respTimer q = true).
Proof.
  intros q tr.
  destruct (run_timer acts (boot sp) []) as [Hl Hb]; [done..|].
  simpl in Hl. fold q tr in Hl, Hb. split_and!; [done| |].
  - assert (Hin : GoFlushResponseLoop ∈ tr ↔ (1 ≤ loops tr)%nat).
    { unfold loops. clear. induction tr as [|e tr IH]; simpl.
      - split; [by intros ?%elem_of_nil | lia].
      - rewrite elem_of_cons, IH.
        destruct e; simpl; split; try lia; try (by intros [?|?]);
          try (by right); by left. }
    rewrite Hin, Hl. destruct (respTimer q); split; (done || lia).
  - intros Hne. destruct (respTimer q); [done|]. by destruct Hne; apply Hb.
Qed.

(** ** The throttle of the issue log *)

Section throttle.
Variable interval : time.Duration.
Hypothesis interval_pos : 0 < interval.
Hypothesis interval_fits : interval ≤ time.maxDuration.

Lemma throttled_cases (last : gmap string time.Time) (key : string)
    (now : time.Time) :
  (∀ t, last !! key = Some t → 0 < t ≤ now) →
  (logIssuefThrottled last key interval now = (last, [])
   ∧ ∃ t, last !! key = Some t ∧ now - t < interval)
  ∨ (logIssuefThrottled last key interval now
       = (<[key := now]> last, [Issue key])
     ∧ ∀ t, last !! key = Some t → t + interval ≤ now).
Proof.
  intros Hpast. unfold logIssuefThrottled, logIssuef.
  destruct (interval <=? 0) eqn:Hi; [apply Z.leb_le in Hi; lia|].
  destruct (last !! key) as [t|] eqn:Hl; simpl.
  - destruct (Hpast t eq_refl) as [Hpos Hle].
    unfold time.IsZero. destruct (t =? 0) eqn:Hz; [apply Z.eqb_eq in Hz; lia|].
    simpl. unfold time.Sub, time.maxDuration, time.minDuration in *.
    destruct (2 ^ 63 - 1 <? now - t) eqn:Hmax.
    + apply Z.ltb_lt in Hmax.
      destruct (2 ^ 63 - 1 <? interval) eqn:Hlt; [apply Z.ltb_lt in Hlt; lia|].
      right. split; [done|]. intros ? [= <-]. lia.
    + destruct (now - t <? - 2 ^ 63) eqn:Hmin; [apply Z.ltb_lt in Hmin; lia|].
      destruct (now - t <? interval) eqn:Hlt.
      * apply Z.ltb_lt in Hlt. left. split; [done|]. eauto.
      * apply Z.ltb_ge in Hlt. right. split; [done|]. intros ? [= <-]. lia.
  - right. split; [done|]. done.
Qed.

Lemma past_head (last : gmap string time.Time) (key : string)
    (now : time.Time) (rest : list (string * time.Time)) :
  past last ((key, now) :: rest) →
  ∀ t, last !! key = Some t → 0 < t ≤ now.
Proof.
  intros Hpast t Ht. destruct (Hpast key t Ht) as [Hpos Hall].
  apply Forall_cons in Hall as [Hle _]. simpl in Hle. lia.
Qed.

Lemma past_tail (last : gmap string time.Time) (c : string * time.Time)
    (rest : list (string * time.Time)) :
  past last (c :: rest) → past last rest.
Proof.
  intros Hpast k t Ht. destruct (Hpast k t Ht) as [Hpos Hall].
  by apply Forall_cons in Hall as [_ ?].
Qed.

Lemma past_insert (last : gmap string time.Time) (key : string)
    (now : time.Time) (rest : list (string * time.Time)) :
  past last ((key, now) :: rest) → 0 < now →
  StronglySorted Z.le (now :: map snd rest) →
  past (<[key := now]> last) rest.
Proof.
  intros Hpast Hnow Hsorted k t.
  destruct (decide (k = key)) as [->|Hne].
  - rewrite lookup_insert_eq. intros [= <-]. split; [done|].
    apply StronglySorted_inv in Hsorted as [_ Hall].
    apply Forall_forall. intros c Hc. rewrite Forall_forall in Hall.
    apply Hall, list_elem_of_fmap. eauto.
  - rewrite lookup_insert_ne by done. intros Ht.
    by apply (past_tail _ _ _ Hpast k t).
Qed.

Lemma issueLines_spaced (calls : list (string * time.Time))
    (last : gmap string time.Time) (key : string) :
  past last calls → StronglySorted Z.le (map snd calls) →
  Forall (fun c => 0 < c.2) calls →
  StronglySorted (fun t1 t2 => t1 + interval ≤ t2)
    (linesOf key (issueLines last interval calls))
  ∧ ∀ t0, last !! key = Some t0 →
      Forall (fun t => t0 + interval ≤ t)
        (linesOf key (issueLines last interval calls)).
Proof.
  revert last. induction calls as [|[k now] calls IH];
    intros last Hpast Hsorted Hpos; simpl.
  { split; [constructor|]. intros. constructor. }
  simpl in Hsorted. pose proof Hsorted as Hsorted'.
  apply StronglySorted_inv in Hsorted' as [Hs Hall].
  apply Forall_cons in Hpos as [Hnow Hpos]. simpl in Hnow.
  destruct (throttled_cases last k now (past_head _ _ _ _ Hpast))
    as [[-> _]|[-> Hgap]]; simpl.
  - apply IH; [by eapply past_tail|done..].
  - destruct (IH (<[k := now]> last)
                (past_insert _ _ _ _ Hpast Hnow Hsorted) Hs Hpos)
      as [IHs IHl].
    unfold linesOf in *. simpl.
    destruct (bool_decide (k = key)) eqn:Hk; simpl.
    + apply bool_decide_eq_true in Hk as ->.
      specialize (IHl now (lookup_insert_eq _ _ _)).
      split; [by constructor|].
      intros t0 Ht0. specialize (Hgap t0 Ht0). constructor; [done|].
      eapply Forall_impl; [exact IHl|]. simpl. lia.
    + apply bool_decide_eq_false in Hk.
      split; [done|]. intros t0 Ht0. apply IHl.
      by rewrite lookup_insert_ne.
Qed.

Lemma issueLines_complete (calls : list (string * time.Time))
    (last : gmap string time.Time) (key : string) (now : time.Time) :
  past last calls → StronglySorted Z.le (map snd calls) →
  Forall (fun c => 0 < c.2) calls →
  (key, now) ∈ calls →
  (∃ t0, last !! key = Some t0 ∧ now - interval < t0)
  ∨ ∃ t, (key, t) ∈ issueLines last interval calls
         ∧ now - interval < t ≤ now.
Proof.
  revert last. induction calls as [|[k n] calls IH];
    intros last Hpast Hsorted Hpos Hin; [by apply elem_of_nil in Hin|].
  simpl in Hsorted. pose proof Hsorted as Hsorted'.
  apply StronglySorted_inv in Hsorted' as [Hs Hall].
  apply Forall_cons in Hpos as [Hn Hpos]. simpl in Hn.
  simpl.
  destruct (throttled_cases last k n (past_head _ _ _ _ Hpast))
    as [[-> (t0 & Ht0 & Hclose)]|[-> Hgap]]; simpl.
  - apply elem_of_cons in Hin as [[= -> ->]|Hin].
    + left. exists t0. split; [done|lia].
    + apply IH; [by eapply past_tail|done..].
  - apply elem_of_cons in Hin as [[= -> ->]|Hin].
    + right. exists n. split; [left|lia].
    + destruct (IH (<[k := n]> last)
                  (past_insert _ _ _ _ Hpast Hn Hsorted) Hs Hpos Hin)
        as [(t0 & Ht0 & Hclose)|(t & Ht & Hclose)].
      * destruct (decide (key = k)) as [->|Hne].
        -- rewrite lookup_insert_eq in Ht0. simplify_eq.
           right. exists t0. split; [left|]. split; [done|].
           rewrite Forall_forall in Hall.
           apply Hall, list_elem_of_fmap. by exists (k, now).
        -- rewrite lookup_insert_ne in Ht0 by done. left. eauto.
      * right. exists t. split; [by right|done].
Qed.
End throttle.

(** X10: the throttle of the issue log.  When [logIssuefThrottled] is
    called with one positive interval at instants that do not go back, the
    lines written under a key are at least the interval apart; and every
    call is covered by a line under its key written less than the
    interval before it, or by the call itself. *)
Theorem throttle_spaces_lines (interval : time.Duration)
    (calls : list (string * time.Time)) :
  0 < interval ≤ time.maxDuration →
  StronglySorted Z.le (map snd calls) →
  Forall (fun c => 0 < c.2) calls →
  let log := issueLines ∅ interval calls in
  (∀ key, StronglySorted (fun t1 t2 => t1 + interval ≤ t2) (linesOf key log))
  ∧ (∀ key now, (key, now) ∈ calls →
       ∃ t, (key, t) ∈ log ∧ now - interval < t ≤ now).
Proof.
  intros [Hpos Hfit] Hsorted Hnow log.
  assert (Hpast : past ∅ calls) by (intros k t Hk; by rewrite lookup_empty in Hk).
  split.
  - intros key.
    by destruct (issueLines_spaced interval Hpos Hfit calls ∅ key).
  - intros key now Hin.
    destruct (issueLines_complete interval Hpos Hfit calls ∅ key now)
      as [(t0 & Ht0 & _)|?]; done.
Qed.

Lemma throttle_spaces_lines_witness :
  issueLines ∅ time.Second
    [("drop_state", 5); ("drop_state", 999999999); ("drop_until", 1000000000);
     ("drop_state", 1000000005)]
    = [("drop_state", 5); ("drop_until", 1000000000);
       ("drop_state", 1000000005)]
  ∧ ∀ key,
      StronglySorted (fun t1 t2 => t1 + time.Second ≤ t2)
        (linesOf key
           (issueLines ∅ time.Second
              [("drop_state", 5); ("drop_state", 999999999);
               ("drop_until", 1000000000); ("drop_state", 1000000005)])).
Proof.
  split; [vm_compute; reflexivity|].
  apply (throttle_spaces_lines time.Second
           [("drop_state", 5); ("drop_state", 999999999);
            ("drop_until", 1000000000); ("drop_state", 1000000005)]).
  - unfold time.Second, time.maxDuration. lia.
  - simpl. repeat (constructor; [|repeat (constructor; [lia|]); constructor]).
    constructor.
  - repeat (constructor; [simpl; lia|]). constructor.
Defined.

(** ** What the client is written *)

Lemma run_event (acts : list action) (s : system) (e : event) :
  e ∈ (run s acts).2 →
  ∃ pre a post,
    acts = pre ++ a :: post ∧ e ∈ (step (run s pre).1 a).2.
Proof.
  revert s. induction acts as [|a acts IH]; intros s; simpl;
    [by intros ?%elem_of_nil|].
  destruct (step s a) as [s1 evs1] eqn:Hst.
  specialize (IH s1). destruct (run s1 acts) as [s2 evs2]. simpl in *.
  intros [He|He]%elem_of_app.
  - exists [], a, acts. simpl. by rewrite Hst.
  - destruct (IH He) as (pre & b & post & -> & Hb).
    exists (a :: pre), b, post. split; [done|]. simpl. rewrite Hst.
    by destruct (run s1 pre).
Qed.

Lemma step_finished_cases (s : system) (a : action) (x : PendingRequest) :
  Finished x ∈ (step s a).2 →
  ∃ r, held (queue s) r
       ∧ (x = finishNoResponse r
          ∨ (x = finishWithResponse r (respBuf (queue s))
             ∧ respBuf (queue s) ≠ [])).
Proof.
  destruct a as [c d t0 now|req|req err now|d now|now|now]; unfold step.
  - unfold Send, Send_locked.
    repeat case_match; simplify_eq; simpl; not_listed.
  - repeat case_match; simplify_eq; simpl; not_listed.
  - destruct (memb req (writing s));
      [|simpl; not_listed].
    unfold sendToSerial_end.
    destruct (pending (queue s)) as [|head rest] eqn:Hp;
      [simpl; not_listed|].
    destruct (negb (addr head =? req)%nat);
      [simpl; not_listed|].
    destruct err; simpl; [|not_listed].
    rewrite !elem_of_cons, elem_of_app, finished_map_elem.
    intros [?|[[= ->]|[(r & Hr & ->)|Hbad]]]; [done| | |].
    + exists head. split; [|by left]. left. rewrite Hp. left.
    + exists r. split; [|by left]. right. exists (DataHash head).
      by apply default_waits.
    + by apply nextEvents_finished in Hbad.
  - pose proof (OnSerialData_no_finished (queue s) (throttle s) d now x).
    by destruct (OnSerialData (queue s) (throttle s) d now) as [[q' l'] evs].
  - unfold flushResponseLoop_fire, flushResponseLocked.
    destruct (pending (queue s)) as [|head rest] eqn:Hp;
      [simpl; not_listed|].
    destruct (respBuf (queue s)) as [|b buf];
      [simpl; not_listed|].
    simpl. rewrite !elem_of_cons, elem_of_app, finished_map_elem.
    intros [[= ->]|[(r & Hr & ->)|Hbad]].
    + exists head. split; [|by right]. left. rewrite Hp. left.
    + exists r. split; [|by right]. right. exists (DataHash head).
      by apply default_waits.
    + by apply nextEvents_finished in Hbad.
  - intros Hx.
    assert (Hx' : Finished x ∈ (CleanupExpired (queue s) now).2)
      by by destruct (CleanupExpired (queue s) now) as [q' evs].
    destruct (CleanupExpired_finishes _ _ _ Hx') as (r & Hr & ->).
    exists r. split; [done | by left].
Qed.

Lemma cache_full_step (s : system) (a : action) :
  cache_full (queue s) → cache_full (queue (step s a).1).
Proof.
  intros Hq.
  destruct a as [c d t0 now|req|req err now|d now|now|now]; unfold step.
  - unfold Send, Send_locked. repeat case_match; simplify_eq; done.
  - destruct (sendToSerial_begin (queue s) req) as [q1|] eqn:Hb; [|done].
    destruct (pending (queue s)); [done|]. simpl.
    unfold sendToSerial_begin in Hb. repeat case_match; by simplify_eq.
  - destruct (memb req (writing s)); [|done].
    unfold sendToSerial_end. repeat case_match; simplify_eq; done.
  - unfold OnSerialData, drop. repeat case_match; simplify_eq; done.
  - unfold flushResponseLoop_fire, flushResponseLocked.
    destruct (pending (queue s)) as [|head rest]; simpl; [done|].
    destruct (respBuf (queue s)) as [|b buf] eqn:Hbuf; simpl; [done|].
    intros h e. unfold RequestCache.SetWithTTL. simpl.
    destruct (decide (h = DataHash head)) as [->|Hne].
    + rewrite lookup_insert_eq. by intros [= <-].
    + rewrite lookup_insert_ne by done. apply Hq.
  - assert (Hgoal : cache_full (CleanupExpired (queue s) now).1);
      [|by destruct (CleanupExpired (queue s) now)].
    rewrite CleanupExpired_queue. unfold CleanupExpired_sweep.
    destruct (foldr _ _ _) as [[? ?] ?]. intros h e. simpl.
    rewrite CleanupExpired_lookup. destruct (cache (queue s) !! h) eqn:Hc;
      [|done].
    case_match; [done|]. intros [= <-]. by apply (Hq h).
Qed.

Lemma run_cache_full (acts : list action) (s : system) :
  cache_full (queue s) → cache_full (queue (run s acts).1).
Proof.
  revert s. induction acts as [|a acts IH]; intros s Hq; simpl; [done|].
  pose proof (cache_full_step s a Hq) as Hstep.
  destruct (step s a) as [s1 evs1]. simpl in Hstep.
  specialize (IH s1 Hstep).
  by destruct (run s1 acts) as [s2 evs2].
Qed.

Lemma respond_closed (d : list byte) :
  respond (Closed [d]) = if (0 <? length d)%nat then Writes d else Silent.
Proof. done. Qed.


(** ** The serial reader *)

Lemma substring_prefix (sub s : string) :
  String.substring 0 (String.length sub) s = sub ↔ ∃ post, s = String.append sub post.
Proof.
  revert s. induction sub as [|c sub IH]; intros s; simpl.
  - split; [by exists s|]. by destruct s.
  - destruct s as [|c' s]; simpl.
    + split; [done|]. by intros [post ?].
    + split.
      * intros [= -> Hs]. apply IH in Hs as [post ->]. by exists post.
      * intros [post [= -> ->]]. f_equal. apply IH. by exists post.
Qed.

Lemma length_append (s1 s2 : string) :
  String.length (String.append s1 s2)
    = (String.length s1 + String.length s2)%nat.
Proof. induction s1 as [|c s1 IH]; simpl; [done|]. by rewrite IH. Qed.

Lemma substring_at (i : nat) (sub s : string) :
  (i + String.length sub ≤ String.length s)%nat →
  String.substring i (String.length sub) s = sub
  ↔ ∃ pre post,
      s = String.append pre (String.append sub post) ∧ String.length pre = i.
Proof.
  revert s. induction i as [|i IH]; intros s Hlen.
  - rewrite substring_prefix. split.
    + intros [post ->]. by exists EmptyString, post.
    + intros (pre & post & -> & Hpre). destruct pre; [|done]. by exists post.
  - destruct s as [|c s]; simpl in *; [lia|].
    rewrite IH by lia. split.
    + intros (pre & post & -> & <-). by exists (String c pre), post.
    + intros (pre & post & Hs & Hpre). destruct pre as [|c' pre]; [done|].
      change (String c s = String c' (String.append pre (String.append sub post)))
        in Hs.
      simpl in Hpre. simplify_eq. by exists pre, post.
Qed.

(** X12: [contains] decides whether [substr] occurs in [s]; the empty
    string occurs in every string, and nothing longer than [s] occurs in
    it.  [isClosedError] holds exactly of the messages in which
    "use of closed" or "connection reset" occurs: its test of the length
    of the message changes nothing. *)
Theorem contains_finds_substrings (s substr : string) :
  (contains s substr = true
   ↔ ∃ pre post, s = String.append pre (String.append substr post))
  ∧ contains s "" = true
  ∧ ((String.length s < String.length substr)%nat →
       contains s substr = false)
  ∧ isClosedError s
      = contains s "use of closed" || contains s "connection reset".
Proof.
  assert (Hiff : ∀ s substr, contains s substr = true
            ↔ ∃ pre post, s = String.append pre (String.append substr post)).
  { clear. intros s substr. unfold contains. rewrite existsb_exists. split.
    - intros (i & Hi & Heq). apply in_seq in Hi.
      apply String.eqb_eq in Heq.
      apply substring_at in Heq as (pre & post & -> & _); [eauto|lia].
    - intros (pre & post & ->). exists (String.length pre).
      rewrite !length_append. split; [apply in_seq; lia|].
      apply String.eqb_eq, substring_at; [rewrite !length_append; lia|].
      eauto. }
  split_and!.
  - apply Hiff.
  - apply Hiff. by exists EmptyString, s.
  - intros Hlt. destruct (contains s substr) eqn:Hc; [|done].
    apply Hiff in Hc as (pre & post & ->).
    rewrite !length_append in Hlt. lia.
  - unfold isClosedError. destruct s as [|c s]; [|done].
    by vm_compute.
Qed.

Section reader.
Implicit Types (st : reader) (reads : list (list byte * option error)).

Lemma serialReadLoop_returned st reads :
  returned st = true → fold_left serialReadLoop_turn reads st = st.
Proof.
  intros Hr. induction reads as [|r reads IH]; simpl; [done|].
  unfold serialReadLoop_turn at 2. by rewrite Hr.
Qed.

Lemma serialReadLoop_frames st reads :
  returned st = false →
  Forall (fun f => f ≠ []) (handed st) →
  let st' := fold_left serialReadLoop_turn reads st in
  Forall (fun f => f ≠ []) (handed st')
  ∧ concat (handed st') ++ serialBuffer st'
      = concat (handed st) ++ serialBuffer st ++ received reads
  ∧ (returned st' = true ↔ Exists (fun r => closes r = true) reads).
Proof.
  revert st. induction reads as [|[d err] reads IH]; intros st Hr Hne; simpl.
  - rewrite app_nil_r, Hr. split_and!; [done|done|].
    split; [done|]. by intros ?%Exists_nil.
  - rewrite Exists_cons.
    destruct err as [err|];
      [change (closes (d, Some err))
         with (negb (frame_end err) && isClosedError (Error err))
      |change (closes (d, None)) with false]; simpl.
    + destruct (frame_end err) eqn:Hend; simpl.
      * destruct (0 <? length (serialBuffer st))%nat eqn:Hlen.
        -- assert (Ht : serialReadLoop_turn st (d, Some err)
                     = {| serialBuffer := [];
                          handed := handed st ++ [serialBuffer st];
                          returned := false |}).
           { unfold serialReadLoop_turn. simpl. by rewrite Hr, Hend, Hlen. }
           rewrite Ht.
           destruct (IH {| serialBuffer := [];
                           handed := handed st ++ [serialBuffer st];
                           returned := false |}) as (H1 & H2 & H3); simpl.
           { done. }
           { apply Forall_app. split; [done|]. constructor; [|done].
             destruct (serialBuffer st); [done|done]. }
           split_and!; [done| |].
           ++ rewrite H2. simpl. rewrite concat_app. simpl.
              by rewrite app_nil_r, <- app_assoc.
           ++ rewrite H3. split; [by right|].
              by intros [?|?].
        -- assert (Ht : serialReadLoop_turn st (d, Some err) = st).
           { unfold serialReadLoop_turn. simpl. by rewrite Hr, Hend, Hlen. }
           rewrite Ht. destruct (IH st Hr Hne) as (H1 & H2 & H3).
           split_and!; [done|done|].
           rewrite H3. split; [by right|].
              by intros [?|?].
      * destruct (isClosedError (Error err)) eqn:Hcl.
        -- assert (Ht : serialReadLoop_turn st (d, Some err)
                     = {| serialBuffer := serialBuffer st;
                          handed := handed st; returned := true |}).
           { unfold serialReadLoop_turn. simpl. by rewrite Hr, Hend, Hcl. }
           rewrite Ht, serialReadLoop_returned by done. simpl.
           rewrite app_nil_r. split_and!; [done|done|].
           split; [by left | done].
        -- assert (Ht : serialReadLoop_turn st (d, Some err) = st).
           { unfold serialReadLoop_turn. simpl. by rewrite Hr, Hend, Hcl. }
           rewrite Ht. destruct (IH st Hr Hne) as (H1 & H2 & H3).
           split_and!; [done|done|].
           rewrite H3. split; [by right|].
              by intros [?|?].
    + destruct (0 <? length d)%nat eqn:Hlen.
      * assert (Ht : serialReadLoop_turn st (d, None)
                   = {| serialBuffer := serialBuffer st ++ d;
                        handed := handed st; returned := false |}).
        { unfold serialReadLoop_turn. simpl. by rewrite Hr, Hlen. }
        rewrite Ht.
        destruct (IH {| serialBuffer := serialBuffer st ++ d;
                        handed := handed st; returned := false |})
          as (H1 & H2 & H3); simpl; [done|done|].
        split_and!; [done| |].
        -- rewrite H2. simpl. by rewrite <- !app_assoc.
        -- rewrite H3. split; [by right|].
              by intros [?|?].
      * assert (Ht : serialReadLoop_turn st (d, None) = st).
        { unfold serialReadLoop_turn. simpl. by rewrite Hr, Hlen. }
        rewrite Ht. destruct (IH st Hr Hne) as (H1 & H2 & H3).
        apply Nat.ltb_ge in Hlen. destruct d; [|simpl in Hlen; lia].
        split_and!; [done|done|].
        rewrite H3. split; [by right|].
              by intros [?|?].
Qed.
End reader.

(** X13: the serial reader cuts the stream into frames.  Whatever the
    port answers, the frames the loop hands to [OnSerialData] are not
    empty, and the frames followed by the buffer are the bytes already
    buffered followed by the bytes of the reads that returned no error, in
    order, up to the read whose error makes the loop return; bytes that a
    read returns together with an error are lost.  A timeout or [io.EOF]
    ends the frame, leaving the buffer empty.  The loop returns exactly
    when an error that is neither of those mentions a closed or reset
    connection; without a port it hands over nothing. *)
Theorem reader_cuts_frames (buffer : list byte)
    (reads : list (list byte * option error)) :
  let st := serialReadLoop true buffer reads in
  Forall (fun f => f ≠ []) (handed st)
  ∧ concat (handed st) ++ serialBuffer st = buffer ++ received reads
  ∧ (returned st = true ↔ Exists (fun r => closes r = true) reads)
  ∧ (∀ d err, frame_end err = true → returned st = false →
       let st' := serialReadLoop true buffer (reads ++ [(d, Some err)]) in
       serialBuffer st' = []
       ∧ concat (handed st') = buffer ++ received reads)
  ∧ handed (serialReadLoop false buffer reads) = [].
Proof.
  intros st. unfold serialReadLoop in *.
  destruct (serialReadLoop_frames
              {| serialBuffer := buffer; handed := []; returned := false |}
              reads) as (H1 & H2 & H3); [done|done|].
  simpl in H1, H2, H3.
  change (fold_left serialReadLoop_turn reads _) with st in H1, H2, H3.
  split_and!; [done|done|done| |].
  - intros d err Hend Hr. cbv zeta. rewrite fold_left_app. simpl.
    change (fold_left serialReadLoop_turn reads _) with st.
    unfold serialReadLoop_turn. rewrite Hr. simpl. rewrite Hend.
    destruct (0 <? length (serialBuffer st))%nat eqn:Hlen; simpl.
    + split; [done|]. rewrite concat_app. simpl. by rewrite app_nil_r.
    + apply Nat.ltb_ge in Hlen.
      destruct (serialBuffer st) eqn:Hb; [|simpl in Hlen; lia].
      split; [done|]. by rewrite app_nil_r in H2.
  - by rewrite serialReadLoop_returned.
Qed.

Lemma reader_cuts_frames_witness :
  let reads :=
    [([x01; x02], None); ([x03], None); ([xff], Some (Err "timeout"));
     ([], Some EOF); ([x04], None)] in
  handed (serialReadLoop true [] reads) = [[x01; x02; x03]]
  ∧ serialBuffer (serialReadLoop true [] reads) = [x04]
  ∧ serialBuffer
      (serialReadLoop true [] (reads ++ [([], Some (Err "i/o timeout"))]))
    = [].
Proof.
  split; [vm_compute; reflexivity|]. split; [vm_compute; reflexivity|].
  apply (reader_cuts_frames []
           [([x01; x02], None); ([x03], None); ([xff], Some (Err "timeout"));
            ([], Some EOF); ([x04], None)]).
  - vm_compute; reflexivity.
  - vm_compute; reflexivity.
Defined.

(** ** Stopping the queue *)

(** X14: [StopCleanupTimer] may be called any number of times.  After one
    or more calls on a new queue's stop channels both channels are closed
    and neither has been closed twice; the queue is what the first call
    left: the response buffer and the flush timer are gone and nothing
    else has changed, so the requests the queue held are still held, and
    unfinished.  If the link was waiting for the head, the next chunk
    from the port starts a new buffer, a new timer and a new flush loop. *)
Theorem StopCleanupTimer_is_idempotent (q : WriteQueue.t) (n : nat) :
  let stopped :=
    Nat.iter (S n) (fun c => StopCleanupTimer c.1 c.2) (q, NewStops) in
  stopped = StopCleanupTimer q NewStops
  ∧ stopCleanup stopped.2 = Closed []
  ∧ stopFlushLoop stopped.2 = Closed []
  ∧ respBuf stopped.1 = [] ∧ respTimer stopped.1 = false
  ∧ pending stopped.1 = pending q ∧ waiting stopped.1 = waiting q
  ∧ inflight stopped.1 = inflight q ∧ cache stopped.1 = cache q
  ∧ respState stopped.1 = respState q
  ∧ (∀ r, held stopped.1 r ↔ held q r)
  ∧ (∀ last d now head rest,
       respState q = respStateWaiting → pending q = head :: rest →
       ID head = currentReqID q → time.IsZero (SentAt head) = false →
       respBuf (OnSerialData stopped.1 last d now).1.1 = d
       ∧ (OnSerialData stopped.1 last d now).2
           = [TimerStart; GoFlushResponseLoop]).
Proof.
  intros stopped.
  assert (Hst : stopped = StopCleanupTimer q NewStops).
  { subst stopped. induction n as [|n IH]; [done|].
    change (Nat.iter (S (S n)) ?f ?x) with (f (Nat.iter (S n) f x)).
    rewrite IH. reflexivity. }
  rewrite Hst. simpl. split_and!; try done.
  intros last d now head rest Hs Hp Hid Hsent.
  unfold OnSerialData. simpl.
  by rewrite Hs, Hp, Hid, !Z.eqb_refl, Hsent.
Qed.

(** ** Display of the traffic *)

Lemma cleanNonPrintable_from (data buf : list byte) :
  fold_left cleanStep data buf = buf ++ cleanNonPrintable data.
Proof.
  unfold cleanNonPrintable. revert buf.
  induction data as [|b data IH]; intros buf; simpl.
  - by rewrite app_nil_r.
  - rewrite IH, (IH (cleanStep [] b)).
    assert (Hstep : cleanStep buf b = buf ++ cleanStep [] b)
      by (unfold cleanStep; by repeat case_match).
    by rewrite Hstep, <- app_assoc.
Qed.

Lemma cleanNonPrintable_cons (b : byte) (data : list byte) :
  cleanNonPrintable (b :: data)
    = (if shown b then b else "."%byte) :: cleanNonPrintable data.
Proof.
  unfold cleanNonPrintable at 1. simpl. rewrite cleanNonPrintable_from.
  unfold cleanStep, shown.
  destruct ((32 <=? Byte.to_N b) && (Byte.to_N b <=? 126))%N; simpl; [done|].
  by destruct ((Byte.to_N b =? 9) || (Byte.to_N b =? 10)
               || (Byte.to_N b =? 13))%N.
Qed.

(** X15: [cleanNonPrintable] replaces, byte for byte, what is neither
    printable ASCII (32 to 126) nor a tab, line feed or carriage return by
    a dot: the result has the length of the data and shows only such
    bytes; data that shows only such bytes is left as it is, so cleaning
    twice is cleaning once; and the cleaning of a concatenation is the
    concatenation of the cleanings. *)
Theorem cleanNonPrintable_masks (data more : list byte) :
  cleanNonPrintable data
    = map (fun b => if shown b then b else "."%byte) data
  ∧ length (cleanNonPrintable data) = length data
  ∧ Forall (fun b => shown b = true) (cleanNonPrintable data)
  ∧ (Forall (fun b => shown b = true) data → cleanNonPrintable data = data)
  ∧ cleanNonPrintable (cleanNonPrintable data) = cleanNonPrintable data
  ∧ cleanNonPrintable (data ++ more)
      = cleanNonPrintable data ++ cleanNonPrintable more.
Proof.
  assert (Hmap : ∀ d, cleanNonPrintable d
            = map (fun b => if shown b then b else "."%byte) d).
  { induction d as [|b d IH]; [done|].
    by rewrite cleanNonPrintable_cons, IH. }
  assert (Hshown : ∀ d, Forall (fun b => shown b = true) (cleanNonPrintable d)).
  { intros d. rewrite Hmap. apply Forall_fmap, Forall_forall.
    intros b _. simpl. by destruct (shown b) eqn:Hb. }
  assert (Hid : ∀ d, Forall (fun b => shown b = true) d →
                     cleanNonPrintable d = d).
  { intros d Hd. rewrite Hmap. induction Hd as [|b d Hb _ IH]; [done|].
    simpl. by rewrite Hb, IH. }
  split_and!; [done| |done|by apply Hid|by apply Hid|].
  - by rewrite Hmap, length_map.
  - by rewrite !Hmap, map_app.
Qed.

Lemma Join_snoc (l : list (list byte)) (x sep : list byte) :
  Join (l ++ [x]) sep
    = match l with
      | [] => x
      | _ => Join l sep ++ sep ++ x
      end.
Proof.
  induction l as [|e l IH]; [done|].
  destruct l as [|e' l]; [done|].
  change (Join ((e :: e' :: l) ++ [x]) sep)
    with (e ++ sep ++ Join ((e' :: l) ++ [x]) sep).
  rewrite IH.
  change (Join (e :: e' :: l) sep) with (e ++ sep ++ Join (e' :: l) sep).
  by rewrite <- !app_assoc.
Qed.

Lemma compact_loop (data : list byte) (result : list (list byte)) :
  fold_left (fun result b => result ++ [Sprintf_02x b]) data result
    = result ++ map Sprintf_02x data.
Proof.
  revert result. induction data as [|b data IH]; intros result; simpl.
  - by rewrite app_nil_r.
  - by rewrite IH, <- app_assoc.
Qed.

Lemma hexLine_from (data : list byte) (i k m : nat) (line : list byte) :
  (i + k + m ≤ length data)%nat →
  line = Join (map Sprintf_02x (take k (skipn i data))) [" "%byte] →
  fold_left
    (fun line j =>
       (if (i <? j)%nat then line ++ [" "%byte] else line)
       ++ Sprintf_02x (nth j data x00))
    (seq (i + k)%nat m) line
  = Join (map Sprintf_02x (take (k + m)%nat (skipn i data))) [" "%byte].
Proof.
  revert k line. induction m as [|m IH]; intros k line Hlen Hline; simpl.
  - by rewrite Nat.add_0_r.
  - replace (S (i + k)) with (i + S k)%nat by lia.
    rewrite (IH (S k)); [f_equal; f_equal; f_equal; lia|lia|].
    assert (Hnth : take (S k) (skipn i data)
              = take k (skipn i data) ++ [nth (i + k)%nat data x00]).
    { assert (Hk : (k < length (skipn i data))%nat)
        by (rewrite length_drop; lia).
      destruct (lookup_lt_is_Some_2 _ _ Hk) as [b Hb].
      rewrite (take_S_r _ _ b Hb). f_equal. f_equal.
      rewrite lookup_drop in Hb.
      apply nth_lookup_Some with (d := x00) in Hb. by rewrite <- Hb. }
    rewrite Hnth, map_app.
    change (map Sprintf_02x [nth (i + k)%nat data x00])
      with [Sprintf_02x (nth (i + k)%nat data x00)].
    rewrite Join_snoc. subst line.
    destruct k as [|k].
    + simpl. rewrite Nat.add_0_r, Nat.ltb_irrefl. done.
    + assert (Hlt : (i <? i + S k)%nat = true) by (apply Nat.ltb_lt; lia).
      rewrite Hlt.
      destruct (map Sprintf_02x (take (S k) (skipn i data))) eqn:Hm.
      * apply (f_equal length) in Hm.
        rewrite length_map, length_take, length_drop in Hm.
        change (length (@nil (list byte))) with 0%nat in Hm. lia.
      * by rewrite <- !app_assoc.
Qed.

Lemma hexLine_compact (data : list byte) (i end_ : nat) :
  (i ≤ end_ ≤ length data)%nat →
  hexLine data i end_
    = FormatForDisplayCompact (take (end_ - i)%nat (skipn i data)) FormatHEX.
Proof.
  intros Hle. unfold hexLine, FormatForDisplayCompact. simpl.
  rewrite compact_loop. simpl.
  replace (seq i (end_ - i)) with (seq (i + 0) (end_ - i))
    by (by rewrite Nat.add_0_r).
  rewrite (hexLine_from data i 0%nat (end_ - i)%nat); [done|lia|].
  by rewrite take_0.
Qed.

Lemma hexLines_chunks (fuel i : nat) (data : list byte)
    (result : list (list byte)) :
  (length data ≤ i + fuel)%nat → (i ≤ length data)%nat →
  hexLines fuel i data result
    = result
      ++ map (fun c => FormatForDisplayCompact c FormatHEX)
           (chunks16 fuel (skipn i data)).
Proof.
  revert i result. induction fuel as [|fuel IH]; intros i result Hf Hi.
  - simpl. by rewrite app_nil_r.
  - simpl. destruct (i <? length data)%nat eqn:Hlt.
    + apply Nat.ltb_lt in Hlt.
      destruct (skipn i data) as [|b rest] eqn:Hd.
      { apply (f_equal length) in Hd. rewrite length_drop in Hd.
        simpl in Hd. lia. }
      rewrite <- Hd.
      destruct (length data <? i + 16)%nat eqn:Hend.
      * apply Nat.ltb_lt in Hend.
        rewrite hexLine_compact by lia.
        assert (Hall : take 16%nat (skipn i data) = skipn i data)
          by (apply take_ge; rewrite length_drop; lia).
        assert (Hnone  : skipn 16%nat (skipn i data) = [])
          by (apply drop_ge; rewrite length_drop; lia).
        rewrite Hall, Hnone.
        assert (Hsame : take (length data - i)%nat (skipn i data) = skipn i data)
          by (apply take_ge; rewrite length_drop; lia).
        rewrite Hsame.
        assert (Hstop : ∀ f r, hexLines f (i + 16)%nat data r = r).
        { intros f r. destruct f; [done|]. simpl.
          assert (Hge : (i + 16 <? length data)%nat = false)
            by (apply Nat.ltb_ge; lia).
          by rewrite Hge. }
        rewrite Hstop. f_equal. simpl. by destruct fuel.
      * apply Nat.ltb_ge in Hend.
        rewrite hexLine_compact by lia.
        rewrite IH by lia. rewrite <- app_assoc. f_equal. simpl.
        rewrite drop_drop. do 3 f_equal. lia.
    + apply Nat.ltb_ge in Hlt.
      rewrite drop_ge by lia. by rewrite app_nil_r.
Qed.

Lemma chunks16_cons (fuel : nat) (data : list byte) :
  data ≠ [] →
  chunks16 (S fuel) data
    = take 16%nat data :: chunks16 fuel (skipn 16%nat data).
Proof. by destruct data. Qed.

Lemma chunks16_concat (fuel : nat) (data : list byte) :
  (length data ≤ fuel)%nat →
  concat (chunks16 fuel data) = data
  ∧ Forall (fun c => (0 < length c ≤ 16)%nat) (chunks16 fuel data)
  ∧ ∀ k c, (S k < length (chunks16 fuel data))%nat →
           chunks16 fuel data !! k = Some c → length c = 16%nat.
Proof.
  revert data. induction fuel as [|fuel IH]; intros data Hf.
  - destruct data; [|simpl in Hf; lia]. split_and!; [done|constructor|].
    intros k c Hk. simpl in Hk. lia.
  - destruct (decide (data = [])) as [->|Hne].
    { split_and!; [done|constructor|]. intros k c Hk. simpl in Hk. lia. }
    assert (Hpos : (0 < length data)%nat) by (destruct data; [done|simpl; lia]).
    rewrite chunks16_cons by done.
    destruct (IH (skipn 16%nat data)) as (Hc & Hall & Hfull).
    { rewrite length_drop. lia. }
    split_and!.
    + rewrite concat_cons, Hc. apply take_drop.
    + constructor; [|done]. rewrite length_take. lia.
    + intros k c Hk Hl. destruct k as [|k].
      * injection Hl as <-. rewrite length_take.
        change (length (?x :: ?l)) with (S (length l)) in Hk.
        destruct (chunks16 fuel (skipn 16%nat data)) as [|c' cs] eqn:Hcs;
          [simpl in Hk; lia|].
        assert (Hd : skipn 16%nat data ≠ []).
        { intros Hnil. rewrite Hnil in Hcs. by destruct fuel. }
        destruct (Nat.lt_ge_cases 16 (length data)); [lia|].
        exfalso. apply Hd, drop_ge. lia.
      * change (length (?x :: ?l)) with (S (length l)) in Hk.
        apply (Hfull k c); [lia|done].
Qed.

(** X16: the hexadecimal display.  In the format "HEX",
    [FormatForDisplayCompact] writes two lowercase hexadecimal digits for
    every byte, with single spaces between the bytes, 3n - 1 characters
    for n > 0 bytes; [FormatForDisplay] writes the same for each piece of
    16 bytes of the data, the pieces on lines of their own, and so agrees
    with the compact form on data of at most 16 bytes.  In every other
    format both are [cleanNonPrintable]. *)
Theorem hex_display_by_lines (data : list byte) (format : string) :
  let pieces := chunks16 (length data) data in
  FormatForDisplayCompact data FormatHEX
    = Join (map Sprintf_02x data) [" "%byte]
  ∧ (data ≠ [] →
       Z.of_nat (length (FormatForDisplayCompact data FormatHEX))
         = 3 * Z.of_nat (length data) - 1)
  ∧ FormatForDisplay data FormatHEX
      = Join (map (fun c => FormatForDisplayCompact c FormatHEX) pieces)
          ["010"%byte]
  ∧ concat pieces = data
  ∧ Forall (fun c => (0 < length c ≤ 16)%nat) pieces
  ∧ (∀ k c, (S k < length pieces)%nat → pieces !! k = Some c →
            length c = 16%nat)
  ∧ ((length data ≤ 16)%nat →
       FormatForDisplay data FormatHEX
         = FormatForDisplayCompact data FormatHEX)
  ∧ (format ≠ FormatHEX →
       FormatForDisplay data format = cleanNonPrintable data
       ∧ FormatForDisplayCompact data format = cleanNonPrintable data).
Proof.
  intros pieces.
  assert (Hcompact : ∀ d, FormatForDisplayCompact d FormatHEX
            = Join (map Sprintf_02x d) [" "%byte]).
  { intros d. unfold FormatForDisplayCompact. simpl.
    by rewrite compact_loop. }
  assert (Hlines : FormatForDisplay data FormatHEX
            = Join (map (fun c => FormatForDisplayCompact c FormatHEX) pieces)
                ["010"%byte]).
  { unfold FormatForDisplay. simpl.
    rewrite hexLines_chunks by lia. by rewrite drop_0. }
  destruct (chunks16_concat (length data) data) as (Hc & Hall & Hfull);
    [done|].
  split_and!; try done.
  - intros Hne. rewrite Hcompact. clear -Hne.
    induction data as [|b data IH]; [done|].
    destruct data as [|b' data]; [done|].
    specialize (IH ltac:(done)).
    change (Join (map Sprintf_02x (b :: b' :: data)) [" "%byte])
      with (Sprintf_02x b ++ [" "%byte]
            ++ Join (map Sprintf_02x (b' :: data)) [" "%byte]).
    rewrite !length_app.
    change (length (b :: b' :: data)) with (S (length (b' :: data))).
    change (length (Sprintf_02x b)) with 2%nat.
    change (length [" "%byte]) with 1%nat. lia.
  - intros Hle. rewrite Hlines. subst pieces.
    destruct (decide (data = [])) as [->|Hne]; [done|].
    destruct (length data) as [|n] eqn:Hn; [by destruct data|].
    rewrite chunks16_cons by done.
    rewrite take_ge, drop_ge by lia. simpl. by destruct n.
  - intros Hf. unfold FormatForDisplay, FormatForDisplayCompact.
    apply String.eqb_neq in Hf. by rewrite Hf.
Qed.

Lemma hex_display_by_lines_witness :
  FormatForDisplayCompact [x00; xab; x7f] "HEX"
    = ["0"; "0"; " "; "a"; "b"; " "; "7"; "f"]%byte
  ∧ FormatForDisplay [x00; xab; x7f] "HEX"
      = FormatForDisplayCompact [x00; xab; x7f] "HEX"
  ∧ FormatForDisplay [x41; x00; x0a] "UTF8" = ["A"; "."; "010"]%byte.
Proof.
  destruct (hex_display_by_lines [x00; xab; x7f] "UTF8")
    as (_ & _ & _ & _ & _ & _ & Hshort & _).
  destruct (hex_display_by_lines [x41; x00; x0a] "UTF8")
    as (_ & _ & _ & _ & _ & _ & _ & Hother).
  split; [vm_compute; reflexivity|]. split; [apply Hshort; simpl; lia|].
  destruct Hother as [-> _]; [done|]. vm_compute. reflexivity.
Defined.

(** ** Writers and the response buffer *)

Lemma remove1_NoDup (x : nat) (l : list nat) :
  NoDup l → NoDup (remove1 x l) ∧ x ∉ remove1 x l.
Proof.
  induction 1 as [|y l Hy Hl IH]; simpl.
  - split; [constructor|]. by intros ?%elem_of_nil.
  - destruct (x =? y)%nat eqn:Hxy.
    + apply Nat.eqb_eq in Hxy as ->. done.
    + apply Nat.eqb_neq in Hxy. destruct IH as [IH1 IH2]. split.
      * constructor; [|done]. intros Hin. by apply remove1_elem in Hin.
      * intros [?|?]%elem_of_cons; [done|]. by apply IH2.
Qed.

Lemma unwritten_not_writing (s : system) (tr : list event) (a : nat) :
  accounted s tr → writes_to a tr = 0%nat → a ∉ writing s.
Proof.
  intros Hacc Hzero Hin. rewrite (acc_writing _ _ Hacc a Hin) in Hzero. lia.
Qed.

Lemma OnSerialData_cases (q : WriteQueue.t) (last : gmap string time.Time)
    (d : list byte) (now : time.Time) :
  let q' := (OnSerialData q last d now).1.1 in
  q' = q
  ∨ (respState q = respStateWaiting ∧ respState q' = respStateWaiting
     ∧ pending q' = pending q ∧ respBuf q' = respBuf q ++ d).
Proof.
  unfold OnSerialData, drop.
  destruct (respState q =? respStateWaiting) eqn:Hs; simpl.
  - apply Z.eqb_eq in Hs.
    repeat case_match; simplify_eq; simpl; auto.
  - repeat case_match; simplify_eq; simpl; auto.
Qed.

Lemma settled_step (s : system) (tr : list event) (a : action) :
  accounted s tr → settled s → settled (step s a).1.
Proof.
  intros Hacc [Hnd Hhead Hbuf].
  assert (Htail : ∀ r, r ∈ tail (pending (queue s)) → addr r ∉ writing s).
  { intros r Hr. eapply unwritten_not_writing; [done|].
    by apply (acc_tail _ _ Hacc). }
  destruct a as [c d t0 now|req|req err now|d now|now|now]; unfold step.
  - unfold Send, Send_locked.
    destruct (RequestCache.Get (cache (queue s)) (hashData d) t0);
      [by split|].
    destruct (RequestCache.Get (cache (queue s)) (hashData d) now);
      [by split|].
    destruct (inflight (queue s) !! hashData d); cbv zeta; simpl.
    + by split.
    + split; simpl; [done| |done].
      intros head rest Hp Hst.
      destruct (pending (queue s)) as [|h0 r0] eqn:Hq; simpl in Hp.
      * simplify_eq. simpl. eapply unwritten_not_writing; [done|].
        by apply (acc_fresh _ _ Hacc).
      * simplify_eq. by eapply Hhead.
  - destruct (sendToSerial_begin (queue s) req) as [q1|] eqn:Hb;
      [|by split].
    destruct (sendToSerial_begin_Some _ _ _ Hb)
      as (head & rest & Hp & Ha & _ & Hidle & Hp1 & _ & _ & _ & Hb1 & _ & Hs1).
    rewrite Hp. simpl. split; simpl.
    + constructor; [|done]. subst req. eapply Hhead; [done|].
      rewrite Hidle. discriminate.
    + intros ? ? _ Hst. by rewrite Hs1 in Hst.
    + rewrite Hb1. intros Hne. specialize (Hbuf Hne).
      rewrite Hidle in Hbuf. discriminate.
  - destruct (memb req (writing s)) eqn:Hm; [|by split].
    apply memb_elem in Hm.
    destruct (remove1_NoDup req (writing s) Hnd) as [Hnd' Hgone].
    assert (Hsub : ∀ x, x ∉ writing s → x ∉ remove1 req (writing s)).
    { intros x Hx Hin. by apply remove1_elem in Hin. }
    unfold sendToSerial_end.
    destruct (pending (queue s)) as [|head rest] eqn:Hp.
    { split; simpl; [done| |done]. rewrite Hp. done. }
    destruct (addr head =? req)%nat eqn:Ha; simpl.
    2:{ split; simpl; [done| |done].
        rewrite Hp. intros ? ? [= <- <-] Hst. apply Hsub. by eapply Hhead. }
    apply Nat.eqb_eq in Ha. subst req.
    assert (Hsending : respState (queue s) = respStateSending).
    { destruct (decide (respState (queue s) = respStateSending)); [done|].
      exfalso. by eapply Hhead. }
    destruct err; simpl.
    + split; simpl; [done| |].
      * intros h r -> _. apply Hsub, Htail. rewrite ?Hp. simpl. left.
      * intros Hne. specialize (Hbuf Hne). rewrite Hsending in Hbuf.
        discriminate.
    + split; simpl; [done| |done].
      intros h r [= <- <-] _. done.
  - destruct (OnSerialData_cases (queue s) (throttle s) d now)
      as [Heq|(Hw & Hs' & Hp' & _)];
      destruct (OnSerialData (queue s) (throttle s) d now) as [[q' l'] evs];
      simpl in *.
    + subst q'. by split.
    + split; simpl; [done| |done].
      rewrite Hp', Hs', <- Hw. apply Hhead.
  - unfold flushResponseLoop_fire, flushResponseLocked.
    destruct (pending (queue s)) as [|head rest] eqn:Hp; simpl.
    { split; simpl; [done| |done]. by rewrite Hp. }
    destruct (respBuf (queue s)) as [|b buf] eqn:Hb; simpl.
    { split; simpl; [done| |done]. rewrite Hp. apply Hhead. }
    split; simpl; [done| |done].
    intros h r -> _. apply Htail. rewrite ?Hp. simpl. left.
  - assert (Hgoal : settled {| queue := (CleanupExpired (queue s) now).1;
                               throttle := throttle s;
                               writing := writing s |});
      [|by destruct (CleanupExpired (queue s) now)].
    pose proof (CleanupExpired_pending now (queue s)) as Hp'.
    rewrite CleanupExpired_queue in *.
    destruct (CleanupExpired_sweep_fields now (queue s))
      as (_ & _ & Hs & _).
    assert (Hrb : respBuf (CleanupExpired_sweep (queue s) now).1.1
              = if firstWasExpired
                     (reapPending now 0 (pending (queue s))
                        (reapStart (queue s)))
                then [] else respBuf (queue s)).
    { unfold CleanupExpired_sweep. by destruct (foldr _ _ _) as [[? ?] ?]. }
    destruct (pending (queue s)) as [|head rest] eqn:Hq0.
    + simpl in *. split; simpl; [done| |].
      * rewrite Hp'. done.
      * rewrite Hrb, Hs. done.
    + rewrite reapPending_first in Hs, Hrb. simpl in Hs, Hrb, Hp'.
      destruct (alive now (sendTime head)) eqn:Hal; simpl in *.
      * split; simpl; [done| |].
        -- rewrite Hp', Hs. intros h r [= <- <-]. by eapply Hhead.
        -- rewrite Hrb, Hs. done.
      * split; simpl; [done| |by rewrite Hrb].
        rewrite Hp'. intros h r Hf _. apply Htail. rewrite ?Hq0. simpl.
        apply list_elem_of_In.
        assert (Hin : In h (List.filter (fun r => alive now (sendTime r)) rest))
          by (rewrite Hf; by left).
        by apply filter_In in Hin as [? _].
Qed.

Lemma run_settled (acts : list action) (s : system) (tr : list event) :
  accounted s tr → settled s → settled (run s acts).1.
Proof.
  revert s tr. induction acts as [|a acts IH]; intros s tr Hacc Hset; simpl;
    [done|].
  pose proof (accounted_step s tr a Hacc) as Hacc1.
  pose proof (settled_step s tr a Hacc Hset) as Hset1.
  destruct (step s a) as [s1 evs1]. simpl in *.
  specialize (IH s1 (tr ++ evs1) Hacc1 Hset1).
  by destruct (run s1 acts) as [s2 evs2].
Qed.

Lemma reachable_settled (sp : bool) (acts : list action) :
  settled (run (boot sp) acts).1.
Proof.
  apply (run_settled acts (boot sp) []); [apply accounted_boot|].
  split; simpl; [constructor|done|done].
Qed.

(** ** Deduplication, end to end *)

Lemma run_app (s : system) (acts later : list action) :
  run s (acts ++ later)
    = ((run (run s acts).1 later).1,
       (run s acts).2 ++ (run (run s acts).1 later).2).
Proof.
  revert s. induction acts as [|a acts IH]; intros s; simpl.
  - by destruct (run s later).
  - destruct (step s a) as [s1 evs1]. rewrite IH.
    destruct (run s1 acts) as [s2 evs2]. simpl.
    by rewrite app_assoc.
Qed.

Lemma run_one (s : system) (a : action) :
  run s [a] = ((step s a).1, (step s a).2).
Proof. simpl. destruct (step s a). simpl. by rewrite app_nil_r. Qed.

Lemma run_pending_addrs (acts : list action) (s : system)
    (r : PendingRequest) :
  r ∈ pending (queue (run s acts).1) →
  (∃ r0, r0 ∈ pending (queue s) ∧ addr r0 = addr r)
  ∨ (nextAddr (queue s) ≤ addr r)%nat.
Proof.
  revert s. induction acts as [|a acts IH]; intros s; simpl; [by eauto|].
  pose proof (step_transition s a) as Ht.
  pose proof (transition_nextAddr _ _ Ht) as Hn.
  destruct (step s a) as [s1 evs1]. simpl in Ht, Hn.
  specialize (IH s1). destruct (run s1 acts) as [s2 evs2]. simpl in *.
  intros Hr. destruct (IH Hr) as [(r1 & Hr1 & Ha)|Hnew]; [|right; lia].
  destruct (transition_addrs _ _ r1 Ht Hr1) as [(r0 & Hr0 & Ha0)| Hfresh].
  - left. exists r0. split; [done | congruence].
  - right. lia.
Qed.

Lemma finishWithResponse_inj (w r : PendingRequest) (d d' : list byte) :
  unfinished w → unfinished r →
  finishWithResponse w d = finishWithResponse r d' → w = r ∧ d = d'.
Proof.
  intros Hw Hr.
  rewrite !finishWithResponse_unfinished by done.
  destruct Hw as [Hw1 Hw2], Hr as [Hr1 Hr2].
  destruct w, r. simpl in *. unfold set_ResponseCh, set_done. simpl.
  intros [=]. by simplify_eq.
Qed.

Lemma finishers_differ (w r : PendingRequest) (d : list byte) :
  unfinished w → unfinished r →
  finishWithResponse w d ≠ finishNoResponse r.
Proof.
  intros Hw Hr.
  rewrite finishWithResponse_unfinished, finishNoResponse_unfinished by done.
  intros Heq. apply (f_equal ResponseCh) in Heq. simpl in Heq. discriminate.
Qed.

(** A response is delivered only by the flush, to the head and its
    waiters, all at once. *)
Lemma step_responds (s : system) (tr : list event) (a : action)
    (w : PendingRequest) (d : list byte) :
  accounted s tr → unfinished w →
  Finished (finishWithResponse w d) ∈ (step s a).2 →
  ∃ main rest now,
    a = DoFire now ∧ pending (queue s) = main :: rest
    ∧ d = respBuf (queue s) ∧ d ≠ []
    ∧ w ∈ main :: default [] (waiting (queue s) !! DataHash main)
    ∧ (step s a).2
        = map (fun r => Finished (finishWithResponse r d))
            (main :: default [] (waiting (queue s) !! DataHash main))
          ++ nextEvents rest.
Proof.
  intros Hacc Hw.
  assert (Hun : ∀ r, held (queue s) r → unfinished r).
  { intros r Hr. by destruct (acc_sound _ _ Hacc r Hr). }
  destruct a as [c p t0 now|req|req err now|p now|now|now]; unfold step.
  - unfold Send, Send_locked.
    repeat case_match; simplify_eq; simpl; not_listed.
  - repeat case_match; simplify_eq; simpl; not_listed.
  - destruct (memb req (writing s));
      [|simpl; not_listed].
    unfold sendToSerial_end.
    destruct (pending (queue s)) as [|head rest] eqn:Hp;
      [simpl; not_listed|].
    destruct (negb (addr head =? req)%nat);
      [simpl; not_listed|].
    destruct err; simpl; [|not_listed].
    rewrite !elem_of_cons, elem_of_app, finished_map_elem.
    intros [?|[[= Heq]|[(r & Hr & Heq)|Hbad]]]; [done| | |].
    + exfalso. apply (finishers_differ w head d); [done| |done].
      apply Hun. left. rewrite Hp. left.
    + exfalso. apply (finishers_differ w r d); [done| |done].
      apply Hun. right. exists (DataHash head). by apply default_waits.
    + by apply nextEvents_finished in Hbad.
  - intros Hin. exfalso.
    pose proof (OnSerialData_no_finished (queue s) (throttle s) p now
                  (finishWithResponse w d)) as Hno.
    by destruct (OnSerialData (queue s) (throttle s) p now) as [[q' l'] evs].
  - unfold flushResponseLoop_fire, flushResponseLocked.
    destruct (pending (queue s)) as [|head rest] eqn:Hp;
      [simpl; not_listed|].
    destruct (respBuf (queue s)) as [|b buf] eqn:Hb;
      [simpl; not_listed|].
    simpl. rewrite !elem_of_cons, elem_of_app, finished_map_elem.
    intros Hin.
    assert (Hcase : ∃ r, r ∈ head :: default []
                               (waiting (queue s) !! DataHash head)
                         ∧ finishWithResponse w d
                             = finishWithResponse r (b :: buf)).
    { destruct Hin as [[= Heq]|[(r & Hr & Heq)|Hbad]].
      - exists head. split; [left | done].
      - exists r. split; [by right | done].
      - by apply nextEvents_finished in Hbad. }
    destruct Hcase as (r & Hr & Heq).
    assert (Hheld : held (queue s) r).
    { apply elem_of_cons in Hr as [->|Hr].
      - left. rewrite Hp. left.
      - right. exists (DataHash head). by apply default_waits. }
    destruct (finishWithResponse_inj w r d (b :: buf) Hw (Hun r Hheld) Heq)
      as [-> ->].
    exists head, rest, now. split_and!; done.
  - intros Hx. exfalso.
    assert (Hx' : Finished (finishWithResponse w d)
                    ∈ (CleanupExpired (queue s) now).2)
      by by destruct (CleanupExpired (queue s) now) as [q' evs].
    destruct (CleanupExpired_finishes _ _ _ Hx') as (r & Hr & Heq).
    by apply (finishers_differ w r d Hw (Hun r Hr)).
Qed.

Lemma same_bytes_eq (b p : list byte) : same_bytes b p = true ↔ b = p.
Proof.
  revert p. induction b as [|x b IH]; intros [|y p]; simpl; try done.
  rewrite andb_true_iff, IH. split.
  - intros [Hxy ->]. f_equal. by apply Byte.byte_dec_bl.
  - intros [= -> ->]. split; [|done]. by apply Byte.byte_dec_lb.
Qed.


Lemma never_head_never_written (later : list action) (st : system)
    (a : nat) :
  (∀ l r, r ∈ pending (queue (run st l).1) → addr r ≠ a) →
  writes_to a (run st later).2 = 0%nat.
Proof.
  revert st. induction later as [|a0 later IH]; intros st Hno; simpl; [done|].
  pose proof (step_written st a0) as Hwr.
  assert (Hnext : ∀ l r, r ∈ pending (queue (run (step st a0).1 l).1) →
                         addr r ≠ a).
  { intros l r Hr. apply (Hno (a0 :: l) r). simpl.
    destruct (step st a0) as [st1 evs1]. simpl in *.
    by destruct (run st1 l). }
  specialize (IH (step st a0).1 Hnext).
  destruct (step st a0) as [st1 evs1]. simpl in *.
  destruct (run st1 later) as [st2 evs2]. simpl in *.
  rewrite writes_to_app, IH.
  destruct (Nat.eq_dec (writes_to a evs1) 0%nat) as [->|Hpos]; [done|].
  exfalso.
  assert (Hin : a ∈ written evs1) by (apply written_elem; lia).
  destruct Hwr as [Hnone|(head & rest & Hp & _ & Hone & _)].
  - rewrite Hnone in Hin. by apply elem_of_nil in Hin.
  - rewrite Hone in Hin. apply list_elem_of_singleton in Hin.
    apply (Hno [] head); [|done]. simpl. rewrite Hp. left.
Qed.



(** ** One outcome for each request *)

Lemma stopped_writers_idle (s : system) (a : action) :
  after_stop a = true → writing s = [] →
  respState (queue s) ≠ respStateIdle →
  step s a = (s, []).
Proof.
  intros Ha Hw Hst. destruct a as [| req | req err now | | |]; try done;
    unfold step.
  - unfold sendToSerial_begin.
    destruct (negb (serial (queue s))); [done|].
    destruct (pending (queue s)) as [|head rest]; [done|].
    destruct (negb (addr head =? req)%nat); [done|].
    destruct (respState (queue s) =? respStateIdle) eqn:Hidle; [|done].
    by apply Z.eqb_eq in Hidle.
  - by rewrite Hw.
Qed.

Lemma stopped_run (later : list action) (s : system) :
  forallb after_stop later = true → writing s = [] →
  respState (queue s) ≠ respStateIdle →
  run s later = (s, []).
Proof.
  induction later as [|a later IH]; intros Hall Hw Hst; simpl; [done|].
  simpl in Hall. apply andb_true_iff in Hall as [Ha Hall].
  rewrite (stopped_writers_idle s a Ha Hw Hst).
  by rewrite (IH Hall Hw Hst).
Qed.


Lemma Send_holds (q : WriteQueue.t) (clientID : string) (d : list byte)
    (t0 now : time.Time) :
  match (Send q clientID d t0 now).1.2 with
  | Resolved ch =>
      (Send q clientID d t0 now).1.1 = q
      ∧ ∃ cached, ch = Closed [cached]
                  ∧ (RequestCache.Get (cache q) (hashData d) t0 = Some cached
                     ∨ RequestCache.Get (cache q) (hashData d) now
                         = Some cached)
  | Awaiting a =>
      a = nextAddr q
      ∧ ∃ r, addr r = a ∧ ClientID r = clientID ∧ Request r = d
             ∧ unfinished r
             ∧ (r ∈ pending (Send q clientID d t0 now).1.1
                ∨ waits (Send q clientID d t0 now).1.1 (hashData d) r)
  end.
Proof.
  unfold Send, Send_locked.
  destruct (RequestCache.Get (cache q) (hashData d) t0) as [c0|] eqn:H0;
    simpl; [split; [done|]; exists c0; auto|].
  destruct (RequestCache.Get (cache q) (hashData d) now) as [c1|] eqn:H1;
    simpl; [split; [done|]; exists c1; auto|].
  destruct (inflight q !! hashData d); cbv zeta; simpl.
  - split; [done|]. exists (newRequest q 0 clientID d now).
    split_and!; try done. right. unfold waits. simpl.
    eexists. split; [apply lookup_insert_eq|].
    apply elem_of_app. right. left.
  - split; [done|].
    exists (newRequest q (wrap_uint64 (nextReqID q + 1)) clientID d now).
    split_and!; try done. left. apply elem_of_app. right. left.
Qed.

Lemma run_conserves (later : list action) (s : system)
    (r : PendingRequest) :
  held (queue s) r →
  held_addr (queue (run s later).1) (addr r)
  ∨ ∃ r', addr r' = addr r ∧ finished_by (run s later).2 r'.
Proof.
  revert s r. induction later as [|a later IH]; intros s r Hr; simpl.
  - left. by exists r.
  - pose proof (step_conserves s a r Hr) as Hstep.
    destruct (step s a) as [s1 evs1]. simpl in Hstep.
    destruct Hstep as [(r1 & Hr1 & Ha)|Hfin].
    + specialize (IH s1 r1 Hr1).
      destruct (run s1 later) as [s2 evs2]. simpl in *.
      rewrite Ha in IH. destruct IH as [?|(r' & Ha' & Hfin)]; [by left|].
      right. exists r'. split; [done|].
      destruct Hfin as [?|[d ?]]; [left|right; exists d];
        apply elem_of_app; by right.
    + destruct (run s1 later) as [s2 evs2]. simpl.
      right. exists r. split; [done|].
      destruct Hfin as [?|[d ?]]; [left|right; exists d];
        apply elem_of_app; by left.
Qed.


